(** * Lazily evaluated image convolution (vw/Image/Convolution.h)

    A shallow embedding of the correlation primitives, of the standard 2D
    convolution view and of the separable convolution view of the Vision
    Workbench, together with the properties stated about them.

    Conventions of the embedding.
    - [int32] values are integers of [Z].  Signed overflow is undefined in
      C++ and is outside the model; the one place where unsigned
      ([size_t]) arithmetic is converted back to [int32] has its
      wrap-around written out ([size_t_of], [int32_of]).
    - Reading or writing a pixel yields an [option]: [None] stands for an
      access outside the object that is addressed (undefined behaviour in
      C++), and it propagates through every computation that uses it.
    - Pixel arithmetic is abstract: the pixel type [P], the kernel weight
      type [K] and their product type [R] come with the operations the
      code uses and with no law unless a statement asks for one.
    - The functions and classes of Convolution.h are embedded from the
      source.  The framework they call (views, accessors, buffers,
      rectangles, edge extension, rasterization) is not in the source at
      hand; it is modelled from the spec, and each such definition says
      so. *)

From Stdlib Require Import ZArith List Lia Bool.
From Stdlib Require Import Floats.PrimFloat.
From stdpp Require Import base option list numbers.

Local Open Scope Z_scope.

(** ** Views, pixel accessors and buffers *)

(** Modelled from the spec: the image view of the framework, with its
    extents (columns, rows, planes) and its random pixel access by
    (x,y,plane). *)
Record View (A : Type) : Type := mkView {
  cols : Z;
  rows : Z;
  planes : Z;
  pix : Z -> Z -> Z -> option A
}.
Arguments mkView {A} _ _ _ _.
Arguments cols {A} _.
Arguments rows {A} _.
Arguments planes {A} _.
Arguments pix {A} _ _ _ _.

(** Modelled from the spec: a pixel accessor of the framework, a position
    in a view that is moved by columns, rows and planes and dereferenced. *)
Record PixelAccessor (A : Type) : Type := mkAcc {
  acc_view : View A;
  acc_i : Z;
  acc_j : Z;
  acc_p : Z
}.
Arguments mkAcc {A} _ _ _ _.
Arguments acc_view {A} _.
Arguments acc_i {A} _.
Arguments acc_j {A} _.
Arguments acc_p {A} _.

Section Accessors.
Context {A : Type}.

Definition origin (v : View A) : PixelAccessor A := mkAcc v 0 0 0.

Definition advance (a : PixelAccessor A) (di dj dp : Z) : PixelAccessor A :=
  mkAcc (acc_view a) (acc_i a + di) (acc_j a + dj) (acc_p a + dp).

Definition next_col (a : PixelAccessor A) : PixelAccessor A := advance a 1 0 0.
Definition next_row (a : PixelAccessor A) : PixelAccessor A := advance a 0 1 0.
Definition next_plane (a : PixelAccessor A) : PixelAccessor A := advance a 0 0 1.

(** Dereferencing an accessor. *)
Definition deref (a : PixelAccessor A) : option A :=
  pix (acc_view a) (acc_i a) (acc_j a) (acc_p a).

End Accessors.

(** Modelled from the spec: the memory buffer [ImageView<A>], planes of
    rows of pixels stored contiguously and addressed by strides. *)
Record ImageView (A : Type) : Type := mkImage {
  iv_cols : Z;
  iv_rows : Z;
  iv_planes : Z;
  iv_data : list A
}.
Arguments mkImage {A} _ _ _ _.
Arguments iv_cols {A} _.
Arguments iv_rows {A} _.
Arguments iv_planes {A} _.
Arguments iv_data {A} _.

Section Buffers.
Context {A : Type}.

(** Offset of pixel (x,y,p) from the start of the buffer. *)
Definition iv_index (b : ImageView A) (x y p : Z) : Z :=
  x + iv_cols b * y + iv_cols b * iv_rows b * p.

(** Reading and writing a pixel of the buffer: the offset must lie in the
    storage. *)
Definition iv_get (b : ImageView A) (x y p : Z) : option A :=
  let k := iv_index b x y p in
  if 0 <=? k then iv_data b !! Z.to_nat k else None.

Definition iv_put (b : ImageView A) (x y p : Z) (v : A) : option (ImageView A) :=
  let k := iv_index b x y p in
  if (0 <=? k) && (k <? Z.of_nat (length (iv_data b)))
  then Some (mkImage (iv_cols b) (iv_rows b) (iv_planes b)
                     (<[Z.to_nat k := v]> (iv_data b)))
  else None.

(** A buffer seen as a view. *)
Definition image_view (b : ImageView A) : View A :=
  mkView (iv_cols b) (iv_rows b) (iv_planes b) (iv_get b).

(** Modelled from the spec: the buffer allocation of [ImageView]
    ([ImageView(cols,rows,planes)] and [set_size]), an external
    collaborator.  The buffer holds cols*rows*planes default-constructed
    pixels; extents are validated by precondition, so a negative extent
    yields no buffer. *)
Definition new_image (dflt : A) (c r p : Z) : option (ImageView A) :=
  if (0 <=? c) && (0 <=? r) && (0 <=? p)
  then Some (mkImage c r p (replicate (Z.to_nat (c * r * p)) dflt))
  else None.

(** The extents are non-negative and the storage has their size. *)
Definition iv_wf (b : ImageView A) : Prop :=
  0 <= iv_cols b /\ 0 <= iv_rows b /\ 0 <= iv_planes b /\
  Z.of_nat (length (iv_data b)) = iv_cols b * iv_rows b * iv_planes b.

Definition same_extents (b b' : ImageView A) : Prop :=
  iv_cols b' = iv_cols b /\ iv_rows b' = iv_rows b /\ iv_planes b' = iv_planes b.
End Buffers.

(** Modelled from the spec: [BBox2i], the integer rectangle of the
    rasterization protocol, kept as its two corners. *)
Record BBox2i : Type := mkBBox {
  min_x : Z;
  min_y : Z;
  max_x : Z;
  max_y : Z
}.

(** Modelled from the spec: [BBox2i(x, y, width, height)], [width()] and
    [height()]. *)
Definition bbox (x y w h : Z) : BBox2i := mkBBox x y (x + w) (y + h).
Definition width (bb : BBox2i) : Z := max_x bb - min_x bb.
Definition height (bb : BBox2i) : Z := max_y bb - min_y bb.

(** ** View adapters of the framework *)

Section Adapters.
Context {A : Type}.

(** Modelled from the spec: the kernel orientation adapter
    [Rotate180View], a read-only index remap that reverses the kernel
    along both axes. *)
Definition rotate180 (k : View A) : View A :=
  mkView (cols k) (rows k) (planes k)
         (fun i j p => pix k (cols k - 1 - i) (rows k - 1 - j) p).

(** Modelled from the spec: [crop(image, x, y, cols, rows)]. *)
Definition crop (v : View A) (x y c r : Z) : View A :=
  mkView c r (planes v) (fun i j p => pix v (i + x) (j + y) p).

(** Modelled from the spec: [transpose(image)]. *)
Definition transpose (v : View A) : View A :=
  mkView (rows v) (cols v) (planes v) (fun i j p => pix v j i p).
End Adapters.

(** ** Edge extension policies *)

Section EdgeExtension.
Context {P : Type}.

(** Modelled from the spec: an edge extension policy maps an
    out-of-range coordinate to a pixel value; inside the image it
    answers with the image's own pixel. *)
Record EdgePolicy : Type := mkEdge {
  extend : View P -> Z -> Z -> Z -> option P;
  extend_inside : forall v i j p,
    0 <= i < cols v -> 0 <= j < rows v -> extend v i j p = pix v i j p
}.

Definition in_image (v : View P) (i j : Z) : bool :=
  (0 <=? i) && (0 <=? j) && (i <? cols v) && (j <? rows v).

Lemma in_image_true v i j :
  0 <= i < cols v -> 0 <= j < rows v -> in_image v i j = true.
Proof.
  intros [Hi1 Hi2] [Hj1 Hj2]. unfold in_image.
  rewrite !andb_true_iff, !Z.leb_le, !Z.ltb_lt. lia.
Qed.

(** Modelled from the spec: [NoEdgeExtension], the no-op policy. *)
Definition no_extend (v : View P) (i j p : Z) : option P := pix v i j p.

Definition NoEdgeExtension : EdgePolicy :=
  mkEdge no_extend (fun v i j p _ _ => eq_refl).

(** Modelled from the spec: [ZeroEdgeExtension], zero padding: a
    default-constructed pixel outside the image. *)
Definition zero_extend (pzero : P) (v : View P) (i j p : Z) : option P :=
  if in_image v i j then pix v i j p else Some pzero.

Lemma zero_extend_inside pzero v i j p :
  0 <= i < cols v -> 0 <= j < rows v -> zero_extend pzero v i j p = pix v i j p.
Proof. intros Hi Hj. unfold zero_extend. by rewrite in_image_true. Qed.

Definition ZeroEdgeExtension (pzero : P) : EdgePolicy :=
  mkEdge (zero_extend pzero) (zero_extend_inside pzero).

(** Modelled from the spec: [ConstantEdgeExtension], the nearest pixel of
    the image. *)
Definition clamp (n i : Z) : Z :=
  if i <? 0 then 0 else if n <=? i then n - 1 else i.

Definition constant_extend (v : View P) (i j p : Z) : option P :=
  pix v (clamp (cols v) i) (clamp (rows v) j) p.

Lemma clamp_inside n i : 0 <= i < n -> clamp n i = i.
Proof.
  intros [H1 H2]. unfold clamp.
  destruct (Z.ltb_spec i 0); [lia|]. destruct (Z.leb_spec n i); [lia|done].
Qed.

Lemma constant_extend_inside v i j p :
  0 <= i < cols v -> 0 <= j < rows v -> constant_extend v i j p = pix v i j p.
Proof. intros Hi Hj. unfold constant_extend. by rewrite !clamp_inside. Qed.

Definition ConstantEdgeExtension : EdgePolicy :=
  mkEdge constant_extend constant_extend_inside.

(** Modelled from the spec: [edge_extend(image, edge)], the view of the
    image's extents in which every coordinate is answered by the policy. *)
Definition edge_extend (image : View P) (E : EdgePolicy) : View P :=
  mkView (cols image) (rows image) (planes image)
         (fun i j p => extend E image i j p).

(** Modelled from the spec: [edge_extend(image, bbox, edge)], the
    rectangle [bbox] of the extended image, its corner moved to the
    origin. *)
Definition edge_extend_bbox (image : View P) (bb : BBox2i) (E : EdgePolicy) : View P :=
  mkView (width bb) (height bb) (planes image)
         (fun i j p => extend E image (i + min_x bb) (j + min_y bb) p).
End EdgeExtension.
Arguments EdgePolicy : clear implicits.

(** ** The core correlation functions *)

Section Correlation.
Context {P K R : Type}.
(** The accumulator [result_type()] after [validate], the addition of
    [result += ...] and the product of a weight and a pixel.  The loops
    count an extent down to zero; extents are counts, never negative, so a
    loop runs [Z.to_nat] of its extent times. *)
Variable zero : R.
Variable add : R -> R -> R.
Variable mul : K -> P -> R.

(** The loop of [correlate_1d_at_point].  The kernel iterator is the list
    of the weights still to be read: [*k] is its head, [++k] its tail. *)
Fixpoint correlate_1d_loop (i : nat) (s : PixelAccessor P) (k : list K)
         (result : R) : option R :=
  match i with
  | O => Some result
  | S i' =>
      kv ← head k;
      sv ← deref s;
      correlate_1d_loop i' (next_col s) (tail k) (add result (mul kv sv))
  end.

Definition correlate_1d_at_point (src : PixelAccessor P) (kernel : list K)
           (n : Z) : option R :=
  correlate_1d_loop (Z.to_nat n) src kernel zero.

(** The inner loop of [correlate_2d_at_point], over the columns. *)
Fixpoint correlate_2d_cols (i : nat) (scol : PixelAccessor P)
         (kcol : PixelAccessor K) (result : R) : option R :=
  match i with
  | O => Some result
  | S i' =>
      kv ← deref kcol;
      sv ← deref scol;
      correlate_2d_cols i' (next_col scol) (next_col kcol) (add result (mul kv sv))
  end.

(** The outer loop, over the rows. *)
Fixpoint correlate_2d_rows (j : nat) (ncols : nat) (srow : PixelAccessor P)
         (krow : PixelAccessor K) (result : R) : option R :=
  match j with
  | O => Some result
  | S j' =>
      r ← correlate_2d_cols ncols srow krow result;
      correlate_2d_rows j' ncols (next_row srow) (next_row krow) r
  end.

Definition correlate_2d_at_point (src : PixelAccessor P) (kernel : PixelAccessor K)
           (ncols nrows : Z) : option R :=
  correlate_2d_rows (Z.to_nat nrows) (Z.to_nat ncols) src kernel zero.
End Correlation.

(** ** Rasterization into a buffer *)

(** Modelled from the spec: a destination of a rasterization is a buffer,
    written directly or through [transpose(dest)]. *)
Inductive DestShape : Type := Direct | Transposed.

Section Destinations.
Context {B : Type}.

Definition dest_cols (sh : DestShape) (b : ImageView B) : Z :=
  match sh with Direct => iv_cols b | Transposed => iv_rows b end.

Definition dest_rows (sh : DestShape) (b : ImageView B) : Z :=
  match sh with Direct => iv_rows b | Transposed => iv_cols b end.

Definition dest_get (sh : DestShape) (b : ImageView B) (x y p : Z) : option B :=
  match sh with Direct => iv_get b x y p | Transposed => iv_get b y x p end.

Definition dest_put (sh : DestShape) (b : ImageView B) (x y p : Z) (v : B)
  : option (ImageView B) :=
  match sh with Direct => iv_put b x y p v | Transposed => iv_put b y x p v end.
End Destinations.

Section LoopNest.
Context {A B : Type}.
(** The right-hand side of the assignment to the destination pixel,
    computed from the source accessor. *)
Variable value : PixelAccessor A -> option B.
Variable sh : DestShape.

(** The loop nest over planes, rows and columns that [convolve_1d] and the
    framework's [rasterize] share: source and destination accessors step
    together, and every destination pixel is assigned once.  The
    destination accessor is the position (dx,dy,dp). *)
Fixpoint fill_cols (n : nat) (scol : PixelAccessor A) (dx dy dp : Z)
         (dest : ImageView B) : option (ImageView B) :=
  match n with
  | O => Some dest
  | S n' =>
      v ← value scol;
      dest' ← dest_put sh dest dx dy dp v;
      fill_cols n' (next_col scol) (dx + 1) dy dp dest'
  end.

Fixpoint fill_rows (n ncols : nat) (srow : PixelAccessor A) (dx dy dp : Z)
         (dest : ImageView B) : option (ImageView B) :=
  match n with
  | O => Some dest
  | S n' =>
      dest' ← fill_cols ncols srow dx dy dp dest;
      fill_rows n' ncols (next_row srow) dx (dy + 1) dp dest'
  end.

Fixpoint fill_planes (n nrows ncols : nat) (splane : PixelAccessor A) (dx dy dp : Z)
         (dest : ImageView B) : option (ImageView B) :=
  match n with
  | O => Some dest
  | S n' =>
      dest' ← fill_rows nrows ncols splane dx dy dp dest;
      fill_planes n' nrows ncols (next_plane splane) dx dy (dp + 1) dest'
  end.
End LoopNest.

Section Rasterize.
Context {A B : Type}.
(** The conversion [DestPixelT(...)] to the destination's pixel type. *)
Variable convert : A -> B.

(** Modelled from the spec: the framework's [rasterize(src, dest, bbox)],
    the tiled rasterization entry point: it requires a destination of the
    rectangle's extents and of the source's plane count, and assigns the
    source pixel of the rectangle to every destination pixel. *)
Definition rasterize_view (src : View A) (dest : ImageView B) (bb : BBox2i)
  : option (ImageView B) :=
  if (iv_cols dest =? width bb) && (iv_rows dest =? height bb)
     && (iv_planes dest =? planes src)
  then fill_planes (fun s => convert <$> deref s) Direct
         (Z.to_nat (planes src)) (Z.to_nat (height bb)) (Z.to_nat (width bb))
         (advance (origin src) (min_x bb) (min_y bb) 0) 0 0 0 dest
  else None.

(** Modelled from the spec: the conversion of a view to an [ImageView],
    which allocates a buffer of the view's extents and rasterizes the
    whole view into it. *)
Definition materialize (dflt : B) (v : View A) : option (ImageView B) :=
  buf ← new_image dflt (cols v) (rows v) (planes v);
  rasterize_view v buf (bbox 0 0 (cols v) (rows v)).
End Rasterize.

(** ** The standard 2D convolution view *)

Module Conv.
Section ConvolutionView.
Context {P K R : Type}.
Variable zero : R.
Variable add : R -> R -> R.
Variable mul : K -> P -> R.
(** [pixel_type()] of the image, which fills a fresh buffer. *)
Variable pdflt : P.

(** [Rotate180View<KernelT>] keeps the kernel it wraps. *)
Record Rotate180View : Type := mkRotate180 { child : View K }.

Definition rotated (k : Rotate180View) : View K := rotate180 (child k).

Record ConvolutionView : Type := mkConvolutionView {
  m_image : View P;
  m_edge : EdgePolicy P;
  m_kernel : Rotate180View;
  m_ci : Z;
  m_cj : Z
}.

(** The constructor with the origin of the kernel at (ci,cj). *)
Definition make_at (image : View P) (kernel : View K) (ci cj : Z)
           (edge : EdgePolicy P) : ConvolutionView :=
  mkConvolutionView image edge (mkRotate180 kernel) ci cj.

(** The constructor with the origin of the kernel at its center;
    [/] on [int32] truncates. *)
Definition make_centered (image : View P) (kernel : View K)
           (edge : EdgePolicy P) : ConvolutionView :=
  mkConvolutionView image edge (mkRotate180 kernel)
                    ((cols kernel - 1) ÷ 2) ((rows kernel - 1) ÷ 2).

(** [cols()], [rows()] and [planes()] *)
Definition view_cols (cv : ConvolutionView) : Z := cols (m_image cv).
Definition view_rows (cv : ConvolutionView) : Z := rows (m_image cv).
Definition view_planes (cv : ConvolutionView) : Z := planes (m_image cv).

(** The local [ci], [cj] of [operator()] and [prerasterize]. *)
Definition margin_i (cv : ConvolutionView) : Z :=
  cols (rotated (m_kernel cv)) - 1 - m_ci cv.
Definition margin_j (cv : ConvolutionView) : Z :=
  rows (rotated (m_kernel cv)) - 1 - m_cj cv.

(** The test of [operator()]: the kernel's footprint lies in the image. *)
Definition interior (cv : ConvolutionView) (x y : Z) : bool :=
  (margin_i cv <=? x) && (margin_j cv <=? y)
  && (x <=? cols (m_image cv) - cols (rotated (m_kernel cv)) + margin_i cv)
  && (y <=? rows (m_image cv) - rows (rotated (m_kernel cv)) + margin_j cv).

(** The first branch of [operator()]: the raw image. *)
Definition fast_path (cv : ConvolutionView) (x y p : Z) : option R :=
  correlate_2d_at_point zero add mul
    (advance (origin (m_image cv)) (x - margin_i cv) (y - margin_j cv) p)
    (origin (rotated (m_kernel cv)))
    (cols (rotated (m_kernel cv))) (rows (rotated (m_kernel cv))).

(** The second branch: the edge-extended image. *)
Definition slow_path (cv : ConvolutionView) (x y p : Z) : option R :=
  correlate_2d_at_point zero add mul
    (advance (origin (edge_extend (m_image cv) (m_edge cv)))
             (x - margin_i cv) (y - margin_j cv) p)
    (origin (rotated (m_kernel cv)))
    (cols (rotated (m_kernel cv))) (rows (rotated (m_kernel cv))).

(** [operator()( x, y, p )] *)
Definition call (cv : ConvolutionView) (x y p : Z) : option R :=
  if interior cv x y then fast_path cv x y p else slow_path cv x y p.

(** The view as a [View], as the framework's [rasterize] reads it through
    its procedural accessor. *)
Definition as_view (cv : ConvolutionView) : View R :=
  mkView (view_cols cv) (view_rows cv) (view_planes cv) (call cv).

(** The source rectangle of [prerasterize]: the destination rectangle
    enlarged by the kernel's extent less one and shifted by the margins. *)
Definition src_bbox (cv : ConvolutionView) (bb : BBox2i) : BBox2i :=
  bbox (min_x bb - margin_i cv) (min_y bb - margin_j cv)
       (width bb + (cols (rotated (m_kernel cv)) - 1))
       (height bb + (rows (rotated (m_kernel cv)) - 1)).

(** [prerasterize( bbox )]: the source rectangle materialized through the
    edge policy, cropped back to the image's coordinates, under the no-op
    policy. *)
Definition prerasterize (cv : ConvolutionView) (bb : BBox2i) : option ConvolutionView :=
  src ← materialize id pdflt (edge_extend_bbox (m_image cv) (src_bbox cv bb) (m_edge cv));
  Some (make_at (crop (image_view src)
                      (- min_x (src_bbox cv bb)) (- min_y (src_bbox cv bb))
                      (cols (m_image cv)) (rows (m_image cv)))
                (child (m_kernel cv)) (m_ci cv) (m_cj cv) NoEdgeExtension).

(** [rasterize( dest, bbox )] *)
Definition rasterize (cv : ConvolutionView) (dest : ImageView R) (bb : BBox2i)
  : option (ImageView R) :=
  pre ← prerasterize cv bb;
  rasterize_view id (as_view pre) dest bb.

End ConvolutionView.
End Conv.

(** ** The separable 2D convolution view *)

(** Conversion of an integer to [size_t] and to [int32]. *)
Definition size_t_of (size_bits z : Z) : Z := z mod 2 ^ size_bits.
Definition int32_of (z : Z) : Z := (z + 2 ^ 31) mod 2 ^ 32 - 2 ^ 31.

Module Sep.
Section SeparableConvolutionView.
Context {P K R : Type}.
Variable zero : R.
Variable add : R -> R -> R.
Variable mul : K -> P -> R.
(** Weight times a pixel of the intermediate buffer, in the second pass. *)
Variable mulR : K -> R -> R.
(** Product of two weights, and the weight [1]. *)
Variable kmul : K -> K -> K.
Variable kone : K.
(** Conversion of an image pixel to the view's pixel type. *)
Variable promote : P -> R.
(** Default-constructed values, which fill fresh buffers. *)
Variable pdflt : P.
Variable kdflt : K.
Variable rdflt : R.
(** The width of [size_t]. *)
Variable size_bits : Z.

Record SeparableConvolutionView : Type := mkSeparableConvolutionView {
  m_image : View P;
  m_i_kernel : list K;
  m_j_kernel : list K;
  m_ci : Z;
  m_cj : Z;
  m_edge : EdgePolicy P;
  m_kernel2d : ImageView K
}.

(** A default-constructed [ImageView]. *)
Definition no_image : ImageView K := mkImage 0 0 0 [].

(** [std::vector::size()] *)
Definition size (k : list K) : Z := Z.of_nat (length k).

(** The constructor with the origin of the kernel at (ci,cj). *)
Definition make_at (image : View P) (ik jk : list K) (ci cj : Z)
           (edge : EdgePolicy P) : SeparableConvolutionView :=
  mkSeparableConvolutionView image ik jk ci cj edge no_image.

(** [(size()-1)/2], computed in [size_t] and stored in an [int32]. *)
Definition center (k : list K) : Z :=
  int32_of (size_t_of size_bits (size k - 1) / 2).

(** The constructor with the origin of the kernel at its center. *)
Definition make_centered (image : View P) (ik jk : list K)
           (edge : EdgePolicy P) : SeparableConvolutionView :=
  mkSeparableConvolutionView image ik jk (center ik) (center jk) edge no_image.

(** [cols()], [rows()] and [planes()] *)
Definition view_cols (sv : SeparableConvolutionView) : Z := cols (m_image sv).
Definition view_rows (sv : SeparableConvolutionView) : Z := rows (m_image sv).
Definition view_planes (sv : SeparableConvolutionView) : Z := planes (m_image sv).

(** [size() ? size() : 1] *)
Definition extent (k : list K) : Z := if size k =? 0 then 1 else size k.

(** [size() ? kernel[i] : 1] *)
Definition weight (k : list K) (i : Z) : option K :=
  if size k =? 0 then Some kone
  else if 0 <=? i then k !! Z.to_nat i else None.

(** The inner loop of [generate2DKernel], over j. *)
Fixpoint generate_j (fuel : nat) (ik jk : list K) (ni nj i j : Z)
         (k2 : ImageView K) : option (ImageView K) :=
  match fuel with
  | O => Some k2
  | S fuel' =>
      a ← weight ik i;
      b ← weight jk j;
      k2' ← iv_put k2 (ni - 1 - i) (nj - 1 - j) 0 (kmul a b);
      generate_j fuel' ik jk ni nj i (j + 1) k2'
  end.

(** The outer loop, over i. *)
Fixpoint generate_i (fuel : nat) (ik jk : list K) (ni nj i : Z)
         (k2 : ImageView K) : option (ImageView K) :=
  match fuel with
  | O => Some k2
  | S fuel' =>
      k2' ← generate_j (Z.to_nat nj) ik jk ni nj i 0 k2;
      generate_i fuel' ik jk ni nj (i + 1) k2'
  end.

(** The kernel that [generate2DKernel] stores in [m_kernel2d]. *)
Definition kernel2d_of (ik jk : list K) : option (ImageView K) :=
  let ni := extent ik in
  let nj := extent jk in
  k0 ← new_image kdflt ni nj 1;
  generate_i (Z.to_nat ni) ik jk ni nj 0 k0.

Definition generate2DKernel (sv : SeparableConvolutionView)
  : option SeparableConvolutionView :=
  k2 ← kernel2d_of (m_i_kernel sv) (m_j_kernel sv);
  Some (mkSeparableConvolutionView (m_image sv) (m_i_kernel sv) (m_j_kernel sv)
          (m_ci sv) (m_cj sv) (m_edge sv) k2).

(** The local [ci], [cj] of [operator()]: [size() ? (size()-1-m_c) : 0],
    computed in [size_t] and stored in an [int32]. *)
Definition margin (k : list K) (c : Z) : Z :=
  if size k =? 0 then 0 else int32_of (size_t_of size_bits (size k - 1 - c)).

Definition margin_i (sv : SeparableConvolutionView) : Z := margin (m_i_kernel sv) (m_ci sv).
Definition margin_j (sv : SeparableConvolutionView) : Z := margin (m_j_kernel sv) (m_cj sv).

(** The test and the two branches of [operator()], on the memoized
    kernel. *)
Definition interior (sv : SeparableConvolutionView) (x y : Z) : bool :=
  (margin_i sv <=? x) && (margin_j sv <=? y)
  && (x <=? cols (m_image sv) - iv_cols (m_kernel2d sv) + margin_i sv)
  && (y <=? rows (m_image sv) - iv_rows (m_kernel2d sv) + margin_j sv).

Definition fast_path (sv : SeparableConvolutionView) (x y p : Z) : option R :=
  correlate_2d_at_point zero add mul
    (advance (origin (m_image sv)) (x - margin_i sv) (y - margin_j sv) p)
    (origin (image_view (m_kernel2d sv)))
    (iv_cols (m_kernel2d sv)) (iv_rows (m_kernel2d sv)).

Definition slow_path (sv : SeparableConvolutionView) (x y p : Z) : option R :=
  correlate_2d_at_point zero add mul
    (advance (origin (edge_extend (m_image sv) (m_edge sv)))
             (x - margin_i sv) (y - margin_j sv) p)
    (origin (image_view (m_kernel2d sv)))
    (iv_cols (m_kernel2d sv)) (iv_rows (m_kernel2d sv)).

(** [operator()( x, y, p )]: the value and the view with its memoized
    kernel. *)
Definition call (sv : SeparableConvolutionView) (x y p : Z)
  : option (R * SeparableConvolutionView) :=
  sv' ← (if iv_cols (m_kernel2d sv) =? 0 then generate2DKernel sv else Some sv);
  r ← (if interior sv' x y then fast_path sv' x y p else slow_path sv' x y p);
  Some (r, sv').

(** A sequence of point evaluations on one view, each on the view that
    the one before left. *)
Fixpoint calls (sv : SeparableConvolutionView) (queries : list (Z * Z * Z))
  : option (list R * SeparableConvolutionView) :=
  match queries with
  | [] => Some ([], sv)
  | (x, y, p) :: rest =>
      '(r, sv') ← call sv x y p;
      '(rs, sv'') ← calls sv' rest;
      Some (r :: rs, sv'')
  end.

Section Convolve1D.
Context {S : Type}.
Variable times : K -> S -> R.

(** [convolve_1d( src, dest, kernel )]; [kernel.rbegin()] reads the
    weights from the last to the first. *)
Definition convolve_1d (src : View S) (sh : DestShape) (dest : ImageView R)
           (kernel : list K) : option (ImageView R) :=
  fill_planes
    (fun scol => correlate_1d_at_point zero add times scol (rev kernel) (size kernel))
    sh
    (Z.to_nat (planes src)) (Z.to_nat (dest_rows sh dest)) (Z.to_nat (dest_cols sh dest))
    (origin src) 0 0 0 dest.
End Convolve1D.

(** The source rectangle of [rasterize]: the destination rectangle grown
    by the halo of each axis that has weights. *)
Definition child_bbox (sv : SeparableConvolutionView) (bb : BBox2i) : BBox2i :=
  let ni := size (m_i_kernel sv) in
  let nj := size (m_j_kernel sv) in
  mkBBox (min_x bb - (if ni =? 0 then 0 else ni - m_ci sv - 1))
         (min_y bb - (if nj =? 0 then 0 else nj - m_cj sv - 1))
         (max_x bb + (if ni =? 0 then 0 else m_ci sv))
         (max_y bb + (if nj =? 0 then 0 else m_cj sv)).

(** [rasterize( dest, bbox )].  The intermediate buffer [work] is
    constructed from a width and a height only, hence with the one plane
    of the constructor's default. *)
Definition rasterize (sv : SeparableConvolutionView) (dest : ImageView R) (bb : BBox2i)
  : option (ImageView R) :=
  let ni := size (m_i_kernel sv) in
  let nj := size (m_j_kernel sv) in
  if (ni =? 0) && (nj =? 0)
  then rasterize_view promote (edge_extend (m_image sv) (m_edge sv)) dest bb
  else
    src_buf ← materialize id pdflt
                (edge_extend_bbox (m_image sv) (child_bbox sv bb) (m_edge sv));
    if (0 <? ni) && (0 <? nj) then
      work ← new_image rdflt (width bb) (height (child_bbox sv bb)) 1;
      work' ← convolve_1d mul (image_view src_buf) Direct work (m_i_kernel sv);
      convolve_1d mulR (transpose (image_view work')) Transposed dest (m_j_kernel sv)
    else if 0 <? ni then
      convolve_1d mul (image_view src_buf) Direct dest (m_i_kernel sv)
    else
      convolve_1d mul (transpose (image_view src_buf)) Transposed dest (m_j_kernel sv).

(** [prerasterize( bbox )]: a buffer of the image's plane count,
    rasterized. *)
Definition prerasterize (sv : SeparableConvolutionView) (bb : BBox2i)
  : option (ImageView R) :=
  dest ← new_image rdflt (width bb) (height bb) (planes (m_image sv));
  rasterize sv dest bb.

End SeparableConvolutionView.
End Sep.

(** * The vocabulary of the statements

    Predicates on buffers and views, the concrete scenario, and the
    reference definitions, written after the spec's words, against which
    the views are compared. *)

Section Validity.
Context {B : Type}.
Implicit Types (b : ImageView B) (sh : DestShape).

(** (x,y,p) is a pixel of the buffer. *)
Definition iv_valid b (x y p : Z) : Prop :=
  0 <= x < iv_cols b /\ 0 <= y < iv_rows b /\ 0 <= p < iv_planes b.

(** (x,y,p) is a pixel of the destination. *)
Definition dest_valid sh b (x y p : Z) : Prop :=
  0 <= x < dest_cols sh b /\ 0 <= y < dest_rows sh b /\ 0 <= p < iv_planes b.
End Validity.

(** Every weight of the kernel can be read. *)
Definition kernel_defined {K : Type} (k : View K) : Prop :=
  forall i j, 0 <= i < cols k -> 0 <= j < rows k -> is_Some (pix k i j 0).

(** The edge-extended image has a pixel at every coordinate of its planes. *)
Definition extended_defined {P : Type} (E : EdgePolicy P) (image : View P) : Prop :=
  forall i j p, 0 <= p < planes image -> is_Some (extend E image i j p).

(** A buffer of c by r by p pixels, all equal to one. *)
Definition ones (c r p : Z) : ImageView Z :=
  mkImage c r p (replicate (Z.to_nat (c * r * p)) 1).

(** The 5-by-5 single-plane image of ones under the 3-by-3 kernel of ones,
    default origin, zero padding. *)
Definition scenario : Conv.ConvolutionView :=
  Conv.make_centered (image_view (ones 5 5 1)) (image_view (ones 3 3 1))
                     (ZeroEdgeExtension 0).

(** A 2D kernel with no column and no row. *)
Definition empty_kernel : View Z := image_view (mkImage 0 0 0 []).

(** The outer product of an empty sequence of row factors and of the
    column factors jk, read literally: a grid without columns. *)
Definition no_columns (jk : list Z) : View Z :=
  image_view (mkImage 0 (Sep.size jk) 1 []).

(** The nearest binary64 values of 0.1 and of 0.3. *)
Definition tenth : float := 0x1.999999999999ap-4%float.
Definition three_tenths : float := 0x1.3333333333333p-2%float.

(** The conditions under which [rasterize] is called: a destination of the
    rectangle's extents and of the image's plane count, and a source
    rectangle of non-negative extents (which it has as soon as the kernel
    has a column and a row, or the rectangle is not empty). *)
Definition rasterizable {P K R : Type} (cv : Conv.ConvolutionView (P:=P) (K:=K))
           (dest : ImageView R) (bb : BBox2i) : Prop :=
  iv_wf dest /\ iv_cols dest = width bb /\ iv_rows dest = height bb /\
  iv_planes dest = planes (Conv.m_image cv) /\
  0 <= width (Conv.src_bbox cv bb) /\ 0 <= height (Conv.src_bbox cv bb).

(** The rectangle [tile] lies in the rectangle [bb]. *)
Definition inside (tile bb : BBox2i) : Prop :=
  min_x bb <= min_x tile /\ max_x tile <= max_x bb /\
  min_y bb <= min_y tile /\ max_y tile <= max_y bb.

Section Cache.
Context {P K : Type}.
Variable kmul : K -> K -> K.
Variable kone : K.
Variable kdflt : K.
Implicit Types (sv : Sep.SeparableConvolutionView (P:=P) (K:=K)).

(** The view with the kernel [k2] in its cache. *)
Definition with_kernel sv (k2 : ImageView K) : Sep.SeparableConvolutionView :=
  Sep.mkSeparableConvolutionView (Sep.m_image sv) (Sep.m_i_kernel sv) (Sep.m_j_kernel sv)
    (Sep.m_ci sv) (Sep.m_cj sv) (Sep.m_edge sv) k2.

(** The cache is empty, or holds the kernel generated from the factors. *)
Definition cache_ok sv : Prop :=
  Sep.m_kernel2d sv = Sep.no_image \/
  Sep.kernel2d_of kmul kone kdflt (Sep.m_i_kernel sv) (Sep.m_j_kernel sv)
  = Some (Sep.m_kernel2d sv).
End Cache.

Section Sums.
Context {Src K R : Type}.
Variable add : R -> R -> R.
Variable times : K -> Src -> R.

(** The sum that the primitives accumulate, on the values read: n terms
    from position a on, added to r one after the other. *)
Fixpoint weighted_sum (n : nat) (g : Z -> K) (f : Z -> Src) (a : Z) (r : R) : R :=
  match n with
  | O => r
  | S n' => weighted_sum n' g f (a + 1) (add r (times (g a) (f a)))
  end.

(** The sum that the 2D primitive accumulates: m rows of n terms. *)
Fixpoint weighted_sum_rows (m n : nat) (g : Z -> Z -> K) (f : Z -> Z -> Src)
         (b : Z) (r : R) : R :=
  match m with
  | O => r
  | S m' =>
      weighted_sum_rows m' n g f (b + 1)
        (weighted_sum n (fun a => g a b) (fun a => f a b) 0 r)
  end.
End Sums.

(** The laws of exact pixel arithmetic under which two 1D passes compute
    the sum of the 2D pass: addition is associative with [zero] as right
    unit, a weight distributes over sums, and weighting by one factor after
    the other is weighting by their product. *)
Definition exact_arithmetic {P K R : Type} (zero : R) (add : R -> R -> R)
           (mul : K -> P -> R) (mulR : K -> R -> R) (kmul : K -> K -> K) : Prop :=
  (forall a b c, add a (add b c) = add (add a b) c) /\
  (forall a, add a zero = a) /\
  (forall k, mulR k zero = zero) /\
  (forall k a b, mulR k (add a b) = add (mulR k a) (mulR k b)) /\
  (forall ki kj p, mulR kj (mul ki p) = mul (kmul ki kj) p).

Section OuterProduct.
Context {K : Type}.
Variable kmul : K -> K -> K.
Variable kone : K.

(** The materialized outer-product kernel of the factor sequences, in the
    spec's words: the 2D grid whose weight at (i,j) is the product of the
    i-th row factor and the j-th column factor, an empty sequence counting
    as the single weight 1. *)
Definition outer_product (ik jk : list K) : View K :=
  mkView (Sep.extent ik) (Sep.extent jk) 1
         (fun i j p =>
            if (0 <=? i) && (0 <=? j) && (p =? 0)
            then a ← Sep.weight kone ik i; b ← Sep.weight kone jk j; Some (kmul a b)
            else None).
End OuterProduct.

(** The margin of an axis is an [int32] value. *)
Definition origin_fits {K : Type} (k : list K) (c : Z) : Prop :=
  - 2 ^ 31 <= Sep.size k - 1 - c < 2 ^ 31.

(** The origin on an axis is 0 when the axis has no weight, and gives an
    [int32] margin otherwise. *)
Definition origin_ok {K : Type} (k : list K) (c : Z) : Prop :=
  match k with [] => c = 0 | _ => origin_fits k c end.

Section Filters.
Context {P K R : Type}.
Variable zero : R.
Variable add : R -> R -> R.
Variable mul : K -> P -> R.
Variable kmul : K -> K -> K.
Variable pdflt : P.
Variable kdflt : K.
Implicit Types (sv : Sep.SeparableConvolutionView (P:=P) (K:=K)).

(** The source filtered along the row axis only, in the spec's words: the
    1D convolution of each row of the edge-extended image with the row
    factors, the origin of the factors at index ci. *)
Definition row_filtered sv (x y p : Z) : option R :=
  correlate_1d_at_point zero add mul
    (advance (origin (edge_extend (Sep.m_image sv) (Sep.m_edge sv)))
             (x - (Sep.size (Sep.m_i_kernel sv) - 1 - Sep.m_ci sv)) y p)
    (rev (Sep.m_i_kernel sv)) (Sep.size (Sep.m_i_kernel sv)).

(** The source filtered along the column axis only: the 1D convolution of
    each column of the edge-extended image with the column factors, the
    origin of the factors at index cj. *)
Definition column_filtered sv (x y p : Z) : option R :=
  correlate_1d_at_point zero add mul
    (advance (origin (transpose (edge_extend (Sep.m_image sv) (Sep.m_edge sv))))
             (y - (Sep.size (Sep.m_j_kernel sv) - 1 - Sep.m_cj sv)) x p)
    (rev (Sep.m_j_kernel sv)) (Sep.size (Sep.m_j_kernel sv)).

(** The halo of an axis: nothing for an empty factor sequence. *)
Definition halo (k : list K) : Z := if Sep.size k =? 0 then 0 else Sep.size k - 1.

(** The a-th weight of a factor sequence read from its end. *)
Definition reversed_weight (k : list K) (a : Z) : K :=
  default kdflt (rev k !! Z.to_nat a).

(** The pixel of the edge-extended image under tap (s,t) of the kernel
    placed for the output pixel (x,y,p). *)
Definition tap (image : View P) (E : EdgePolicy P) (mi mj x y p s t : Z) : P :=
  default pdflt (extend E image (x - mi + s) (y - mj + t) p).

(** The value of the convolution at (x,y,p), on the values read. *)
Definition conv_value (image : View P) (E : EdgePolicy P) (ik jk : list K)
           (ci cj x y p : Z) : R :=
  weighted_sum_rows add mul (length jk) (length ik)
    (fun s t => kmul (reversed_weight ik s) (reversed_weight jk t))
    (tap image E (Sep.size ik - 1 - ci) (Sep.size jk - 1 - cj) x y p) 0 zero.
End Filters.

Section ConvolutionSum.
Context {P K R : Type}.
Variable zero : R.
Variable add : R -> R -> R.
Variable mul : K -> P -> R.
Variable pdflt : P.
Variable kdflt : K.

(** The convolution sum at (x,y,p), on the values read: the weight (a,b)
    of the kernel multiplies the pixel of the edge-extended image at
    (x + ci - a, y + cj - b); the terms are added row after row from the
    last weight of the last row to the first weight of the first row. *)
Definition convolution_sum (image : View P) (E : EdgePolicy P) (kernel : View K)
           (ci cj x y p : Z) : R :=
  weighted_sum_rows add mul (Z.to_nat (rows kernel)) (Z.to_nat (cols kernel))
    (fun s t => default kdflt (pix kernel (cols kernel - 1 - s) (rows kernel - 1 - t) 0))
    (fun s t => default pdflt (extend E image (x + ci - (cols kernel - 1 - s))
                                              (y + cj - (rows kernel - 1 - t)) p))
    0 zero.
End ConvolutionSum.

Section TwoPasses.
Context {P K R : Type}.
Variable zero : R.
Variable add : R -> R -> R.
Variable mul : K -> P -> R.
Variable mulR : K -> R -> R.
Variable pdflt : P.
Variable kdflt : K.

(** The value of the two passes at (x,y,p), on the values read: the sum,
    over the column factors read from the last to the first, of the
    factor times the row sum of its row; a row sum is the sum, over the
    row factors read from the last to the first, of the factor times the
    pixel of the edge-extended image. *)
Definition two_pass_value (image : View P) (E : EdgePolicy P) (ik jk : list K)
           (ci cj x y p : Z) : R :=
  weighted_sum add mulR (length jk) (reversed_weight kdflt jk)
    (fun t => weighted_sum add mul (length ik) (reversed_weight kdflt ik)
                (fun s => tap pdflt image E (Sep.size ik - 1 - ci) (Sep.size jk - 1 - cj)
                              x y p s t)
                0 zero)
    0 zero.
End TwoPasses.

Section Shapes.
Context {B : Type}.

(** Two buffers of the same extents and of the same storage size. *)
Definition same_shape (b b' : ImageView B) : Prop :=
  same_extents b b' /\ length (iv_data b') = length (iv_data b).
End Shapes.

(** * Properties *)

(** ** Accessors *)

Section AccessorFacts.
Context {A : Type}.
Implicit Types (a : PixelAccessor A) (v : View A).

Lemma advance_0 a : advance a 0 0 0 = a.
Proof. destruct a; unfold advance; simpl; f_equal; lia. Qed.

Lemma advance_advance a i j p i' j' p' :
  advance (advance a i j p) i' j' p' = advance a (i + i') (j + j') (p + p').
Proof. unfold advance; simpl; f_equal; lia. Qed.

Lemma advance_next_col a i j p :
  advance (next_col a) i j p = advance a (1 + i) j p.
Proof. unfold next_col. rewrite advance_advance. f_equal. Qed.

Lemma advance_next_row a i j p :
  advance (next_row a) i j p = advance a i (1 + j) p.
Proof. unfold next_row. rewrite advance_advance. f_equal. Qed.

Lemma advance_next_plane a i j p :
  advance (next_plane a) i j p = advance a i j (1 + p).
Proof. unfold next_plane. rewrite advance_advance. f_equal. Qed.

Lemma deref_advance_origin v i j p :
  deref (advance (origin v) i j p) = pix v i j p.
Proof. reflexivity. Qed.

Lemma deref_advance a i j p :
  deref (advance a i j p) = pix (acc_view a) (acc_i a + i) (acc_j a + j) (acc_p a + p).
Proof. reflexivity. Qed.
End AccessorFacts.

(** ** Buffers *)

Section BufferFacts.
Context {B : Type}.
Implicit Types (b : ImageView B) (sh : DestShape).

Lemma iv_index_bounds b x y p :
  iv_wf b -> iv_valid b x y p ->
  0 <= iv_index b x y p < Z.of_nat (length (iv_data b)).
Proof.
  intros (Hc & Hr & Hp & Hlen) (Hx & Hy & Hpp). unfold iv_index. rewrite Hlen.
  assert (0 <= iv_cols b * y) by nia.
  assert (0 <= iv_cols b * iv_rows b * p) by nia.
  assert (iv_cols b * y <= iv_cols b * (iv_rows b - 1)) by nia.
  assert (iv_cols b * iv_rows b * p <= iv_cols b * iv_rows b * (iv_planes b - 1)) by nia.
  nia.
Qed.

Lemma iv_index_inj b x y p x' y' p' :
  iv_valid b x y p -> iv_valid b x' y' p' ->
  iv_index b x y p = iv_index b x' y' p' -> x = x' /\ y = y' /\ p = p'.
Proof.
  intros (Hx & Hy & Hp) (Hx' & Hy' & Hp'). unfold iv_index.
  generalize (iv_cols b) (iv_rows b) Hx Hy Hx' Hy'. clear. intros c r Hx Hy Hx' Hy' E.
  assert (0 <= c * r) as Hcr by nia.
  assert (0 <= c * y <= c * (r - 1)) by nia.
  assert (0 <= c * y' <= c * (r - 1)) by nia.
  assert (p = p') as ->.
  { destruct (Z.lt_trichotomy p p') as [L|[L|L]]; [exfalso|done|exfalso].
    - pose proof (Z.mul_le_mono_nonneg_l (p + 1) p' (c * r) Hcr ltac:(lia)). lia.
    - pose proof (Z.mul_le_mono_nonneg_l (p' + 1) p (c * r) Hcr ltac:(lia)). lia. }
  assert (y = y') as ->.
  { destruct (Z.lt_trichotomy y y') as [L|[L|L]]; [exfalso|done|exfalso].
    - pose proof (Z.mul_le_mono_nonneg_l (y + 1) y' c ltac:(lia) ltac:(lia)). lia.
    - pose proof (Z.mul_le_mono_nonneg_l (y' + 1) y c ltac:(lia) ltac:(lia)). lia. }
  split; [lia|done].
Qed.

Lemma iv_get_valid b x y p :
  iv_wf b -> iv_valid b x y p -> is_Some (iv_get b x y p).
Proof.
  intros Hwf Hv. destruct (iv_index_bounds b x y p Hwf Hv) as [H0 H1].
  unfold iv_get. destruct (Z.leb_spec 0 (iv_index b x y p)); [|lia].
  apply lookup_lt_is_Some. lia.
Qed.

Lemma iv_put_valid b x y p v :
  iv_wf b -> iv_valid b x y p ->
  exists b', iv_put b x y p v = Some b' /\ iv_wf b' /\ same_extents b b' /\
    iv_get b' x y p = Some v /\
    forall x' y' p', iv_valid b x' y' p' -> (x', y', p') <> (x, y, p) ->
                     iv_get b' x' y' p' = iv_get b x' y' p'.
Proof.
  intros Hwf Hv. destruct (iv_index_bounds b x y p Hwf Hv) as [H0 H1].
  unfold iv_put.
  destruct (Z.leb_spec 0 (iv_index b x y p)); [|lia].
  destruct (Z.ltb_spec (iv_index b x y p) (Z.of_nat (length (iv_data b)))); [|lia].
  simpl. eexists; split; [reflexivity|].
  repeat split.
  - apply Hwf.
  - apply Hwf.
  - apply Hwf.
  - simpl. rewrite length_insert. apply Hwf.
  - unfold iv_get, iv_index in *; simpl.
    destruct (Z.leb_spec 0 (x + iv_cols b * y + iv_cols b * iv_rows b * p)); [|lia].
    apply list_lookup_insert_eq. lia.
  - intros x' y' p' Hv' Hne.
    destruct (iv_index_bounds b x' y' p' Hwf Hv') as [H0' H1'].
    assert (iv_index b x' y' p' <> iv_index b x y p) as Hidx.
    { intros E. apply (iv_index_inj b) in E; [|done|done]. destruct E as (-> & -> & ->). done. }
    unfold iv_get, iv_index in *; simpl.
    destruct (Z.leb_spec 0 (x' + iv_cols b * y' + iv_cols b * iv_rows b * p')); [|lia].
    apply list_lookup_insert_ne. lia.
Qed.

Lemma dest_valid_iv sh b x y p :
  dest_valid sh b x y p ->
  match sh with Direct => iv_valid b x y p | Transposed => iv_valid b y x p end.
Proof. destruct sh; unfold dest_valid, iv_valid; simpl; tauto. Qed.

Lemma dest_extents sh b b' :
  same_extents b b' ->
  dest_cols sh b' = dest_cols sh b /\ dest_rows sh b' = dest_rows sh b /\
  iv_planes b' = iv_planes b.
Proof. intros (? & ? & ?). destruct sh; simpl; done. Qed.

Lemma dest_valid_extents sh b b' x y p :
  same_extents b b' -> dest_valid sh b' x y p <-> dest_valid sh b x y p.
Proof.
  intros H. destruct (dest_extents sh b b' H) as (Hc & Hr & Hp).
  unfold dest_valid. rewrite Hc, Hr, Hp. done.
Qed.

Lemma dest_valid_after sh b b' x y p :
  same_extents b b' -> dest_valid sh b x y p -> dest_valid sh b' x y p.
Proof. intros H. by apply dest_valid_extents. Qed.

Lemma same_extents_refl b : same_extents b b.
Proof. done. Qed.

Lemma same_extents_trans b1 b2 b3 :
  same_extents b1 b2 -> same_extents b2 b3 -> same_extents b1 b3.
Proof. unfold same_extents. intros (? & ? & ?) (? & ? & ?). repeat split; congruence. Qed.

Lemma dest_get_valid sh b x y p :
  iv_wf b -> dest_valid sh b x y p -> is_Some (dest_get sh b x y p).
Proof.
  intros Hwf Hv. apply dest_valid_iv in Hv.
  destruct sh; simpl; by apply iv_get_valid.
Qed.

Lemma dest_put_valid sh b x y p v :
  iv_wf b -> dest_valid sh b x y p ->
  exists b', dest_put sh b x y p v = Some b' /\ iv_wf b' /\ same_extents b b' /\
    dest_get sh b' x y p = Some v /\
    forall x' y' p', dest_valid sh b x' y' p' -> (x', y', p') <> (x, y, p) ->
                     dest_get sh b' x' y' p' = dest_get sh b x' y' p'.
Proof.
  intros Hwf Hv. apply dest_valid_iv in Hv. destruct sh; simpl.
  - destruct (iv_put_valid b x y p v Hwf Hv) as (b' & ? & ? & ? & ? & Ho).
    exists b'. by split_and!.
  - destruct (iv_put_valid b y x p v Hwf Hv) as (b' & ? & ? & ? & ? & Ho).
    exists b'. split_and!; try done.
    intros x' y' p' Hv' Hne. apply (dest_valid_iv Transposed) in Hv'.
    apply Ho; [done|]. intros [= -> -> ->]. done.
Qed.

Lemma new_image_wf (dflt : B) c r p b :
  new_image dflt c r p = Some b ->
  iv_wf b /\ iv_cols b = c /\ iv_rows b = r /\ iv_planes b = p.
Proof.
  unfold new_image.
  destruct (Z.leb_spec 0 c); simpl; [|done].
  destruct (Z.leb_spec 0 r); simpl; [|done].
  destruct (Z.leb_spec 0 p); simpl; [|done].
  intros [= <-]. unfold iv_wf; simpl. rewrite length_replicate.
  repeat split; try done. rewrite Z2Nat.id; [done|]. nia.
Qed.

Lemma new_image_Some (dflt : B) c r p :
  0 <= c -> 0 <= r -> 0 <= p -> is_Some (new_image dflt c r p).
Proof.
  intros. unfold new_image.
  destruct (Z.leb_spec 0 c); [|lia]. destruct (Z.leb_spec 0 r); [|lia].
  destruct (Z.leb_spec 0 p); [|lia]. simpl. eauto.
Qed.
End BufferFacts.

(** ** The loop nest *)

Section LoopNestFacts.
Context {A B : Type}.
Variable value : PixelAccessor A -> option B.
Variable sh : DestShape.

(** A run of the column loop assigns the pixels dx .. dx+n-1 of row dy in
    plane dp and leaves every other pixel as it was. *)
Lemma fill_cols_spec (n : nat) : forall s dx dy dp dest,
  iv_wf dest -> 0 <= dx -> dx + Z.of_nat n <= dest_cols sh dest ->
  0 <= dy < dest_rows sh dest -> 0 <= dp < iv_planes dest ->
  (forall a, 0 <= a < Z.of_nat n -> is_Some (value (advance s a 0 0))) ->
  exists dest', fill_cols value sh n s dx dy dp dest = Some dest' /\
    iv_wf dest' /\ same_extents dest dest' /\
    (forall x, dx <= x < dx + Z.of_nat n ->
               dest_get sh dest' x dy dp = value (advance s (x - dx) 0 0)) /\
    (forall x y p, dest_valid sh dest x y p ->
               ~ (p = dp /\ y = dy /\ dx <= x < dx + Z.of_nat n) ->
               dest_get sh dest' x y p = dest_get sh dest x y p).
Proof.
  induction n as [|n IH]; intros s dx dy dp dest Hwf Hdx Hn Hdy Hdp Hval.
  - exists dest. simpl. split_and!; try done. intros; lia.
  - destruct (Hval 0 ltac:(lia)) as [v Hv]. rewrite advance_0 in Hv.
    assert (dest_valid sh dest dx dy dp) as Hvalid by (unfold dest_valid; lia).
    destruct (dest_put_valid sh dest dx dy dp v Hwf Hvalid)
      as (b1 & Hput & Hwf1 & Hext1 & Hsame1 & Hother1).
    destruct (dest_extents sh _ _ Hext1) as (Hc1 & Hr1 & Hp1).
    destruct (IH (next_col s) (dx + 1) dy dp b1) as (b2 & Hrun & Hwf2 & Hext2 & Hin2 & Hout2).
    + done.
    + lia.
    + rewrite Hc1. lia.
    + rewrite Hr1. lia.
    + rewrite Hp1. lia.
    + intros a Ha. rewrite advance_next_col. apply Hval. lia.
    + exists b2. simpl. rewrite Hv. simpl. rewrite Hput. simpl. split_and!.
      * done.
      * done.
      * by eapply same_extents_trans.
      * intros x Hx. destruct (decide (x = dx)) as [->|Hne].
        -- rewrite Hout2; [|by eapply dest_valid_after|lia].
           rewrite Hsame1, Z.sub_diag, advance_0. done.
        -- rewrite Hin2 by lia. rewrite advance_next_col. do 2 f_equal. lia.
      * intros x y p Hxyp Hnot.
        rewrite Hout2; [|by eapply dest_valid_after|lia].
        apply Hother1; [done|]. intros [= -> -> ->]. lia.
Qed.

(** A run of the row loop assigns a rectangle of plane dp. *)
Lemma fill_rows_spec (n nc : nat) : forall s dx dy dp dest,
  iv_wf dest -> 0 <= dx -> dx + Z.of_nat nc <= dest_cols sh dest ->
  0 <= dy -> dy + Z.of_nat n <= dest_rows sh dest -> 0 <= dp < iv_planes dest ->
  (forall a b, 0 <= a < Z.of_nat nc -> 0 <= b < Z.of_nat n ->
               is_Some (value (advance s a b 0))) ->
  exists dest', fill_rows value sh n nc s dx dy dp dest = Some dest' /\
    iv_wf dest' /\ same_extents dest dest' /\
    (forall x y, dx <= x < dx + Z.of_nat nc -> dy <= y < dy + Z.of_nat n ->
               dest_get sh dest' x y dp = value (advance s (x - dx) (y - dy) 0)) /\
    (forall x y p, dest_valid sh dest x y p ->
               ~ (p = dp /\ dy <= y < dy + Z.of_nat n /\ dx <= x < dx + Z.of_nat nc) ->
               dest_get sh dest' x y p = dest_get sh dest x y p).
Proof.
  induction n as [|n IH]; intros s dx dy dp dest Hwf Hdx Hnc Hdy Hn Hdp Hval.
  - exists dest. simpl. split_and!; try done. intros; lia.
  - destruct (fill_cols_spec nc s dx dy dp dest) as (b1 & Hrun1 & Hwf1 & Hext1 & Hin1 & Hout1);
      try done; try lia.
    { intros a Ha. apply Hval; lia. }
    destruct (dest_extents sh _ _ Hext1) as (Hc1 & Hr1 & Hp1).
    destruct (IH (next_row s) dx (dy + 1) dp b1) as (b2 & Hrun & Hwf2 & Hext2 & Hin2 & Hout2).
    + done.
    + lia.
    + rewrite Hc1. lia.
    + lia.
    + rewrite Hr1. lia.
    + rewrite Hp1. lia.
    + intros a b Ha Hb. rewrite advance_next_row. apply Hval; lia.
    + exists b2. simpl. rewrite Hrun1. simpl. split_and!.
      * done.
      * done.
      * by eapply same_extents_trans.
      * intros x y Hx Hy. destruct (decide (y = dy)) as [->|Hne].
        -- rewrite Hout2; [|eapply dest_valid_after; [done|unfold dest_valid; lia]|lia].
           rewrite Hin1 by lia. rewrite Z.sub_diag. done.
        -- rewrite Hin2 by lia. rewrite advance_next_row. do 2 f_equal. lia.
      * intros x y p Hxyp Hnot.
        rewrite Hout2; [|by eapply dest_valid_after|lia].
        apply Hout1; [done|lia].
Qed.

(** A run of the plane loop assigns a box of the destination. *)
Lemma fill_planes_spec (n nr nc : nat) : forall s dx dy dp dest,
  iv_wf dest -> 0 <= dx -> dx + Z.of_nat nc <= dest_cols sh dest ->
  0 <= dy -> dy + Z.of_nat nr <= dest_rows sh dest ->
  0 <= dp -> dp + Z.of_nat n <= iv_planes dest ->
  (forall a b c, 0 <= a < Z.of_nat nc -> 0 <= b < Z.of_nat nr -> 0 <= c < Z.of_nat n ->
                 is_Some (value (advance s a b c))) ->
  exists dest', fill_planes value sh n nr nc s dx dy dp dest = Some dest' /\
    iv_wf dest' /\ same_extents dest dest' /\
    (forall x y p, dx <= x < dx + Z.of_nat nc -> dy <= y < dy + Z.of_nat nr ->
               dp <= p < dp + Z.of_nat n ->
               dest_get sh dest' x y p = value (advance s (x - dx) (y - dy) (p - dp))) /\
    (forall x y p, dest_valid sh dest x y p ->
               ~ (dp <= p < dp + Z.of_nat n /\ dy <= y < dy + Z.of_nat nr
                  /\ dx <= x < dx + Z.of_nat nc) ->
               dest_get sh dest' x y p = dest_get sh dest x y p).
Proof.
  induction n as [|n IH]; intros s dx dy dp dest Hwf Hdx Hnc Hdy Hnr Hdp Hn Hval.
  - exists dest. simpl. split_and!; try done. intros; lia.
  - destruct (fill_rows_spec nr nc s dx dy dp dest) as (b1 & Hrun1 & Hwf1 & Hext1 & Hin1 & Hout1);
      try done; try lia.
    { intros a b Ha Hb. apply Hval; lia. }
    destruct (dest_extents sh _ _ Hext1) as (Hc1 & Hr1 & Hp1).
    destruct (IH (next_plane s) dx dy (dp + 1) b1) as (b2 & Hrun & Hwf2 & Hext2 & Hin2 & Hout2).
    + done.
    + lia.
    + rewrite Hc1. lia.
    + lia.
    + rewrite Hr1. lia.
    + lia.
    + rewrite Hp1. lia.
    + intros a b c Ha Hb Hc. rewrite advance_next_plane. apply Hval; lia.
    + exists b2. simpl. rewrite Hrun1. simpl. split_and!.
      * done.
      * done.
      * by eapply same_extents_trans.
      * intros x y p Hx Hy Hp. destruct (decide (p = dp)) as [->|Hne].
        -- rewrite Hout2; [|eapply dest_valid_after; [done|unfold dest_valid; lia]|lia].
           rewrite Hin1 by lia. rewrite Z.sub_diag. done.
        -- rewrite Hin2 by lia. rewrite advance_next_plane. do 2 f_equal. lia.
      * intros x y p Hxyp Hnot.
        rewrite Hout2; [|by eapply dest_valid_after|lia].
        apply Hout1; [done|lia].
Qed.
End LoopNestFacts.

(** ** Rasterization of a view *)

Section RasterizeFacts.
Context {A B : Type}.
Variable convert : A -> B.

Lemma rasterize_view_spec (src : View A) (dest : ImageView B) (bb : BBox2i) :
  iv_wf dest ->
  iv_cols dest = width bb -> iv_rows dest = height bb -> iv_planes dest = planes src ->
  (forall x y p, 0 <= x < width bb -> 0 <= y < height bb -> 0 <= p < planes src ->
                 is_Some (pix src (min_x bb + x) (min_y bb + y) p)) ->
  exists dest', rasterize_view convert src dest bb = Some dest' /\
    iv_wf dest' /\ same_extents dest dest' /\
    forall x y p, iv_valid dest x y p ->
      iv_get dest' x y p = convert <$> pix src (min_x bb + x) (min_y bb + y) p.
Proof.
  intros Hwf Hc Hr Hp Hdef. unfold rasterize_view.
  rewrite Hc, Hr, Hp, !Z.eqb_refl. simpl.
  destruct Hwf as (Hc0 & Hr0 & Hp0 & Hlen) eqn:Ewf. clear Ewf.
  destruct (fill_planes_spec (fun s => convert <$> deref s) Direct
              (Z.to_nat (planes src)) (Z.to_nat (height bb)) (Z.to_nat (width bb))
              (advance (origin src) (min_x bb) (min_y bb) 0) 0 0 0 dest)
    as (dest' & Hrun & Hwf' & Hext & Hin & _); simpl; try lia.
  - done.
  - intros a b c Ha Hb Hcc. rewrite advance_advance, deref_advance_origin.
    apply fmap_is_Some. rewrite Z.add_0_l. apply Hdef; lia.
  - exists dest'. split_and!; try done.
    intros x y p (Hx & Hy & Hpp).
    change (iv_get dest' x y p) with (dest_get Direct dest' x y p).
    rewrite Hin by lia.
    rewrite advance_advance, deref_advance_origin, !Z.sub_0_r, Z.add_0_l. done.
Qed.

Lemma materialize_spec (dflt : B) (v : View A) :
  0 <= cols v -> 0 <= rows v -> 0 <= planes v ->
  (forall x y p, 0 <= x < cols v -> 0 <= y < rows v -> 0 <= p < planes v ->
                 is_Some (pix v x y p)) ->
  exists b, materialize convert dflt v = Some b /\ iv_wf b /\
    iv_cols b = cols v /\ iv_rows b = rows v /\ iv_planes b = planes v /\
    forall x y p, 0 <= x < cols v -> 0 <= y < rows v -> 0 <= p < planes v ->
                  iv_get b x y p = convert <$> pix v x y p.
Proof.
  intros Hc Hr Hp Hdef. unfold materialize.
  destruct (new_image_Some dflt (cols v) (rows v) (planes v) Hc Hr Hp) as [b0 Hb0].
  rewrite Hb0. simpl.
  destruct (new_image_wf _ _ _ _ _ Hb0) as (Hwf0 & Hc0 & Hr0 & Hp0).
  destruct (rasterize_view_spec v b0 (bbox 0 0 (cols v) (rows v)))
    as (b & Hrun & Hwf & (Hc1 & Hr1 & Hp1) & Hget); try done.
  - unfold width, bbox; simpl. lia.
  - unfold height, bbox; simpl. lia.
  - unfold width, height, bbox; simpl. intros x y p Hx Hy Hpp. apply Hdef; lia.
  - exists b. split_and!; try done; try congruence.
    intros x y p Hx Hy Hpp. rewrite Hget; [done|]. unfold iv_valid. lia.
Qed.
End RasterizeFacts.

(** ** The correlation primitives *)

Section CorrelationFacts.
Context {P K R : Type}.
Variable zero : R.
Variable add : R -> R -> R.
Variable mul : K -> P -> R.

(** The 2D primitive reads the source and the kernel only in the window of
    ncols by nrows pixels that starts at the accessors. *)
Lemma correlate_2d_cols_ext (n : nat) : forall (s s' : PixelAccessor P)
    (k k' : PixelAccessor K) (r : R),
  (forall a, 0 <= a < Z.of_nat n -> deref (advance s a 0 0) = deref (advance s' a 0 0)) ->
  (forall a, 0 <= a < Z.of_nat n -> deref (advance k a 0 0) = deref (advance k' a 0 0)) ->
  correlate_2d_cols add mul n s k r = correlate_2d_cols add mul n s' k' r.
Proof.
  induction n as [|n IH]; intros s s' k k' r Hs Hk; [done|].
  simpl.
  pose proof (Hs 0 ltac:(lia)) as Hs0. pose proof (Hk 0 ltac:(lia)) as Hk0.
  rewrite !advance_0 in Hs0. rewrite !advance_0 in Hk0. rewrite Hs0, Hk0.
  destruct (deref k') as [kv|]; [|done]. simpl.
  destruct (deref s') as [sv|]; [|done]. simpl.
  apply IH.
  - intros a Ha. rewrite !advance_next_col. apply Hs. lia.
  - intros a Ha. rewrite !advance_next_col. apply Hk. lia.
Qed.

Lemma correlate_2d_rows_ext (nr nc : nat) : forall (s s' : PixelAccessor P)
    (k k' : PixelAccessor K) (r : R),
  (forall a b, 0 <= a < Z.of_nat nc -> 0 <= b < Z.of_nat nr ->
               deref (advance s a b 0) = deref (advance s' a b 0)) ->
  (forall a b, 0 <= a < Z.of_nat nc -> 0 <= b < Z.of_nat nr ->
               deref (advance k a b 0) = deref (advance k' a b 0)) ->
  correlate_2d_rows add mul nr nc s k r = correlate_2d_rows add mul nr nc s' k' r.
Proof.
  induction nr as [|nr IH]; intros s s' k k' r Hs Hk; [done|].
  simpl.
  rewrite (correlate_2d_cols_ext nc s s' k k').
  - destruct (correlate_2d_cols add mul nc s' k' r) as [r'|]; [|done]. simpl.
    apply IH.
    + intros a b Ha Hb. rewrite !advance_next_row. apply Hs; lia.
    + intros a b Ha Hb. rewrite !advance_next_row. apply Hk; lia.
  - intros a Ha. apply Hs; lia.
  - intros a Ha. apply Hk; lia.
Qed.

Lemma correlate_2d_at_point_ext (s s' : PixelAccessor P) (k k' : PixelAccessor K)
    (nc nr : Z) :
  (forall a b, 0 <= a < nc -> 0 <= b < nr ->
               deref (advance s a b 0) = deref (advance s' a b 0)) ->
  (forall a b, 0 <= a < nc -> 0 <= b < nr ->
               deref (advance k a b 0) = deref (advance k' a b 0)) ->
  correlate_2d_at_point zero add mul s k nc nr
  = correlate_2d_at_point zero add mul s' k' nc nr.
Proof.
  intros Hs Hk. unfold correlate_2d_at_point.
  apply correlate_2d_rows_ext; intros a b Ha Hb; [apply Hs|apply Hk]; lia.
Qed.

(** The 2D primitive returns a value when every pixel and weight of the
    window can be read. *)
Lemma correlate_2d_cols_Some (n : nat) : forall (s : PixelAccessor P)
    (k : PixelAccessor K) (r : R),
  (forall a, 0 <= a < Z.of_nat n -> is_Some (deref (advance s a 0 0))) ->
  (forall a, 0 <= a < Z.of_nat n -> is_Some (deref (advance k a 0 0))) ->
  is_Some (correlate_2d_cols add mul n s k r).
Proof.
  induction n as [|n IH]; intros s k r Hs Hk; [by eexists|].
  simpl.
  destruct (Hs 0 ltac:(lia)) as [sv Hsv]. destruct (Hk 0 ltac:(lia)) as [kv Hkv].
  rewrite advance_0 in Hsv. rewrite advance_0 in Hkv. rewrite Hsv, Hkv. simpl.
  apply IH; intros a Ha; rewrite advance_next_col; [apply Hs|apply Hk]; lia.
Qed.

Lemma correlate_2d_rows_Some (nr nc : nat) : forall (s : PixelAccessor P)
    (k : PixelAccessor K) (r : R),
  (forall a b, 0 <= a < Z.of_nat nc -> 0 <= b < Z.of_nat nr ->
               is_Some (deref (advance s a b 0))) ->
  (forall a b, 0 <= a < Z.of_nat nc -> 0 <= b < Z.of_nat nr ->
               is_Some (deref (advance k a b 0))) ->
  is_Some (correlate_2d_rows add mul nr nc s k r).
Proof.
  induction nr as [|nr IH]; intros s k r Hs Hk; [by eexists|].
  simpl.
  destruct (correlate_2d_cols_Some nc s k r) as [r' Hr'].
  - intros a Ha. apply Hs; lia.
  - intros a Ha. apply Hk; lia.
  - rewrite Hr'. simpl.
    apply IH; intros a b Ha Hb; rewrite advance_next_row; [apply Hs|apply Hk]; lia.
Qed.

Lemma correlate_2d_at_point_Some (s : PixelAccessor P) (k : PixelAccessor K) (nc nr : Z) :
  (forall a b, 0 <= a < nc -> 0 <= b < nr -> is_Some (deref (advance s a b 0))) ->
  (forall a b, 0 <= a < nc -> 0 <= b < nr -> is_Some (deref (advance k a b 0))) ->
  is_Some (correlate_2d_at_point zero add mul s k nc nr).
Proof.
  intros Hs Hk. unfold correlate_2d_at_point.
  apply correlate_2d_rows_Some; intros a b Ha Hb; [apply Hs|apply Hk]; lia.
Qed.
End CorrelationFacts.

(** ** The standard 2D convolution view *)

Lemma width_bbox x y w h : width (bbox x y w h) = w.
Proof. unfold width, bbox; simpl; lia. Qed.

Lemma height_bbox x y w h : height (bbox x y w h) = h.
Proof. unfold height, bbox; simpl; lia. Qed.

Section ConvFacts.
Context {P K R : Type}.
Variable zero : R.
Variable add : R -> R -> R.
Variable mul : K -> P -> R.
Variable pdflt : P.
Implicit Types (cv : Conv.ConvolutionView (P:=P) (K:=K)).

Lemma interior_bounds cv x y :
  Conv.interior cv x y = true ->
  Conv.margin_i cv <= x <= cols (Conv.m_image cv) - cols (Conv.rotated (Conv.m_kernel cv)) + Conv.margin_i cv /\
  Conv.margin_j cv <= y <= rows (Conv.m_image cv) - rows (Conv.rotated (Conv.m_kernel cv)) + Conv.margin_j cv.
Proof.
  unfold Conv.interior. rewrite !andb_true_iff, !Z.leb_le. lia.
Qed.

Lemma interior_fast_slow cv x y p :
  Conv.interior cv x y = true ->
  Conv.fast_path zero add mul cv x y p = Conv.slow_path zero add mul cv x y p.
Proof.
  intros Hint. apply interior_bounds in Hint. destruct Hint as [Hx Hy].
  unfold Conv.fast_path, Conv.slow_path.
  apply correlate_2d_at_point_ext; [|done].
  intros a b Ha Hb. rewrite !advance_advance, !deref_advance_origin. simpl.
  symmetry. apply extend_inside; lia.
Qed.

Lemma call_slow_path cv x y p :
  Conv.call zero add mul cv x y p = Conv.slow_path zero add mul cv x y p.
Proof.
  unfold Conv.call. destruct (Conv.interior cv x y) eqn:E; [|done].
  by apply interior_fast_slow.
Qed.

Lemma rotated_deref (k : Conv.Rotate180View (K:=K)) a b :
  kernel_defined (Conv.child k) ->
  0 <= a < cols (Conv.rotated k) -> 0 <= b < rows (Conv.rotated k) ->
  is_Some (deref (advance (origin (Conv.rotated k)) a b 0)).
Proof.
  intros Hk Ha Hb. rewrite deref_advance_origin. simpl in *. apply Hk; lia.
Qed.

Lemma slow_path_Some cv x y p :
  kernel_defined (Conv.child (Conv.m_kernel cv)) ->
  extended_defined (Conv.m_edge cv) (Conv.m_image cv) ->
  0 <= p < planes (Conv.m_image cv) ->
  is_Some (Conv.slow_path zero add mul cv x y p).
Proof.
  intros Hk Hdef Hp. unfold Conv.slow_path.
  apply correlate_2d_at_point_Some.
  - intros a b Ha Hb. rewrite advance_advance, deref_advance_origin. simpl.
    apply Hdef. lia.
  - intros a b Ha Hb. by apply rotated_deref.
Qed.

(** The prerasterized view answers, on the requested rectangle, with the
    correlation against the edge-extended image. *)
Lemma prerasterize_spec cv bb :
  extended_defined (Conv.m_edge cv) (Conv.m_image cv) ->
  0 <= planes (Conv.m_image cv) ->
  0 <= width (Conv.src_bbox cv bb) -> 0 <= height (Conv.src_bbox cv bb) ->
  exists pre, Conv.prerasterize pdflt cv bb = Some pre /\
    Conv.view_planes pre = Conv.view_planes cv /\
    forall x y p, min_x bb <= x < max_x bb -> min_y bb <= y < max_y bb ->
                  0 <= p < planes (Conv.m_image cv) ->
      Conv.call zero add mul pre x y p = Conv.slow_path zero add mul cv x y p.
Proof.
  intros Hdef Hpl Hw Hh. unfold Conv.prerasterize.
  destruct (materialize_spec id pdflt
              (edge_extend_bbox (Conv.m_image cv) (Conv.src_bbox cv bb) (Conv.m_edge cv)))
    as (src & Hsrc & Hwf & Hc & Hr & Hp & Hget); simpl; try done.
  { intros x y p _ _ Hpp. by apply Hdef. }
  simpl in Hc, Hr, Hp, Hget.
  rewrite Hsrc. simpl. eexists; split; [reflexivity|]. split.
  { unfold Conv.view_planes; simpl. done. }
  intros x y p Hx Hy Hpp. rewrite call_slow_path.
  unfold Conv.slow_path.
  apply correlate_2d_at_point_ext; [|done].
  intros a b Ha Hb. rewrite !advance_advance, !deref_advance_origin.
  cbn -[Z.add Z.sub Z.opp].
  unfold no_extend; cbn -[Z.add Z.sub Z.opp].
  unfold Conv.src_bbox, width, height in *; simpl in *.
  unfold Conv.margin_i, Conv.margin_j in *; simpl in *.
  rewrite Hget by lia.
  rewrite option_fmap_id. f_equal; lia.
Qed.

(** Tiled rasterization assigns the value of point evaluation to every
    pixel of the rectangle. *)
Lemma rasterize_call cv (dest : ImageView R) bb :
  kernel_defined (Conv.child (Conv.m_kernel cv)) ->
  extended_defined (Conv.m_edge cv) (Conv.m_image cv) ->
  0 <= width (Conv.src_bbox cv bb) -> 0 <= height (Conv.src_bbox cv bb) ->
  iv_wf dest ->
  iv_cols dest = width bb -> iv_rows dest = height bb ->
  iv_planes dest = planes (Conv.m_image cv) ->
  exists dest', Conv.rasterize zero add mul pdflt cv dest bb = Some dest' /\
    iv_wf dest' /\ same_extents dest dest' /\
    forall x y p, iv_valid dest x y p ->
      is_Some (iv_get dest' x y p) /\
      iv_get dest' x y p = Conv.call zero add mul cv (min_x bb + x) (min_y bb + y) p.
Proof.
  intros Hk Hdef Hw Hh Hwf Hc Hr Hp. unfold Conv.rasterize.
  assert (0 <= planes (Conv.m_image cv)) as Hpl by (rewrite <- Hp; apply Hwf).
  destruct (prerasterize_spec cv bb Hdef Hpl Hw Hh) as (pre & Hpre & Hplanes & Hcall).
  rewrite Hpre. simpl.
  assert (forall x y p, 0 <= x < width bb -> 0 <= y < height bb ->
            0 <= p < planes (Conv.m_image cv) ->
            Conv.call zero add mul pre (min_x bb + x) (min_y bb + y) p
            = Conv.call zero add mul cv (min_x bb + x) (min_y bb + y) p) as Heq.
  { intros x y p Hx Hy Hpp. rewrite Hcall, call_slow_path; [done| | |done];
      unfold width, height in *; lia. }
  destruct (rasterize_view_spec id (Conv.as_view zero add mul pre) dest bb)
    as (dest' & Hrun & Hwf' & Hext & Hget); try done.
  - simpl. rewrite Hplanes. done.
  - simpl. rewrite Hplanes. intros x y p Hx Hy Hpp. rewrite Heq by done.
    rewrite call_slow_path. by apply slow_path_Some.
  - exists dest'. split_and!; try done.
    intros x y p Hv. rewrite Hget by done. simpl.
    destruct Hv as (Hx & Hy & Hpp). rewrite Hc in Hx. rewrite Hr in Hy. rewrite Hp in Hpp.
    rewrite option_fmap_id, Heq by done. split; [|done].
    rewrite call_slow_path. by apply slow_path_Some.
Qed.
End ConvFacts.

(** ** Buffers as images and kernels *)

Section BufferViews.
Context {A : Type}.

Lemma buffer_kernel_defined (b : ImageView A) :
  iv_wf b -> 1 <= iv_planes b -> kernel_defined (image_view b).
Proof.
  intros Hwf Hp i j Hi Hj. simpl in *. apply iv_get_valid; [done|].
  unfold iv_valid. lia.
Qed.

Lemma zero_extended_defined (z : A) (b : ImageView A) :
  iv_wf b -> extended_defined (ZeroEdgeExtension z) (image_view b).
Proof.
  intros Hwf i j p Hp. simpl in *. unfold zero_extend.
  destruct (in_image (image_view b) i j) eqn:E; [|by eexists].
  unfold in_image in E. rewrite !andb_true_iff, !Z.leb_le, !Z.ltb_lt in E. simpl in E.
  apply iv_get_valid; [done|]. unfold iv_valid. lia.
Qed.
End BufferViews.

(** ** The concrete scenario *)

Lemma ones_wf c r p : 0 <= c -> 0 <= r -> 0 <= p -> iv_wf (ones c r p).
Proof.
  intros. unfold iv_wf, ones; simpl. rewrite length_replicate.
  split_and!; try done. rewrite Z2Nat.id; [done|nia].
Qed.

Section ConvClaims.
Context {P K R : Type}.
Variable zero : R.
Variable add : R -> R -> R.
Variable mul : K -> P -> R.
Variable pdflt : P.
Implicit Types (cv : Conv.ConvolutionView (P:=P) (K:=K)).

(** C1. At every coordinate that passes the interior test of [operator()],
    the fast path (the 2D correlation on the raw image at offset
    (x-ci', y-cj')) and the slow path (the same correlation on the
    edge-extended image at the same offset) return the same value, which is
    the value of [operator()]. *)
Theorem fast_path_eq_slow_path cv (x y p : Z) :
  Conv.interior cv x y = true ->
  Conv.fast_path zero add mul cv x y p = Conv.slow_path zero add mul cv x y p /\
  Conv.call zero add mul cv x y p = Conv.fast_path zero add mul cv x y p.
Proof.
  intros Hint. split.
  - by apply interior_fast_slow.
  - unfold Conv.call. by rewrite Hint.
Qed.

(** C2. Tiled rasterization (the source rectangle materialized once through
    the edge policy, then convolved under the no-op policy) returns a
    buffer whose every pixel is the value of point evaluation at that
    coordinate.  Hence the raster of a rectangle that lies in a larger one
    agrees with the raster of the larger one: two adjacent rectangles that
    tile a region each carry the region's values. *)
Theorem rasterize_pointwise_and_tiling cv :
  kernel_defined (Conv.child (Conv.m_kernel cv)) ->
  extended_defined (Conv.m_edge cv) (Conv.m_image cv) ->
  (forall (dest : ImageView R) bb, rasterizable cv dest bb ->
     exists dest', Conv.rasterize zero add mul pdflt cv dest bb = Some dest' /\
       same_extents dest dest' /\
       forall x y p, iv_valid dest x y p ->
         is_Some (iv_get dest' x y p) /\
         iv_get dest' x y p
         = Conv.call zero add mul cv (min_x bb + x) (min_y bb + y) p) /\
  (forall (dest tdest : ImageView R) bb tile,
     rasterizable cv dest bb -> rasterizable cv tdest tile -> inside tile bb ->
     exists whole part,
       Conv.rasterize zero add mul pdflt cv dest bb = Some whole /\
       Conv.rasterize zero add mul pdflt cv tdest tile = Some part /\
       forall x y p, iv_valid tdest x y p ->
         iv_get part x y p
         = iv_get whole (min_x tile - min_x bb + x) (min_y tile - min_y bb + y) p).
Proof.
  intros Hk Hdef. split.
  - intros dest bb (Hwf & Hc & Hr & Hp & Hw & Hh).
    destruct (rasterize_call zero add mul pdflt cv dest bb)
      as (dest' & Hrun & _ & Hext & Hget); try done.
    by exists dest'.
  - intros dest tdest bb tile (Hwf & Hc & Hr & Hp & Hw & Hh)
           (Hwf' & Hc' & Hr' & Hp' & Hw' & Hh') (Hx1 & Hx2 & Hy1 & Hy2).
    destruct (rasterize_call zero add mul pdflt cv dest bb)
      as (whole & Hrun & _ & Hext & Hget); try done.
    destruct (rasterize_call zero add mul pdflt cv tdest tile)
      as (part & Hrun' & _ & Hext' & Hget'); try done.
    exists whole, part. split_and!; try done.
    intros x y p (Hx & Hy & Hpp).
    destruct (Hget' x y p) as [_ ->]; [done|].
    destruct (Hget (min_x tile - min_x bb + x) (min_y tile - min_y bb + y) p) as [_ ->].
    + unfold iv_valid, width, height in *. lia.
    + f_equal; lia.
Qed.
End ConvClaims.

(** C4. On the scenario, the output pixel at (2,2) is 9 and the output
    pixel at (0,0) is 4. *)
Theorem scenario_values :
  Conv.call 0 Z.add Z.mul scenario 2 2 0 = Some 9 /\
  Conv.call 0 Z.add Z.mul scenario 0 0 0 = Some 4.
Proof. split; vm_compute; reflexivity. Qed.

Lemma fast_path_eq_slow_path_witness :
  Conv.interior scenario 2 2 = true /\
  (Conv.fast_path 0 Z.add Z.mul scenario 2 2 0 = Conv.slow_path 0 Z.add Z.mul scenario 2 2 0 /\
   Conv.call 0 Z.add Z.mul scenario 2 2 0 = Conv.fast_path 0 Z.add Z.mul scenario 2 2 0).
Proof.
  split; [reflexivity|].
  apply (fast_path_eq_slow_path 0 Z.add Z.mul scenario 2 2 0). reflexivity.
Defined.

Lemma scenario_kernel_defined : kernel_defined (Conv.child (Conv.m_kernel scenario)).
Proof. apply buffer_kernel_defined; [apply ones_wf; lia|simpl; lia]. Qed.

Lemma scenario_extended_defined :
  extended_defined (Conv.m_edge scenario) (Conv.m_image scenario).
Proof. apply zero_extended_defined. apply ones_wf; lia. Qed.

Lemma rasterize_pointwise_and_tiling_witness :
  kernel_defined (Conv.child (Conv.m_kernel scenario)) /\
  extended_defined (Conv.m_edge scenario) (Conv.m_image scenario) /\
  rasterizable scenario (ones 5 5 1) (bbox 0 0 5 5) /\
  Conv.rasterize 0 Z.add Z.mul 0 scenario (ones 5 5 1) (bbox 0 0 5 5)
  = Some (mkImage 5 5 1 [4; 6; 6; 6; 4; 6; 9; 9; 9; 6; 6; 9; 9; 9; 6;
                         6; 9; 9; 9; 6; 4; 6; 6; 6; 4]) /\
  ((forall (dest : ImageView Z) bb, rasterizable scenario dest bb ->
     exists dest', Conv.rasterize 0 Z.add Z.mul 0 scenario dest bb = Some dest' /\
       same_extents dest dest' /\
       forall x y p, iv_valid dest x y p ->
         is_Some (iv_get dest' x y p) /\
         iv_get dest' x y p
         = Conv.call 0 Z.add Z.mul scenario (min_x bb + x) (min_y bb + y) p) /\
   (forall (dest tdest : ImageView Z) bb tile,
     rasterizable scenario dest bb -> rasterizable scenario tdest tile -> inside tile bb ->
     exists whole part,
       Conv.rasterize 0 Z.add Z.mul 0 scenario dest bb = Some whole /\
       Conv.rasterize 0 Z.add Z.mul 0 scenario tdest tile = Some part /\
       forall x y p, iv_valid tdest x y p ->
         iv_get part x y p
         = iv_get whole (min_x tile - min_x bb + x) (min_y tile - min_y bb + y) p)).
Proof.
  split; [exact scenario_kernel_defined|].
  split; [exact scenario_extended_defined|].
  split; [unfold rasterizable; vm_compute; intuition congruence|].
  split; [vm_compute; reflexivity|].
  exact (rasterize_pointwise_and_tiling 0 Z.add Z.mul 0 scenario
           scenario_kernel_defined scenario_extended_defined).
Defined.

(** ** The identity kernel *)

Section IdentityKernel.
Context {P K R : Type}.
Variable zero : R.
Variable add : R -> R -> R.
Variable mul : K -> P -> R.
Variable pdflt : P.
Variable kone : K.
Variable promote : P -> R.

Lemma identity_call (image : View P) (kernel : View K) (E : EdgePolicy P) x y p :
  cols kernel = 1 -> rows kernel = 1 -> pix kernel 0 0 0 = Some kone ->
  Conv.call zero add mul (Conv.make_centered image kernel E) x y p
  = (fun a => add zero (mul kone a)) <$> extend E image x y p.
Proof.
  intros Hc Hr Hk. rewrite call_slow_path. unfold Conv.slow_path.
  unfold Conv.margin_i, Conv.margin_j. simpl. rewrite Hc, Hr.
  change (1 - 1 - (1 - 1) `quot` 2) with 0. rewrite !Z.sub_0_r.
  unfold correlate_2d_at_point. change (Z.to_nat 1) with 1%nat.
  cbn [correlate_2d_rows correlate_2d_cols].
  change (deref (origin (Conv.rotated {| Conv.child := kernel |})))
    with (pix kernel (cols kernel - 1 - 0) (rows kernel - 1 - 0) 0).
  rewrite Hc, Hr. change (1 - 1 - 0) with 0. rewrite Hk.
  rewrite deref_advance_origin. cbn [edge_extend pix].
  by destruct (extend E image x y p).
Qed.

(** C5. Under a 1-by-1 kernel of weight 1 with the default origin, and
    with exact arithmetic (0 + 1 * a is the pixel a in the view's pixel
    type), the view returns at every coordinate of the image the image's
    pixel, whatever the edge policy; outside the image it returns the pixel
    the edge policy supplies.  Rasterization over any rectangle returns
    these values. *)
Theorem identity_kernel_reproduces_image
    (image : View P) (kernel : View K) (E : EdgePolicy P) :
  cols kernel = 1 -> rows kernel = 1 -> pix kernel 0 0 0 = Some kone ->
  (forall a, add zero (mul kone a) = promote a) ->
  let cv := Conv.make_centered image kernel E in
  (forall x y p, 0 <= x < cols image -> 0 <= y < rows image ->
     Conv.call zero add mul cv x y p = promote <$> pix image x y p) /\
  (forall x y p,
     Conv.call zero add mul cv x y p = promote <$> extend E image x y p) /\
  (forall (dest : ImageView R) bb,
     extended_defined E image -> iv_wf dest ->
     iv_cols dest = width bb -> iv_rows dest = height bb ->
     iv_planes dest = planes image ->
     exists dest', Conv.rasterize zero add mul pdflt cv dest bb = Some dest' /\
       same_extents dest dest' /\
       forall x y p, iv_valid dest x y p ->
         is_Some (iv_get dest' x y p) /\
         iv_get dest' x y p = promote <$> extend E image (min_x bb + x) (min_y bb + y) p /\
         (0 <= min_x bb + x < cols image -> 0 <= min_y bb + y < rows image ->
          iv_get dest' x y p = promote <$> pix image (min_x bb + x) (min_y bb + y) p)).
Proof.
  intros Hc Hr Hk Hone cv.
  assert (forall x y p,
            Conv.call zero add mul cv x y p = promote <$> extend E image x y p) as Hcall.
  { intros x y p. unfold cv. rewrite identity_call by done.
    destruct (extend E image x y p); simpl; [|done]. by rewrite Hone. }
  split_and!.
  - intros x y p Hx Hy. rewrite Hcall. by rewrite extend_inside.
  - done.
  - intros dest bb Hdef Hwf Hdc Hdr Hdp.
    destruct (rasterize_call zero add mul pdflt cv dest bb)
      as (dest' & Hrun & _ & Hext & Hget); try done.
    + intros i j Hi Hj. simpl in *. assert (i = 0) as -> by lia.
      assert (j = 0) as -> by lia. by rewrite Hk.
    + unfold Conv.src_bbox. rewrite width_bbox. simpl. rewrite Hc, <- Hdc.
      destruct Hwf as (? & _). lia.
    + unfold Conv.src_bbox. rewrite height_bbox. simpl. rewrite Hr, <- Hdr.
      destruct Hwf as (? & ? & _). lia.
    + exists dest'. split_and!; try done.
      intros x y p Hv. destruct (Hget x y p Hv) as [HS Heq].
      rewrite Heq, Hcall. split_and!; try done.
      * rewrite <- Hcall, <- Heq. done.
      * intros Hx Hy. by rewrite extend_inside.
Qed.
End IdentityKernel.

Lemma identity_kernel_reproduces_image_witness :
  let image := image_view (ones 5 5 1) in
  let kernel := image_view (ones 1 1 1) in
  let cv := Conv.make_centered image kernel ConstantEdgeExtension in
  cols kernel = 1 /\ rows kernel = 1 /\ pix kernel 0 0 0 = Some 1 /\
  (forall a, 0 + 1 * a = id a) /\
  (forall x y p, 0 <= x < cols image -> 0 <= y < rows image ->
     Conv.call 0 Z.add Z.mul cv x y p = id <$> pix image x y p) /\
  (forall x y p,
     Conv.call 0 Z.add Z.mul cv x y p = id <$> extend ConstantEdgeExtension image x y p) /\
  (forall (dest : ImageView Z) bb,
     extended_defined ConstantEdgeExtension image -> iv_wf dest ->
     iv_cols dest = width bb -> iv_rows dest = height bb ->
     iv_planes dest = planes image ->
     exists dest', Conv.rasterize 0 Z.add Z.mul 0 cv dest bb = Some dest' /\
       same_extents dest dest' /\
       forall x y p, iv_valid dest x y p ->
         is_Some (iv_get dest' x y p) /\
         iv_get dest' x y p
         = id <$> extend ConstantEdgeExtension image (min_x bb + x) (min_y bb + y) p /\
         (0 <= min_x bb + x < cols image -> 0 <= min_y bb + y < rows image ->
          iv_get dest' x y p = id <$> pix image (min_x bb + x) (min_y bb + y) p)).
Proof.
  intros image kernel cv.
  split; [reflexivity|]. split; [reflexivity|]. split; [reflexivity|].
  split; [intros a; unfold id; lia|].
  apply (identity_kernel_reproduces_image 0 Z.add Z.mul 0 1 id image kernel
           ConstantEdgeExtension); [reflexivity|reflexivity|reflexivity|].
  intros a; unfold id; lia.
Defined.

(** ** The default origin *)

Lemma int32_of_small z : - 2 ^ 31 <= z < 2 ^ 31 -> int32_of z = z.
Proof. intros H. unfold int32_of. rewrite Z.mod_small; lia. Qed.

Lemma size_t_of_small w z : 0 <= z < 2 ^ w -> size_t_of w z = z.
Proof. intros H. unfold size_t_of. by rewrite Z.mod_small. Qed.

Lemma pow2_32_le w : 32 <= w -> 2 ^ 32 <= 2 ^ w.
Proof. intros H. apply Z.pow_le_mono_r; lia. Qed.

Section DefaultOrigin.
Context {P K : Type}.

Lemma center_nonempty (w : Z) (k : list K) :
  32 <= w -> 1 <= Sep.size k < 2 ^ 31 ->
  Sep.center w k = (Sep.size k - 1) / 2.
Proof.
  intros Hw Hn. unfold Sep.center. pose proof (pow2_32_le w Hw).
  rewrite size_t_of_small by lia.
  apply int32_of_small.
  assert (0 <= (Sep.size k - 1) / 2) by (apply Z.div_pos; lia).
  assert ((Sep.size k - 1) / 2 <= Sep.size k - 1) by (apply Z.div_le_upper_bound; lia).
  lia.
Qed.

(** C6, amended.  On an axis of extent at least 1, the constructor that
    omits the origin sets it to floor((extent-1)/2), for the 2D kernel of
    [ConvolutionView] and for the factor sequences of
    [SeparableConvolutionView] (of a length that an [int32] holds, with a
    [size_t] of at least 32 bits); an axis of 5 gets origin 2 and an axis
    of 4 gets origin 1. *)
Theorem default_origin_is_center
    (image : View P) (kernel : View K) (ik jk : list K) (E : EdgePolicy P) (w : Z) :
  1 <= cols kernel -> 1 <= rows kernel ->
  1 <= Sep.size ik < 2 ^ 31 -> 1 <= Sep.size jk < 2 ^ 31 -> 32 <= w ->
  Conv.m_ci (Conv.make_centered image kernel E) = (cols kernel - 1) / 2 /\
  Conv.m_cj (Conv.make_centered image kernel E) = (rows kernel - 1) / 2 /\
  Sep.m_ci (Sep.make_centered w image ik jk E) = (Sep.size ik - 1) / 2 /\
  Sep.m_cj (Sep.make_centered w image ik jk E) = (Sep.size jk - 1) / 2 /\
  (cols kernel = 5 -> Conv.m_ci (Conv.make_centered image kernel E) = 2) /\
  (cols kernel = 4 -> Conv.m_ci (Conv.make_centered image kernel E) = 1) /\
  (Sep.size ik = 5 -> Sep.m_ci (Sep.make_centered w image ik jk E) = 2) /\
  (Sep.size ik = 4 -> Sep.m_ci (Sep.make_centered w image ik jk E) = 1).
Proof.
  intros Hc Hr Hi Hj Hw. simpl.
  rewrite !center_nonempty by done.
  rewrite !Z.quot_div_nonneg by lia.
  split_and!; try done.
  - by intros ->.
  - by intros ->.
  - by intros ->.
  - by intros ->.
Qed.
End DefaultOrigin.

Lemma default_origin_is_center_witness :
  let image := image_view (ones 5 5 1) in
  let kernel := image_view (ones 5 4 1) in
  let ik := [1; 2; 3; 4; 5] in
  let jk := [1; 2; 3; 4] in
  let E := ZeroEdgeExtension 0 in
  (1 <= cols kernel /\ 1 <= rows kernel /\
   1 <= Sep.size ik < 2 ^ 31 /\ 1 <= Sep.size jk < 2 ^ 31 /\ 32 <= 64) /\
  Conv.m_ci (Conv.make_centered image kernel E) = (cols kernel - 1) / 2 /\
  Conv.m_cj (Conv.make_centered image kernel E) = (rows kernel - 1) / 2 /\
  Sep.m_ci (Sep.make_centered 64 image ik jk E) = (Sep.size ik - 1) / 2 /\
  Sep.m_cj (Sep.make_centered 64 image ik jk E) = (Sep.size jk - 1) / 2 /\
  (cols kernel = 5 -> Conv.m_ci (Conv.make_centered image kernel E) = 2) /\
  (cols kernel = 4 -> Conv.m_ci (Conv.make_centered image kernel E) = 1) /\
  (Sep.size ik = 5 -> Sep.m_ci (Sep.make_centered 64 image ik jk E) = 2) /\
  (Sep.size ik = 4 -> Sep.m_ci (Sep.make_centered 64 image ik jk E) = 1).
Proof.
  intros image kernel ik jk E. split.
  - vm_compute. intuition congruence.
  - apply (default_origin_is_center image kernel ik jk E 64); vm_compute;
      intuition congruence.
Defined.

(** C6, as stated, fails on a 2D kernel without columns: the [int32]
    division of -1 by 2 truncates to 0, and floor((0-1)/2) is -1. *)
Lemma default_origin_empty_kernel :
  Conv.m_ci (Conv.make_centered (image_view (ones 5 5 1)) empty_kernel (ZeroEdgeExtension 0))
  = 0 /\
  (cols empty_kernel - 1) / 2 = -1 /\
  Conv.m_ci (Conv.make_centered (image_view (ones 5 5 1)) empty_kernel (ZeroEdgeExtension 0))
  <> (cols empty_kernel - 1) / 2.
Proof. split; [reflexivity|]. split; [reflexivity|]. vm_compute. discriminate. Qed.

(** The default origin of an empty factor sequence depends on the width
    of [size_t]; the view never reads it. *)
Lemma center_empty :
  Sep.center (K:=Z) 64 [] = -1 /\ Sep.center (K:=Z) 32 [] = 2 ^ 31 - 1.
Proof. split; reflexivity. Qed.

(** ** Extents *)

(** C10. The extents of a convolution view, standard or separable, are
    those of its source image, whatever the kernel, the origin and the
    edge policy. *)
Theorem view_extents_are_image_extents {P K : Type}
    (image : View P) (kernel : View K) (ik jk : list K) (ci cj w : Z)
    (E : EdgePolicy P) :
  let cv := Conv.make_at image kernel ci cj E in
  let cv' := Conv.make_centered image kernel E in
  let sv := Sep.make_at image ik jk ci cj E in
  let sv' := Sep.make_centered w image ik jk E in
  (Conv.view_cols cv = cols image /\ Conv.view_rows cv = rows image /\
   Conv.view_planes cv = planes image) /\
  (Conv.view_cols cv' = cols image /\ Conv.view_rows cv' = rows image /\
   Conv.view_planes cv' = planes image) /\
  (Sep.view_cols sv = cols image /\ Sep.view_rows sv = rows image /\
   Sep.view_planes sv = planes image) /\
  (Sep.view_cols sv' = cols image /\ Sep.view_rows sv' = rows image /\
   Sep.view_planes sv' = planes image).
Proof. intros cv cv' sv sv'. by split_and!. Qed.

(** ** The memoized 2D kernel of the separable view *)

Section Kernel2D.
Context {K : Type}.
Variable kmul : K -> K -> K.
Variable kone : K.
Variable kdflt : K.
Implicit Types (ik jk : list K).

Lemma extent_pos ik : 1 <= Sep.extent ik.
Proof. unfold Sep.extent, Sep.size. destruct (Z.eqb_spec (Z.of_nat (length ik)) 0); lia. Qed.

Lemma weight_Some ik i : 0 <= i < Sep.extent ik -> is_Some (Sep.weight kone ik i).
Proof.
  unfold Sep.extent, Sep.weight, Sep.size.
  destruct (Z.eqb_spec (Z.of_nat (length ik)) 0); [by eexists|].
  intros Hi. destruct (Z.leb_spec 0 i); [|lia].
  apply lookup_lt_is_Some. lia.
Qed.

Lemma weight_nonempty ik i :
  ik <> [] -> 0 <= i -> Sep.weight kone ik i = ik !! Z.to_nat i.
Proof.
  intros Hne Hi. unfold Sep.weight, Sep.size.
  destruct (Z.eqb_spec (Z.of_nat (length ik)) 0) as [E|E].
  - destruct ik; [done|simpl in E; lia].
  - destruct (Z.leb_spec 0 i); [done|lia].
Qed.

Lemma weight_empty i : Sep.weight kone [] i = Some kone.
Proof. reflexivity. Qed.

Lemma generate_j_spec ik jk (ni nj i : Z) (a : K) (n : nat) : forall j0 (k2 : ImageView K),
  iv_wf k2 -> iv_cols k2 = ni -> iv_rows k2 = nj -> 1 <= iv_planes k2 ->
  0 <= i < ni -> 0 <= j0 -> j0 + Z.of_nat n <= nj ->
  Sep.weight kone ik i = Some a ->
  (forall j, j0 <= j < j0 + Z.of_nat n -> is_Some (Sep.weight kone jk j)) ->
  exists k2', Sep.generate_j kmul kone n ik jk ni nj i j0 k2 = Some k2' /\
    iv_wf k2' /\ same_extents k2 k2' /\
    (forall j b, j0 <= j < j0 + Z.of_nat n -> Sep.weight kone jk j = Some b ->
       iv_get k2' (ni - 1 - i) (nj - 1 - j) 0 = Some (kmul a b)) /\
    (forall x y p, iv_valid k2 x y p ->
       ~ (p = 0 /\ x = ni - 1 - i /\ j0 <= nj - 1 - y < j0 + Z.of_nat n) ->
       iv_get k2' x y p = iv_get k2 x y p).
Proof.
  induction n as [|n IH]; intros j0 k2 Hwf Hc Hr Hp Hi Hj0 Hn Ha Hb.
  - exists k2. simpl. split_and!; try done. intros; lia.
  - destruct (Hb j0 ltac:(lia)) as [b0 Hb0]. simpl. rewrite Ha, Hb0. simpl.
    assert (iv_valid k2 (ni - 1 - i) (nj - 1 - j0) 0) as Hvalid
      by (unfold iv_valid; lia).
    destruct (iv_put_valid k2 _ _ _ (kmul a b0) Hwf Hvalid)
      as (k1 & Hput & Hwf1 & Hext1 & Hsame1 & Hother1).
    destruct Hext1 as (Hc1 & Hr1 & Hp1) eqn:Eext. clear Eext.
    rewrite Hput. simpl.
    destruct (IH (j0 + 1) k1) as (k2' & Hrun & Hwf2 & Hext2 & Hin2 & Hout2);
      try done; try lia.
    { intros j Hj. apply Hb. lia. }
    exists k2'. split_and!; try done.
    + by eapply same_extents_trans.
    + intros j b Hj Hbj. destruct (decide (j = j0)) as [->|Hne].
      * rewrite Hout2; [|unfold iv_valid in *; lia|lia].
        rewrite Hsame1. congruence.
      * apply Hin2; [lia|done].
    + intros x y p Hv Hnot. rewrite Hout2; [|unfold iv_valid in *; lia|lia].
      apply Hother1; [done|]. intros [= -> -> ->]. lia.
Qed.

Lemma generate_i_spec ik jk (ni nj : Z) (n : nat) : forall i0 (k2 : ImageView K),
  iv_wf k2 -> iv_cols k2 = ni -> iv_rows k2 = nj -> 1 <= iv_planes k2 ->
  0 <= nj -> 0 <= i0 -> i0 + Z.of_nat n <= ni ->
  (forall i, i0 <= i < i0 + Z.of_nat n -> is_Some (Sep.weight kone ik i)) ->
  (forall j, 0 <= j < nj -> is_Some (Sep.weight kone jk j)) ->
  exists k2', Sep.generate_i kmul kone n ik jk ni nj i0 k2 = Some k2' /\
    iv_wf k2' /\ same_extents k2 k2' /\
    (forall i j a b, i0 <= i < i0 + Z.of_nat n -> 0 <= j < nj ->
       Sep.weight kone ik i = Some a -> Sep.weight kone jk j = Some b ->
       iv_get k2' (ni - 1 - i) (nj - 1 - j) 0 = Some (kmul a b)) /\
    (forall x y p, iv_valid k2 x y p ->
       ~ (p = 0 /\ i0 <= ni - 1 - x < i0 + Z.of_nat n) ->
       iv_get k2' x y p = iv_get k2 x y p).
Proof.
  induction n as [|n IH]; intros i0 k2 Hwf Hc Hr Hp Hnj Hi0 Hn Ha Hb.
  - exists k2. simpl. split_and!; try done. intros; lia.
  - destruct (Ha i0 ltac:(lia)) as [a0 Ha0]. simpl.
    destruct (generate_j_spec ik jk ni nj i0 a0 (Z.to_nat nj) 0 k2)
      as (k1 & Hrun1 & Hwf1 & Hext1 & Hin1 & Hout1); try done; try lia.
    { intros j Hj. apply Hb. lia. }
    destruct Hext1 as (Hc1 & Hr1 & Hp1) eqn:Eext. clear Eext.
    rewrite Hrun1. simpl.
    destruct (IH (i0 + 1) k1) as (k2' & Hrun & Hwf2 & Hext2 & Hin2 & Hout2);
      try done; try lia.
    { intros i Hi. apply Ha. lia. }
    exists k2'. split_and!; try done.
    + by eapply same_extents_trans.
    + intros i j a b Hi Hj Hai Hbj. destruct (decide (i = i0)) as [->|Hne].
      * rewrite Hout2; [|unfold iv_valid in *; lia|lia].
        assert (a = a0) as -> by congruence.
        apply Hin1; [lia|done].
      * apply (Hin2 i j a b); [lia|done|done|done].
    + intros x y p Hv Hnot. rewrite Hout2; [|unfold iv_valid in *; lia|lia].
      apply Hout1; [done|lia].
Qed.

(** [generate2DKernel] always produces a kernel; it has the extents of the
    factor sequences (1 for an empty one), and its weight at
    (ni-1-i, nj-1-j) is the product of the i-th and the j-th factor, an
    empty sequence contributing the weight 1. *)
Lemma kernel2d_of_spec ik jk :
  exists k2, Sep.kernel2d_of kmul kone kdflt ik jk = Some k2 /\
    iv_wf k2 /\ iv_cols k2 = Sep.extent ik /\ iv_rows k2 = Sep.extent jk /\
    iv_planes k2 = 1 /\
    forall i j a b, 0 <= i < Sep.extent ik -> 0 <= j < Sep.extent jk ->
      Sep.weight kone ik i = Some a -> Sep.weight kone jk j = Some b ->
      iv_get k2 (Sep.extent ik - 1 - i) (Sep.extent jk - 1 - j) 0 = Some (kmul a b).
Proof.
  unfold Sep.kernel2d_of.
  pose proof (extent_pos ik) as Hni. pose proof (extent_pos jk) as Hnj.
  destruct (new_image_Some kdflt (Sep.extent ik) (Sep.extent jk) 1) as [k0 Hk0];
    try lia.
  destruct (new_image_wf _ _ _ _ _ Hk0) as (Hwf0 & Hc0 & Hr0 & Hp0).
  rewrite Hk0. simpl.
  destruct (generate_i_spec ik jk (Sep.extent ik) (Sep.extent jk)
              (Z.to_nat (Sep.extent ik)) 0 k0)
    as (k2 & Hrun & Hwf & (Hc & Hr & Hp) & Hin & _); try done; try lia.
  { intros i Hi. apply weight_Some. lia. }
  { intros j Hj. by apply weight_Some. }
  exists k2. split_and!; try done; try congruence.
  intros i j a b Hi Hj Ha Hb. apply Hin; try done. lia.
Qed.
End Kernel2D.

(** ** Point evaluation of the separable view *)

Section SepCall.
Context {P K R : Type}.
Variable zero : R.
Variable add : R -> R -> R.
Variable mul : K -> P -> R.
Variable kmul : K -> K -> K.
Variable kone : K.
Variable kdflt : K.
Variable size_bits : Z.
Implicit Types (sv : Sep.SeparableConvolutionView (P:=P) (K:=K)).

Lemma with_kernel_same sv : with_kernel sv (Sep.m_kernel2d sv) = sv.
Proof. by destruct sv. Qed.

Lemma sep_interior_fast_slow sv x y p :
  Sep.interior size_bits sv x y = true ->
  Sep.fast_path zero add mul size_bits sv x y p
  = Sep.slow_path zero add mul size_bits sv x y p.
Proof.
  unfold Sep.interior. rewrite !andb_true_iff, !Z.leb_le. intros Hint.
  unfold Sep.fast_path, Sep.slow_path.
  apply correlate_2d_at_point_ext; [|done].
  intros a b Ha Hb. rewrite !advance_advance, !deref_advance_origin. simpl.
  symmetry. apply extend_inside; lia.
Qed.

(** A call on a view whose cache is already filled leaves the view as it
    is and does not generate the kernel. *)
Lemma sep_call_cached sv x y p :
  iv_cols (Sep.m_kernel2d sv) <> 0 ->
  Sep.call zero add mul kmul kone kdflt size_bits sv x y p
  = (r ← Sep.slow_path zero add mul size_bits sv x y p; Some (r, sv)).
Proof.
  intros Hne. unfold Sep.call.
  destruct (Z.eqb_spec (iv_cols (Sep.m_kernel2d sv)) 0); [done|]. simpl.
  destruct (Sep.interior size_bits sv x y) eqn:E; [|done].
  by rewrite sep_interior_fast_slow.
Qed.

(** A call correlates the edge-extended image with the generated kernel
    and leaves that kernel in the cache. *)
Lemma sep_call_spec sv x y p (k2 : ImageView K) :
  cache_ok kmul kone kdflt sv ->
  Sep.kernel2d_of kmul kone kdflt (Sep.m_i_kernel sv) (Sep.m_j_kernel sv) = Some k2 ->
  Sep.call zero add mul kmul kone kdflt size_bits sv x y p
  = (r ← Sep.slow_path zero add mul size_bits (with_kernel sv k2) x y p;
     Some (r, with_kernel sv k2)).
Proof.
  intros [Hfresh|Hbuilt] Hk2.
  - unfold Sep.call. rewrite Hfresh. simpl.
    unfold Sep.generate2DKernel. rewrite Hk2. simpl.
    fold (with_kernel sv k2).
    destruct (Sep.interior size_bits (with_kernel sv k2) x y) eqn:E; [|done].
    by rewrite sep_interior_fast_slow.
  - assert (k2 = Sep.m_kernel2d sv) as -> by congruence.
    rewrite with_kernel_same. apply sep_call_cached.
    destruct (kernel2d_of_spec kmul kone kdflt (Sep.m_i_kernel sv) (Sep.m_j_kernel sv))
      as (k2' & Hk2' & _ & Hc & _).
    assert (k2' = Sep.m_kernel2d sv) as -> by congruence.
    rewrite Hc. pose proof (extent_pos (Sep.m_i_kernel sv)). lia.
Qed.

Lemma cache_ok_with_kernel sv (k2 : ImageView K) :
  Sep.kernel2d_of kmul kone kdflt (Sep.m_i_kernel sv) (Sep.m_j_kernel sv) = Some k2 ->
  cache_ok kmul kone kdflt (with_kernel sv k2).
Proof. intros H. by right. Qed.

Lemma sep_slow_path_Some sv x y p :
  iv_wf (Sep.m_kernel2d sv) -> 1 <= iv_planes (Sep.m_kernel2d sv) ->
  extended_defined (Sep.m_edge sv) (Sep.m_image sv) ->
  0 <= p < planes (Sep.m_image sv) ->
  is_Some (Sep.slow_path zero add mul size_bits sv x y p).
Proof.
  intros Hwf Hpl Hdef Hp. unfold Sep.slow_path.
  apply correlate_2d_at_point_Some.
  - intros a b Ha Hb. rewrite advance_advance, deref_advance_origin. simpl.
    apply Hdef. lia.
  - intros a b Ha Hb. rewrite deref_advance_origin. simpl.
    apply iv_get_valid; [done|]. unfold iv_valid. lia.
Qed.

(** Point evaluation returns a value at every coordinate of the image's
    planes, as soon as the edge-extended image is defined. *)
Lemma sep_call_Some sv x y p :
  cache_ok kmul kone kdflt sv ->
  extended_defined (Sep.m_edge sv) (Sep.m_image sv) ->
  0 <= p < planes (Sep.m_image sv) ->
  exists r k2,
    Sep.kernel2d_of kmul kone kdflt (Sep.m_i_kernel sv) (Sep.m_j_kernel sv) = Some k2 /\
    Sep.call zero add mul kmul kone kdflt size_bits sv x y p = Some (r, with_kernel sv k2).
Proof.
  intros Hok Hdef Hp.
  destruct (kernel2d_of_spec kmul kone kdflt (Sep.m_i_kernel sv) (Sep.m_j_kernel sv))
    as (k2 & Hk2 & Hwf & Hc & Hr & Hpl & _).
  destruct (sep_slow_path_Some (with_kernel sv k2) x y p) as [r Hr']; simpl; try done.
  { lia. }
  exists r, k2. split; [done|].
  rewrite (sep_call_spec sv x y p k2 Hok Hk2), Hr'. done.
Qed.

Lemma sep_calls_spec (queries : list (Z * Z * Z)) : forall sv,
  cache_ok kmul kone kdflt sv ->
  extended_defined (Sep.m_edge sv) (Sep.m_image sv) ->
  Forall (fun q => 0 <= q.2 < planes (Sep.m_image sv)) queries ->
  exists rs k2,
    Sep.kernel2d_of kmul kone kdflt (Sep.m_i_kernel sv) (Sep.m_j_kernel sv) = Some k2 /\
    Sep.calls zero add mul kmul kone kdflt size_bits sv queries
    = Some (rs, if queries is [] then sv else with_kernel sv k2) /\
    length rs = length queries.
Proof.
  induction queries as [|[[x y] p] rest IH]; intros sv Hok Hdef Hall.
  - destruct (kernel2d_of_spec kmul kone kdflt (Sep.m_i_kernel sv) (Sep.m_j_kernel sv))
      as (k2 & Hk2 & _).
    by exists [], k2.
  - inversion Hall as [|q qs Hp Hall']; subst. simpl in Hp.
    destruct (sep_call_Some sv x y p Hok Hdef Hp) as (r & k2 & Hk2 & Hcall).
    destruct (IH (with_kernel sv k2)) as (rs & k2' & Hk2' & Hcalls & Hlen); try done.
    { by apply cache_ok_with_kernel. }
    simpl in Hk2'. assert (k2' = k2) as -> by congruence.
    exists (r :: rs), k2. split; [done|]. simpl. rewrite Hcall. simpl.
    rewrite Hcalls. simpl. split; [|by rewrite Hlen].
    by destruct rest.
Qed.
End SepCall.

Section MemoizedKernel.
Context {P K R : Type}.
Variable zero : R.
Variable add : R -> R -> R.
Variable mul : K -> P -> R.
Variable kmul : K -> K -> K.
Variable kone : K.
Variable kdflt : K.
Variable size_bits : Z.

(** C7. The kernel that a separable view memoizes always exists and has
    the extents of the factor sequences (1 for an empty sequence).  It
    holds at (ni-1-i, nj-1-j) the product of the i-th element of the row
    factors and of the j-th element of the column factors; on the axis of
    an empty sequence, whose extent is 1, the weight 1 takes the place of
    the factor.  The first point evaluation on a fresh view stores it; an
    evaluation on a view whose kernel is stored does not generate it again
    and returns the view unchanged; so after any sequence of evaluations
    the view holds the kernel of the first one. *)
Theorem kernel2d_memoized_once (image : View P) (ik jk : list K) (ci cj : Z)
    (E : EdgePolicy P) :
  let sv0 := Sep.make_at image ik jk ci cj E in
  let ni := Z.max 1 (Z.of_nat (length ik)) in
  let nj := Z.max 1 (Z.of_nat (length jk)) in
  exists k2,
    Sep.kernel2d_of kmul kone kdflt ik jk = Some k2 /\
    (iv_cols k2 = ni /\ iv_rows k2 = nj /\ iv_planes k2 = 1 /\ iv_cols k2 <> 0) /\
    (forall (i j : nat) a b, ik !! i = Some a -> jk !! j = Some b ->
       iv_get k2 (ni - 1 - Z.of_nat i) (nj - 1 - Z.of_nat j) 0 = Some (kmul a b)) /\
    (ik = [] -> forall (j : nat) b, jk !! j = Some b ->
       iv_get k2 0 (nj - 1 - Z.of_nat j) 0 = Some (kmul kone b)) /\
    (jk = [] -> forall (i : nat) a, ik !! i = Some a ->
       iv_get k2 (ni - 1 - Z.of_nat i) 0 0 = Some (kmul a kone)) /\
    (ik = [] -> jk = [] -> iv_get k2 0 0 0 = Some (kmul kone kone)) /\
    (forall x y p r sv1,
       Sep.call zero add mul kmul kone kdflt size_bits sv0 x y p = Some (r, sv1) ->
       sv1 = with_kernel sv0 k2) /\
    (forall sv x y p, iv_cols (Sep.m_kernel2d sv) <> 0 ->
       Sep.call zero add mul kmul kone kdflt size_bits sv x y p
       = (r ← Sep.slow_path zero add mul size_bits sv x y p; Some (r, sv))) /\
    (forall queries,
       extended_defined E image ->
       Forall (fun q => 0 <= q.2 < planes image) queries ->
       exists rs,
         Sep.calls zero add mul kmul kone kdflt size_bits sv0 queries
         = Some (rs, if queries is [] then sv0 else with_kernel sv0 k2) /\
         length rs = length queries).
Proof.
  intros sv0 ni nj.
  destruct (kernel2d_of_spec kmul kone kdflt ik jk)
    as (k2 & Hk2 & Hwf & Hc & Hr & Hpl & Hinv).
  assert (cache_ok kmul kone kdflt sv0) as Hok by (by left).
  assert (forall k : list K, Sep.extent k = Z.max 1 (Z.of_nat (length k))) as Hext.
  { intros k. unfold Sep.extent, Sep.size.
    destruct (Z.eqb_spec (Z.of_nat (length k)) 0); lia. }
  assert (forall (k : list K) (i : nat) a, k !! i = Some a ->
            0 <= Z.of_nat i < Sep.extent k /\ Sep.weight kone k (Z.of_nat i) = Some a)
    as Hfactor.
  { intros k i a Hi. pose proof (lookup_lt_Some _ _ _ Hi) as Hlt.
    assert (k <> []) as Hne by (intros ->; simpl in Hlt; lia).
    rewrite Hext. split; [lia|].
    rewrite weight_nonempty by (done || lia). by rewrite Nat2Z.id. }
  assert (0 <= 0 < Sep.extent (K:=K) [] /\ Sep.weight kone [] 0 = Some kone) as Hunit.
  { split; [rewrite Hext; simpl; lia|apply weight_empty]. }
  rewrite Hext in Hc, Hr. fold ni in Hc. fold nj in Hr.
  exists k2. split_and!; try done.
  - rewrite Hc. unfold ni. lia.
  - intros i j a b Hi Hj.
    destruct (Hfactor ik i a Hi) as [Hri Hwi]. destruct (Hfactor jk j b Hj) as [Hrj Hwj].
    specialize (Hinv (Z.of_nat i) (Z.of_nat j) a b Hri Hrj Hwi Hwj).
    by rewrite !Hext in Hinv.
  - intros -> j b Hj. destruct Hunit as [Hri Hwi].
    destruct (Hfactor jk j b Hj) as [Hrj Hwj].
    specialize (Hinv 0 (Z.of_nat j) kone b Hri Hrj Hwi Hwj).
    by rewrite !Hext in Hinv.
  - intros -> i a Hi. destruct Hunit as [Hrj Hwj].
    destruct (Hfactor ik i a Hi) as [Hri Hwi].
    specialize (Hinv (Z.of_nat i) 0 a kone Hri Hrj Hwi Hwj).
    by rewrite !Hext in Hinv.
  - intros -> ->. destruct Hunit as [Hr0 Hw0].
    exact (Hinv 0 0 kone kone Hr0 Hr0 Hw0 Hw0).
  - intros x y p r sv1.
    rewrite (sep_call_spec zero add mul kmul kone kdflt size_bits sv0 x y p k2 Hok Hk2).
    destruct (Sep.slow_path _ _ _ _ _ _ _ _); simpl; [|done]. by intros [= _ <-].
  - intros sv x y p Hne. by apply sep_call_cached.
  - intros queries Hdef Hall.
    destruct (sep_calls_spec zero add mul kmul kone kdflt size_bits queries sv0)
      as (rs & k2' & Hk2' & Hcalls & Hlen); try done.
    simpl in Hk2'. assert (k2' = k2) as -> by congruence.
    by exists rs.
Qed.
End MemoizedKernel.

(** The memoized kernel of the row factors [1 2 3] and the column factors
    [10 20], and of no row factor with the same column factors. *)
Lemma kernel2d_memoized_once_witness :
  let image := image_view (ones 5 5 1) in
  let E := ZeroEdgeExtension 0 in
  (exists k2,
     Sep.kernel2d_of Z.mul 1 0 [1; 2; 3] [10; 20] = Some k2 /\
     k2 = mkImage 3 2 1 [60; 40; 20; 30; 20; 10] /\
     iv_get k2 0 0 0 = Some (3 * 20) /\ iv_get k2 1 0 0 = Some (2 * 20) /\
     iv_get k2 2 1 0 = Some (1 * 10) /\
     forall x y p r sv1,
       Sep.call 0 Z.add Z.mul Z.mul 1 0 64 (Sep.make_at image [1; 2; 3] [10; 20] 1 0 E) x y p
       = Some (r, sv1) ->
       sv1 = with_kernel (Sep.make_at image [1; 2; 3] [10; 20] 1 0 E) k2) /\
  (exists k2,
     Sep.kernel2d_of Z.mul 1 0 [] [10; 20] = Some k2 /\
     k2 = mkImage 1 2 1 [20; 10] /\
     iv_get k2 0 0 0 = Some (1 * 20) /\ iv_get k2 0 1 0 = Some (1 * 10)).
Proof.
  intros image E. split.
  - destruct (kernel2d_memoized_once 0 Z.add Z.mul Z.mul 1 0 64 image [1; 2; 3] [10; 20]
                1 0 E) as (k2 & Hk2 & _ & Hinv & _ & _ & _ & Hfirst & _).
    exists k2. split; [exact Hk2|].
    split; [vm_compute in Hk2; congruence|].
    split; [exact (Hinv 2%nat 1%nat 3 20 eq_refl eq_refl)|].
    split; [exact (Hinv 1%nat 1%nat 2 20 eq_refl eq_refl)|].
    split; [exact (Hinv 0%nat 0%nat 1 10 eq_refl eq_refl)|].
    exact Hfirst.
  - destruct (kernel2d_memoized_once 0 Z.add Z.mul Z.mul 1 0 64 image [] [10; 20]
                1 0 E) as (k2 & Hk2 & _ & _ & Hinv & _).
    exists k2. split; [exact Hk2|].
    split; [vm_compute in Hk2; congruence|].
    split; [exact (Hinv eq_refl 1%nat 20 eq_refl)|].
    exact (Hinv eq_refl 0%nat 10 eq_refl).
Defined.

(** ** The 1D primitive and the row pass *)

Section Correlate1D.
Context {Src K R : Type}.
Variable zero : R.
Variable add : R -> R -> R.
Variable times : K -> Src -> R.

Lemma correlate_1d_loop_ext (n : nat) : forall (s s' : PixelAccessor Src) (k k' : list K) r,
  (forall a, 0 <= a < Z.of_nat n -> deref (advance s a 0 0) = deref (advance s' a 0 0)) ->
  (forall a, (a < n)%nat -> k !! a = k' !! a) ->
  correlate_1d_loop add times n s k r = correlate_1d_loop add times n s' k' r.
Proof.
  induction n as [|n IH]; intros s s' k k' r Hs Hk; [done|].
  simpl. rewrite !head_lookup, (Hk 0%nat) by lia.
  pose proof (Hs 0 ltac:(lia)) as Hs0. rewrite !advance_0 in Hs0. rewrite Hs0.
  destruct (k' !! 0%nat) as [kv|]; [|done]. simpl.
  destruct (deref s') as [sv|]; [|done]. simpl.
  apply IH.
  - intros a Ha. rewrite !advance_next_col. apply Hs. lia.
  - intros a Ha. rewrite !lookup_tail. apply Hk. lia.
Qed.

Lemma correlate_1d_loop_sum (g : Z -> K) (f : Z -> Src) (n : nat) :
  forall (s : PixelAccessor Src) (k : list K) a0 r,
  (forall a, 0 <= a < Z.of_nat n -> deref (advance s a 0 0) = Some (f (a0 + a))) ->
  (forall a, 0 <= a < Z.of_nat n -> k !! Z.to_nat a = Some (g (a0 + a))) ->
  correlate_1d_loop add times n s k r = Some (weighted_sum add times n g f a0 r).
Proof.
  induction n as [|n IH]; intros s k a0 r Hs Hk; [done|].
  simpl. rewrite head_lookup.
  pose proof (Hk 0 ltac:(lia)) as Hk0. change (Z.to_nat 0) with 0%nat in Hk0.
  rewrite Hk0. simpl.
  pose proof (Hs 0 ltac:(lia)) as Hs0. rewrite advance_0 in Hs0. rewrite Hs0. simpl.
  rewrite Z.add_0_r.
  apply IH.
  - intros a Ha. rewrite advance_next_col, Hs by lia. f_equal. f_equal. lia.
  - intros a Ha. rewrite lookup_tail.
    replace (S (Z.to_nat a)) with (Z.to_nat (1 + a)) by lia.
    rewrite Hk by lia. f_equal. f_equal. lia.
Qed.

Lemma correlate_1d_loop_Some (n : nat) : forall (s : PixelAccessor Src) (k : list K) r,
  (forall a, 0 <= a < Z.of_nat n -> is_Some (deref (advance s a 0 0))) ->
  (n <= length k)%nat ->
  is_Some (correlate_1d_loop add times n s k r).
Proof.
  induction n as [|n IH]; intros s k r Hs Hk; [by eexists|].
  simpl. destruct k as [|kv k]; [simpl in Hk; lia|]. simpl.
  destruct (Hs 0 ltac:(lia)) as [sv Hsv]. rewrite advance_0 in Hsv. rewrite Hsv. simpl.
  apply IH.
  - intros a Ha. rewrite advance_next_col. apply Hs. lia.
  - simpl in Hk. lia.
Qed.

(** A row of the 2D primitive is the 1D primitive on the weights of that
    kernel row. *)
Lemma correlate_2d_cols_1d (n : nat) : forall (s : PixelAccessor Src)
    (k : PixelAccessor K) (l : list K) r,
  (forall a, 0 <= a < Z.of_nat n -> deref (advance k a 0 0) = l !! Z.to_nat a) ->
  correlate_2d_cols add times n s k r = correlate_1d_loop add times n s l r.
Proof.
  induction n as [|n IH]; intros s k l r Hk; [done|].
  simpl. rewrite head_lookup.
  pose proof (Hk 0 ltac:(lia)) as Hk0. rewrite advance_0 in Hk0.
  change (Z.to_nat 0) with 0%nat in Hk0.
  rewrite Hk0.
  destruct (l !! 0%nat) as [kv|]; [|done]. simpl.
  destruct (deref s) as [sv|]; [|done]. simpl.
  apply IH. intros a Ha. rewrite advance_next_col, lookup_tail, Hk by lia.
  f_equal. lia.
Qed.

(** A one-column 2D kernel is the 1D primitive along the column. *)
Lemma correlate_2d_rows_1d (n : nat) : forall (s s' : PixelAccessor Src)
    (k : PixelAccessor K) (l : list K) r,
  (forall b, 0 <= b < Z.of_nat n -> deref (advance k 0 b 0) = l !! Z.to_nat b) ->
  (forall b, 0 <= b < Z.of_nat n -> deref (advance s 0 b 0) = deref (advance s' b 0 0)) ->
  correlate_2d_rows add times n 1 s k r = correlate_1d_loop add times n s' l r.
Proof.
  induction n as [|n IH]; intros s s' k l r Hk Hs; [done|].
  simpl. rewrite head_lookup.
  pose proof (Hk 0 ltac:(lia)) as Hk0. rewrite advance_0 in Hk0.
  change (Z.to_nat 0) with 0%nat in Hk0.
  pose proof (Hs 0 ltac:(lia)) as Hs0. rewrite !advance_0 in Hs0.
  rewrite Hk0, Hs0.
  destruct (l !! 0%nat) as [kv|]; [|done]. simpl.
  destruct (deref s') as [sv|]; [|done]. simpl.
  apply IH.
  - intros b Hb. rewrite advance_next_row, lookup_tail, Hk by lia. f_equal. lia.
  - intros b Hb. rewrite advance_next_row, advance_next_col. apply Hs. lia.
Qed.
End Correlate1D.

Section Correlate2DSum.
Context {P K R : Type}.
Variable add : R -> R -> R.
Variable mul : K -> P -> R.

Lemma correlate_2d_cols_sum (g : Z -> K) (f : Z -> P) (n : nat) :
  forall (s : PixelAccessor P) (k : PixelAccessor K) a0 r,
  (forall a, 0 <= a < Z.of_nat n -> deref (advance s a 0 0) = Some (f (a0 + a))) ->
  (forall a, 0 <= a < Z.of_nat n -> deref (advance k a 0 0) = Some (g (a0 + a))) ->
  correlate_2d_cols add mul n s k r = Some (weighted_sum add mul n g f a0 r).
Proof.
  induction n as [|n IH]; intros s k a0 r Hs Hk; [done|].
  simpl.
  pose proof (Hk 0 ltac:(lia)) as Hk0. rewrite advance_0 in Hk0. rewrite Hk0. simpl.
  pose proof (Hs 0 ltac:(lia)) as Hs0. rewrite advance_0 in Hs0. rewrite Hs0. simpl.
  rewrite Z.add_0_r.
  apply IH.
  - intros a Ha. rewrite advance_next_col, Hs by lia. do 2 f_equal. lia.
  - intros a Ha. rewrite advance_next_col, Hk by lia. do 2 f_equal. lia.
Qed.

Lemma correlate_2d_rows_sum (g : Z -> Z -> K) (f : Z -> Z -> P) (m n : nat) :
  forall (s : PixelAccessor P) (k : PixelAccessor K) b0 r,
  (forall a b, 0 <= a < Z.of_nat n -> 0 <= b < Z.of_nat m ->
               deref (advance s a b 0) = Some (f a (b0 + b))) ->
  (forall a b, 0 <= a < Z.of_nat n -> 0 <= b < Z.of_nat m ->
               deref (advance k a b 0) = Some (g a (b0 + b))) ->
  correlate_2d_rows add mul m n s k r = Some (weighted_sum_rows add mul m n g f b0 r).
Proof.
  induction m as [|m IH]; intros s k b0 r Hs Hk; [done|].
  simpl.
  rewrite (correlate_2d_cols_sum (fun a => g a b0) (fun a => f a b0) n s k 0 r).
  - simpl. apply IH.
    + intros a b Ha Hb. rewrite advance_next_row, Hs by lia. do 2 f_equal. lia.
    + intros a b Ha Hb. rewrite advance_next_row, Hk by lia. do 2 f_equal. lia.
  - intros a Ha. rewrite Hs by lia. do 2 f_equal. lia.
  - intros a Ha. rewrite Hk by lia. do 2 f_equal. lia.
Qed.
End Correlate2DSum.

Section RowPass.
Context {Src K R : Type}.
Variable zero : R.
Variable add : R -> R -> R.
Variable times : K -> Src -> R.

Lemma size_nonneg (k : list K) : 0 <= Sep.size k.
Proof. unfold Sep.size. lia. Qed.

Lemma dest_extents_nonneg {B : Type} (sh : DestShape) (b : ImageView B) :
  iv_wf b -> 0 <= dest_cols sh b /\ 0 <= dest_rows sh b /\ 0 <= iv_planes b.
Proof. intros (? & ? & ? & _). destruct sh; simpl; lia. Qed.

Lemma correlate_1d_at_point_Some (s : PixelAccessor Src) (kernel : list K) :
  (forall a, 0 <= a < Sep.size kernel -> is_Some (deref (advance s a 0 0))) ->
  is_Some (correlate_1d_at_point zero add times s (rev kernel) (Sep.size kernel)).
Proof.
  intros Hs. unfold correlate_1d_at_point, Sep.size in *. rewrite Nat2Z.id.
  apply correlate_1d_loop_Some.
  - done.
  - by rewrite length_rev.
Qed.

Lemma correlate_1d_at_point_ext (s s' : PixelAccessor Src) (kernel : list K) :
  (forall a, 0 <= a < Sep.size kernel ->
             deref (advance s a 0 0) = deref (advance s' a 0 0)) ->
  correlate_1d_at_point zero add times s (rev kernel) (Sep.size kernel)
  = correlate_1d_at_point zero add times s' (rev kernel) (Sep.size kernel).
Proof.
  intros Hs. unfold correlate_1d_at_point, Sep.size in *. rewrite Nat2Z.id.
  by apply correlate_1d_loop_ext.
Qed.

(** [convolve_1d] assigns to every destination pixel of the source's
    planes the 1D correlation of the reversed kernel with the source, from
    that pixel on. *)
Lemma convolve_1d_spec (src : View Src) (sh : DestShape) (dest : ImageView R)
    (kernel : list K) :
  iv_wf dest -> 0 <= planes src <= iv_planes dest ->
  (forall x y p a, 0 <= x < dest_cols sh dest -> 0 <= y < dest_rows sh dest ->
     0 <= p < planes src -> 0 <= a < Sep.size kernel -> is_Some (pix src (x + a) y p)) ->
  exists dest', Sep.convolve_1d zero add times src sh dest kernel = Some dest' /\
    iv_wf dest' /\ same_extents dest dest' /\
    (forall x y p, 0 <= x < dest_cols sh dest -> 0 <= y < dest_rows sh dest ->
       0 <= p < planes src ->
       is_Some (dest_get sh dest' x y p) /\
       dest_get sh dest' x y p
       = correlate_1d_at_point zero add times (advance (origin src) x y p)
           (rev kernel) (Sep.size kernel)) /\
    (forall x y p, dest_valid sh dest x y p -> planes src <= p ->
       dest_get sh dest' x y p = dest_get sh dest x y p).
Proof.
  intros Hwf Hp Hsrc. unfold Sep.convolve_1d.
  destruct (dest_extents_nonneg sh dest Hwf) as (Hc0 & Hr0 & Hp0).
  assert (forall a b c, 0 <= a < dest_cols sh dest -> 0 <= b < dest_rows sh dest ->
            0 <= c < planes src ->
            is_Some (correlate_1d_at_point zero add times (advance (origin src) a b c)
                       (rev kernel) (Sep.size kernel))) as Hval.
  { intros a b c Ha Hb Hc. apply correlate_1d_at_point_Some.
    intros t Ht. rewrite advance_advance, deref_advance_origin, !Z.add_0_r.
    by apply Hsrc. }
  destruct (fill_planes_spec
              (fun scol => correlate_1d_at_point zero add times scol (rev kernel)
                             (Sep.size kernel))
              sh (Z.to_nat (planes src)) (Z.to_nat (dest_rows sh dest))
              (Z.to_nat (dest_cols sh dest)) (origin src) 0 0 0 dest)
    as (dest' & Hrun & Hwf' & Hext & Hin & Hout); rewrite ?Z2Nat.id by lia; try lia.
  - done.
  - intros a b c Ha Hb Hc. apply Hval; lia.
  - rewrite !Z2Nat.id in Hin, Hout by lia.
    exists dest'. split_and!; try done.
    + intros x y p Hx Hy Hpp. rewrite Hin by lia. rewrite !Z.sub_0_r.
      split; [|done]. by apply Hval.
    + intros x y p Hv Hge. apply Hout; [done|lia].
Qed.
End RowPass.

(** ** Separability *)

Section Separability.
Context {P K R : Type}.
Variable zero : R.
Variable add : R -> R -> R.
Variable mul : K -> P -> R.
Variable mulR : K -> R -> R.
Variable kmul : K -> K -> K.
Hypothesis laws : exact_arithmetic zero add mul mulR kmul.

Lemma weighted_sum_scale (kj : K) (g : Z -> K) (f : Z -> P) (n : nat) : forall a r,
  mulR kj (weighted_sum add mul n g f a r)
  = weighted_sum add mul n (fun i => kmul (g i) kj) f a (mulR kj r).
Proof.
  destruct laws as (_ & _ & _ & Hadd & Hmul).
  induction n as [|n IH]; intros a r; [done|].
  simpl. rewrite IH, Hadd, Hmul. done.
Qed.

Lemma weighted_sum_shift (g : Z -> K) (f : Z -> P) (n : nat) : forall a r r',
  add r (weighted_sum add mul n g f a r') = weighted_sum add mul n g f a (add r r').
Proof.
  destruct laws as (Hassoc & _).
  induction n as [|n IH]; intros a r r'; [done|].
  simpl. rewrite IH, Hassoc. done.
Qed.

(** The column pass over the row pass is the 2D sum with the product
    kernel. *)
Lemma two_passes_sum (gi gj : Z -> K) (f : Z -> Z -> P) (n : nat) (m : nat) :
  forall b r,
  weighted_sum add mulR m gj
    (fun t => weighted_sum add mul n gi (fun s => f s t) 0 zero) b r
  = weighted_sum_rows add mul m n (fun s t => kmul (gi s) (gj t)) f b r.
Proof.
  induction m as [|m IH]; intros b r; [done|].
  simpl. rewrite IH. f_equal.
  rewrite weighted_sum_scale, weighted_sum_shift.
  destruct laws as (_ & Hzero & Hmz & _). by rewrite Hmz, Hzero.
Qed.
End Separability.

(** ** Rasterization of the separable view *)

Section SepRaster.
Context {P K R : Type}.
Variable zero : R.
Variable add : R -> R -> R.
Variable mul : K -> P -> R.
Variable mulR : K -> R -> R.
Variable promote : P -> R.
Variable pdflt : P.
Variable rdflt : R.
Implicit Types (sv : Sep.SeparableConvolutionView (P:=P) (K:=K)).

Lemma size_zero (k : list K) : Sep.size k = 0 <-> k = [].
Proof. unfold Sep.size. destruct k; simpl; split; intros; try done; lia. Qed.

Lemma size_pos (k : list K) : k <> [] -> 1 <= Sep.size k.
Proof. unfold Sep.size. destruct k; simpl; intros; try done; lia. Qed.

Lemma halo_nonneg (k : list K) : 0 <= halo k.
Proof. unfold halo. pose proof (size_nonneg k). destruct (Z.eqb_spec (Sep.size k) 0); lia. Qed.

Lemma child_bbox_width sv bb :
  width (Sep.child_bbox sv bb) = width bb + halo (Sep.m_i_kernel sv).
Proof.
  unfold width, Sep.child_bbox, halo. simpl.
  destruct (Z.eqb_spec (Sep.size (Sep.m_i_kernel sv)) 0); lia.
Qed.

Lemma child_bbox_height sv bb :
  height (Sep.child_bbox sv bb) = height bb + halo (Sep.m_j_kernel sv).
Proof.
  unfold height, Sep.child_bbox, halo. simpl.
  destruct (Z.eqb_spec (Sep.size (Sep.m_j_kernel sv)) 0); lia.
Qed.

(** The source buffer of [rasterize] holds the edge-extended image on the
    grown rectangle. *)
Lemma sep_src_buf sv bb :
  extended_defined (Sep.m_edge sv) (Sep.m_image sv) ->
  0 <= planes (Sep.m_image sv) -> 0 <= width bb -> 0 <= height bb ->
  exists src,
    materialize id pdflt
      (edge_extend_bbox (Sep.m_image sv) (Sep.child_bbox sv bb) (Sep.m_edge sv))
    = Some src /\
    iv_wf src /\
    iv_cols src = width bb + halo (Sep.m_i_kernel sv) /\
    iv_rows src = height bb + halo (Sep.m_j_kernel sv) /\
    iv_planes src = planes (Sep.m_image sv) /\
    forall x y p, iv_valid src x y p ->
      is_Some (iv_get src x y p) /\
      iv_get src x y p
      = extend (Sep.m_edge sv) (Sep.m_image sv)
          (x + min_x (Sep.child_bbox sv bb)) (y + min_y (Sep.child_bbox sv bb)) p.
Proof.
  intros Hdef Hpl Hw Hh.
  pose proof (halo_nonneg (Sep.m_i_kernel sv)). pose proof (halo_nonneg (Sep.m_j_kernel sv)).
  destruct (materialize_spec id pdflt
              (edge_extend_bbox (Sep.m_image sv) (Sep.child_bbox sv bb) (Sep.m_edge sv)))
    as (src & Hsrc & Hwf & Hc & Hr & Hp & Hget); simpl;
    rewrite ?child_bbox_width, ?child_bbox_height; try lia.
  { intros x y p _ _ Hpp. by apply Hdef. }
  simpl in Hc, Hr, Hp, Hget. rewrite child_bbox_width in Hc, Hget.
  rewrite child_bbox_height in Hr, Hget.
  exists src. split_and!; try done.
  intros x y p (Hx & Hy & Hpp). rewrite Hget by lia. rewrite option_fmap_id.
  split; [|done]. apply Hdef. lia.
Qed.

(** Only the row axis has weights: one pass along the rows. *)
Lemma sep_rasterize_rows sv (dest : ImageView R) bb :
  Sep.m_i_kernel sv <> [] -> Sep.m_j_kernel sv = [] ->
  extended_defined (Sep.m_edge sv) (Sep.m_image sv) ->
  iv_wf dest -> iv_cols dest = width bb -> iv_rows dest = height bb ->
  iv_planes dest = planes (Sep.m_image sv) ->
  exists dest', Sep.rasterize zero add mul mulR promote pdflt rdflt sv dest bb = Some dest' /\
    iv_wf dest' /\ same_extents dest dest' /\
    forall x y p, iv_valid dest x y p ->
      is_Some (iv_get dest' x y p) /\
      iv_get dest' x y p = row_filtered zero add mul sv (min_x bb + x) (min_y bb + y) p.
Proof.
  intros Hi Hj Hdef Hwf Hc Hr Hp.
  pose proof (size_pos _ Hi) as Hni.
  destruct (dest_extents_nonneg Direct dest Hwf) as (Hc0 & Hr0 & Hp0). simpl in Hc0, Hr0.
  destruct (sep_src_buf sv bb) as (src & Hsrc & Hwfs & Hcs & Hrs & Hps & Hget);
    try done; try lia.
  unfold Sep.rasterize. rewrite Hsrc, Hj.
  change (Sep.size []) with 0.
  destruct (Z.eqb_spec (Sep.size (Sep.m_i_kernel sv)) 0) as [E|E]; [lia|].
  destruct (Z.ltb_spec 0 (Sep.size (Sep.m_i_kernel sv))) as [L|L]; [|lia].
  simpl.
  unfold halo in Hcs, Hrs. rewrite Hj in Hrs. change (Sep.size [] =? 0) with true in Hrs.
  cbv iota in Hrs. rewrite Z.add_0_r in Hrs.
  destruct (Z.eqb_spec (Sep.size (Sep.m_i_kernel sv)) 0) as [E'|_]; [lia|].
  destruct (convolve_1d_spec zero add mul (image_view src) Direct dest (Sep.m_i_kernel sv))
    as (dest' & Hrun & Hwf' & Hext & Hin & _); simpl; try done; try lia.
  { intros x y p a Hx Hy Hpp Ha. apply Hget. unfold iv_valid. lia. }
  exists dest'. split_and!; try done.
  intros x y p (Hx & Hy & Hpp).
  destruct (Hin x y p) as [HS Heq]; simpl; try lia.
  simpl in HS, Heq. split; [done|]. rewrite Heq. unfold row_filtered.
  apply correlate_1d_at_point_ext. intros a Ha.
  rewrite !advance_advance, !deref_advance_origin. simpl.
  destruct (Hget (x + a) (y + 0) (p + 0)) as [_ ->]; [unfold iv_valid; lia|].
  unfold Sep.child_bbox. simpl. rewrite Hj. change (Sep.size [] =? 0) with true.
  destruct (Z.eqb_spec (Sep.size (Sep.m_i_kernel sv)) 0) as [E'|_]; [lia|].
  f_equal; lia.
Qed.

(** Only the column axis has weights: one pass along the columns, on the
    transposed views. *)
Lemma sep_rasterize_columns sv (dest : ImageView R) bb :
  Sep.m_i_kernel sv = [] -> Sep.m_j_kernel sv <> [] ->
  extended_defined (Sep.m_edge sv) (Sep.m_image sv) ->
  iv_wf dest -> iv_cols dest = width bb -> iv_rows dest = height bb ->
  iv_planes dest = planes (Sep.m_image sv) ->
  exists dest', Sep.rasterize zero add mul mulR promote pdflt rdflt sv dest bb = Some dest' /\
    iv_wf dest' /\ same_extents dest dest' /\
    forall x y p, iv_valid dest x y p ->
      is_Some (iv_get dest' x y p) /\
      iv_get dest' x y p = column_filtered zero add mul sv (min_x bb + x) (min_y bb + y) p.
Proof.
  intros Hi Hj Hdef Hwf Hc Hr Hp.
  pose proof (size_pos _ Hj) as Hnj.
  destruct (dest_extents_nonneg Direct dest Hwf) as (Hc0 & Hr0 & Hp0). simpl in Hc0, Hr0.
  destruct (sep_src_buf sv bb) as (src & Hsrc & Hwfs & Hcs & Hrs & Hps & Hget);
    try done; try lia.
  unfold Sep.rasterize. rewrite Hsrc, Hi.
  change (Sep.size []) with 0.
  destruct (Z.eqb_spec (Sep.size (Sep.m_j_kernel sv)) 0) as [E|E]; [lia|].
  simpl.
  unfold halo in Hcs, Hrs. rewrite Hi in Hcs. change (Sep.size [] =? 0) with true in Hcs.
  cbv iota in Hcs. rewrite Z.add_0_r in Hcs.
  destruct (Z.eqb_spec (Sep.size (Sep.m_j_kernel sv)) 0) as [E'|_]; [lia|].
  destruct (convolve_1d_spec zero add mul (transpose (image_view src)) Transposed dest
              (Sep.m_j_kernel sv))
    as (dest' & Hrun & Hwf' & Hext & Hin & _); simpl; try done; try lia.
  { intros x y p a Hx Hy Hpp Ha. apply Hget. unfold iv_valid. lia. }
  exists dest'. split_and!; try done.
  intros x y p (Hx & Hy & Hpp).
  destruct (Hin y x p) as [HS Heq]; simpl; try lia.
  simpl in HS, Heq. split; [done|]. rewrite Heq. unfold column_filtered.
  apply correlate_1d_at_point_ext. intros a Ha.
  rewrite !advance_advance, !deref_advance_origin. simpl.
  destruct (Hget (x + 0) (y + a) (p + 0)) as [_ ->]; [unfold iv_valid; lia|].
  unfold Sep.child_bbox. simpl. rewrite Hi. change (Sep.size [] =? 0) with true.
  destruct (Z.eqb_spec (Sep.size (Sep.m_j_kernel sv)) 0) as [E'|_]; [lia|].
  f_equal; lia.
Qed.

(** Neither axis has weights: the edge-extended image, converted. *)
Lemma sep_rasterize_neither sv (dest : ImageView R) bb :
  Sep.m_i_kernel sv = [] -> Sep.m_j_kernel sv = [] ->
  extended_defined (Sep.m_edge sv) (Sep.m_image sv) ->
  iv_wf dest -> iv_cols dest = width bb -> iv_rows dest = height bb ->
  iv_planes dest = planes (Sep.m_image sv) ->
  Sep.rasterize zero add mul mulR promote pdflt rdflt sv dest bb
  = rasterize_view promote (edge_extend (Sep.m_image sv) (Sep.m_edge sv)) dest bb /\
  exists dest', Sep.rasterize zero add mul mulR promote pdflt rdflt sv dest bb = Some dest' /\
    iv_wf dest' /\ same_extents dest dest' /\
    forall x y p, iv_valid dest x y p ->
      is_Some (iv_get dest' x y p) /\
      iv_get dest' x y p
      = promote <$> extend (Sep.m_edge sv) (Sep.m_image sv) (min_x bb + x) (min_y bb + y) p.
Proof.
  intros Hi Hj Hdef Hwf Hc Hr Hp.
  assert (Sep.rasterize zero add mul mulR promote pdflt rdflt sv dest bb
          = rasterize_view promote (edge_extend (Sep.m_image sv) (Sep.m_edge sv)) dest bb)
    as Heq by (unfold Sep.rasterize; by rewrite Hi, Hj).
  split; [done|]. rewrite Heq.
  destruct (rasterize_view_spec promote (edge_extend (Sep.m_image sv) (Sep.m_edge sv)) dest bb)
    as (dest' & Hrun & Hwf' & Hext & Hget); simpl; try done.
  { intros x y p _ _ Hpp. by apply Hdef. }
  exists dest'. split_and!; try done.
  intros x y p Hv. rewrite Hget by done. simpl. split; [|done].
  apply fmap_is_Some. apply Hdef. destruct Hv as (_ & _ & Hpp). lia.
Qed.
End SepRaster.

(** ** The margins and the generated kernel, read back *)

Lemma int32_of_size_t (w z : Z) : 32 <= w -> int32_of (size_t_of w z) = int32_of z.
Proof.
  intros Hw. unfold int32_of, size_t_of. f_equal.
  assert (2 ^ w = 2 ^ (w - 32) * 2 ^ 32) as Hpow.
  { rewrite <- Z.pow_add_r by lia. f_equal. lia. }
  assert (0 < 2 ^ w) as Hpos by (apply Z.pow_pos_nonneg; lia).
  rewrite (Z.mod_eq z (2 ^ w)) by lia.
  replace (z - 2 ^ w * (z / 2 ^ w) + 2 ^ 31)
    with (z + 2 ^ 31 + (- (z / 2 ^ w) * 2 ^ (w - 32)) * 2 ^ 32).
  - apply Z_mod_plus_full.
  - rewrite Hpow at 2. ring.
Qed.

Lemma rev_lookup {A : Type} (l : list A) (i : nat) :
  (i < length l)%nat -> rev l !! i = l !! (length l - S i)%nat.
Proof. intros Hi. rewrite rev_alt. by apply reverse_lookup. Qed.

Section KernelReads.
Context {K : Type}.
Variable kmul : K -> K -> K.
Variable kone : K.
Variable kdflt : K.
Implicit Types (ik jk : list K).

Lemma extent_nonempty ik : ik <> [] -> Sep.extent ik = Sep.size ik.
Proof.
  intros Hne. unfold Sep.extent. pose proof (size_pos ik Hne).
  destruct (Z.eqb_spec (Sep.size ik) 0); [lia|done].
Qed.

Lemma extent_empty : Sep.extent (K:=K) [] = 1.
Proof. reflexivity. Qed.

(** The margin of [operator()] is the plain difference when it is an
    [int32] value. *)
Lemma margin_nonempty (w : Z) ik (c : Z) :
  32 <= w -> ik <> [] -> - 2 ^ 31 <= Sep.size ik - 1 - c < 2 ^ 31 ->
  Sep.margin w ik c = Sep.size ik - 1 - c.
Proof.
  intros Hw Hne Hfit. unfold Sep.margin. pose proof (size_pos ik Hne).
  destruct (Z.eqb_spec (Sep.size ik) 0); [lia|].
  rewrite int32_of_size_t by done. by apply int32_of_small.
Qed.

Lemma margin_empty (w c : Z) : Sep.margin (K:=K) w [] c = 0.
Proof. reflexivity. Qed.

Lemma weight_rev ik a :
  ik <> [] -> 0 <= a < Sep.size ik ->
  Sep.weight kone ik (Sep.extent ik - 1 - a) = rev ik !! Z.to_nat a.
Proof.
  intros Hne Ha. rewrite extent_nonempty by done.
  rewrite weight_nonempty by (done || lia).
  unfold Sep.size in *. rewrite rev_lookup by lia. f_equal. lia.
Qed.

Lemma kernel2d_read ik jk (k2 : ImageView K) a b :
  Sep.kernel2d_of kmul kone kdflt ik jk = Some k2 ->
  0 <= a < Sep.extent ik -> 0 <= b < Sep.extent jk ->
  exists wa wb,
    Sep.weight kone ik (Sep.extent ik - 1 - a) = Some wa /\
    Sep.weight kone jk (Sep.extent jk - 1 - b) = Some wb /\
    iv_get k2 a b 0 = Some (kmul wa wb).
Proof.
  intros Hk2 Ha Hb.
  destruct (kernel2d_of_spec kmul kone kdflt ik jk) as (k2' & Hk2' & _ & _ & _ & _ & Hinv).
  assert (k2' = k2) as -> by congruence.
  destruct (weight_Some kone ik (Sep.extent ik - 1 - a)) as [wa Hwa]; [lia|].
  destruct (weight_Some kone jk (Sep.extent jk - 1 - b)) as [wb Hwb]; [lia|].
  exists wa, wb. split_and!; try done.
  specialize (Hinv (Sep.extent ik - 1 - a) (Sep.extent jk - 1 - b) wa wb
              ltac:(lia) ltac:(lia) Hwa Hwb).
  rewrite <- Hinv. f_equal; lia.
Qed.
End KernelReads.

(** ** Degenerate factor sequences *)

Section SepDegenerate.
Context {P K R : Type}.
Variable zero : R.
Variable add : R -> R -> R.
Variable mul : K -> P -> R.
Variable kmul : K -> K -> K.
Variable kone : K.
Variable kdflt : K.
Variable size_bits : Z.
Implicit Types (sv : Sep.SeparableConvolutionView (P:=P) (K:=K)).

Lemma sep_slow_path_unfold sv (k2 : ImageView K) x y p :
  Sep.slow_path zero add mul size_bits (with_kernel sv k2) x y p
  = correlate_2d_at_point zero add mul
      (advance (origin (edge_extend (Sep.m_image sv) (Sep.m_edge sv)))
               (x - Sep.margin size_bits (Sep.m_i_kernel sv) (Sep.m_ci sv))
               (y - Sep.margin size_bits (Sep.m_j_kernel sv) (Sep.m_cj sv)) p)
      (origin (image_view k2)) (iv_cols k2) (iv_rows k2).
Proof. reflexivity. Qed.

Lemma kernel2d_extents (ik jk : list K) (k2 : ImageView K) :
  Sep.kernel2d_of kmul kone kdflt ik jk = Some k2 ->
  iv_cols k2 = Sep.extent ik /\ iv_rows k2 = Sep.extent jk.
Proof.
  intros Hk2.
  destruct (kernel2d_of_spec kmul kone kdflt ik jk) as (k2' & Hk2' & _ & Hc & Hr & _).
  assert (k2' = k2) as -> by congruence. done.
Qed.

(** Point evaluation with row factors only is the 1D filter along the
    rows, as soon as 1 is a right unit for the row factors. *)
Lemma sep_value_rows_on sv (k2 : ImageView K) x y p :
  Sep.m_i_kernel sv <> [] -> Sep.m_j_kernel sv = [] ->
  Sep.kernel2d_of kmul kone kdflt (Sep.m_i_kernel sv) (Sep.m_j_kernel sv) = Some k2 ->
  Forall (fun w => kmul w kone = w) (Sep.m_i_kernel sv) ->
  32 <= size_bits -> origin_fits (Sep.m_i_kernel sv) (Sep.m_ci sv) ->
  Sep.slow_path zero add mul size_bits (with_kernel sv k2) x y p
  = row_filtered zero add mul sv x y p.
Proof.
  intros Hi Hj Hk2 Hone Hw Hfit.
  destruct (kernel2d_extents _ _ _ Hk2) as [Hc Hr].
  rewrite sep_slow_path_unfold, Hc, Hr.
  rewrite (margin_nonempty size_bits _ _ Hw Hi Hfit).
  rewrite Hj, margin_empty. change (Sep.extent (K:=K) []) with 1.
  rewrite extent_nonempty by done. rewrite Z.sub_0_r.
  unfold row_filtered, correlate_2d_at_point, correlate_1d_at_point.
  change (Z.to_nat 1) with 1%nat. cbn [correlate_2d_rows].
  rewrite (correlate_2d_cols_1d add mul _ _ _ (rev (Sep.m_i_kernel sv))).
  - by destruct (correlate_1d_loop _ _ _ _ _ _).
  - intros a Ha. rewrite deref_advance_origin. simpl.
    assert (0 <= a < Sep.size (Sep.m_i_kernel sv)) as Ha'.
    { unfold Sep.size in *. lia. }
    destruct (kernel2d_read kmul kone kdflt _ _ k2 a 0 Hk2) as (wa & wb & Hwa & Hwb & ->).
    + by rewrite extent_nonempty.
    + rewrite Hj. change (Sep.extent (K:=K) []) with 1. lia.
    + rewrite Hj, weight_empty in Hwb. injection Hwb as <-.
      assert (kmul wa kone = wa) as ->.
      { rewrite extent_nonempty, weight_nonempty in Hwa by (done || lia).
        by apply (Forall_lookup_1 _ _ _ _ Hone Hwa). }
      rewrite <- Hwa. by apply weight_rev.
Qed.

Lemma sep_value_rows sv (k2 : ImageView K) x y p :
  Sep.m_i_kernel sv <> [] -> Sep.m_j_kernel sv = [] ->
  Sep.kernel2d_of kmul kone kdflt (Sep.m_i_kernel sv) (Sep.m_j_kernel sv) = Some k2 ->
  (forall k, kmul k kone = k) ->
  32 <= size_bits -> origin_fits (Sep.m_i_kernel sv) (Sep.m_ci sv) ->
  Sep.slow_path zero add mul size_bits (with_kernel sv k2) x y p
  = row_filtered zero add mul sv x y p.
Proof.
  intros Hi Hj Hk2 Hone Hw Hfit. apply sep_value_rows_on; try done.
  apply Forall_forall. intros w _. apply Hone.
Qed.

(** Point evaluation with column factors only is the 1D filter along the
    columns, as soon as 1 is a left unit for the column factors. *)
Lemma sep_value_columns_on sv (k2 : ImageView K) x y p :
  Sep.m_i_kernel sv = [] -> Sep.m_j_kernel sv <> [] ->
  Sep.kernel2d_of kmul kone kdflt (Sep.m_i_kernel sv) (Sep.m_j_kernel sv) = Some k2 ->
  Forall (fun w => kmul kone w = w) (Sep.m_j_kernel sv) ->
  32 <= size_bits -> origin_fits (Sep.m_j_kernel sv) (Sep.m_cj sv) ->
  Sep.slow_path zero add mul size_bits (with_kernel sv k2) x y p
  = column_filtered zero add mul sv x y p.
Proof.
  intros Hi Hj Hk2 Hone Hw Hfit.
  destruct (kernel2d_extents _ _ _ Hk2) as [Hc Hr].
  rewrite sep_slow_path_unfold, Hc, Hr.
  rewrite (margin_nonempty size_bits _ _ Hw Hj Hfit).
  rewrite Hi, margin_empty. change (Sep.extent (K:=K) []) with 1.
  rewrite extent_nonempty by done. rewrite Z.sub_0_r.
  unfold column_filtered, correlate_2d_at_point, correlate_1d_at_point.
  change (Z.to_nat 1) with 1%nat.
  apply correlate_2d_rows_1d.
  - intros b Hb. rewrite deref_advance_origin. simpl.
    assert (0 <= b < Sep.size (Sep.m_j_kernel sv)) as Hb'.
    { unfold Sep.size in *. lia. }
    destruct (kernel2d_read kmul kone kdflt _ _ k2 0 b Hk2) as (wa & wb & Hwa & Hwb & ->).
    + rewrite Hi. change (Sep.extent (K:=K) []) with 1. lia.
    + by rewrite extent_nonempty.
    + rewrite Hi, weight_empty in Hwa. injection Hwa as <-.
      assert (kmul kone wb = wb) as ->.
      { rewrite extent_nonempty, weight_nonempty in Hwb by (done || lia).
        by apply (Forall_lookup_1 _ _ _ _ Hone Hwb). }
      rewrite <- Hwb. by apply weight_rev.
  - intros b Hb. rewrite !advance_advance, !deref_advance_origin. simpl.
    f_equal; lia.
Qed.

Lemma sep_value_columns sv (k2 : ImageView K) x y p :
  Sep.m_i_kernel sv = [] -> Sep.m_j_kernel sv <> [] ->
  Sep.kernel2d_of kmul kone kdflt (Sep.m_i_kernel sv) (Sep.m_j_kernel sv) = Some k2 ->
  (forall k, kmul kone k = k) ->
  32 <= size_bits -> origin_fits (Sep.m_j_kernel sv) (Sep.m_cj sv) ->
  Sep.slow_path zero add mul size_bits (with_kernel sv k2) x y p
  = column_filtered zero add mul sv x y p.
Proof.
  intros Hi Hj Hk2 Hone Hw Hfit. apply sep_value_columns_on; try done.
  apply Forall_forall. intros w _. apply Hone.
Qed.

(** Point evaluation without factors is one tap of weight 1 * 1. *)
Lemma sep_value_neither sv (k2 : ImageView K) x y p :
  Sep.m_i_kernel sv = [] -> Sep.m_j_kernel sv = [] ->
  Sep.kernel2d_of kmul kone kdflt (Sep.m_i_kernel sv) (Sep.m_j_kernel sv) = Some k2 ->
  Sep.slow_path zero add mul size_bits (with_kernel sv k2) x y p
  = (fun a => add zero (mul (kmul kone kone) a))
      <$> extend (Sep.m_edge sv) (Sep.m_image sv) x y p.
Proof.
  intros Hi Hj Hk2.
  destruct (kernel2d_extents _ _ _ Hk2) as [Hc Hr].
  rewrite sep_slow_path_unfold, Hc, Hr.
  rewrite Hi, Hj, !margin_empty, !Z.sub_0_r. change (Sep.extent (K:=K) []) with 1.
  unfold correlate_2d_at_point. change (Z.to_nat 1) with 1%nat.
  cbn [correlate_2d_rows correlate_2d_cols].
  change (deref (origin (image_view k2))) with (iv_get k2 0 0 0).
  destruct (kernel2d_read kmul kone kdflt _ _ k2 0 0 Hk2) as (wa & wb & Hwa & Hwb & ->).
  { rewrite Hi. change (Sep.extent (K:=K) []) with 1. lia. }
  { rewrite Hj. change (Sep.extent (K:=K) []) with 1. lia. }
  rewrite Hi, weight_empty in Hwa. rewrite Hj, weight_empty in Hwb.
  injection Hwa as <-. injection Hwb as <-.
  rewrite deref_advance_origin. cbn [edge_extend pix].
  by destruct (extend _ _ x y p).
Qed.
End SepDegenerate.

Section SepDegenerateClaims.
Context {P K R : Type}.
Variable zero : R.
Variable add : R -> R -> R.
Variable mul : K -> P -> R.
Variable mulR : K -> R -> R.
Variable kmul : K -> K -> K.
Variable kone : K.
Variable promote : P -> R.
Variable pdflt : P.
Variable kdflt : K.
Variable rdflt : R.
Variable size_bits : Z.

(** C8. A separable view without row factors and without column factors
    evaluates without error and as the identity.  Rasterization over any
    rectangle is the rasterization of the edge-extended image, whose
    pixels it returns; point evaluation at a coordinate of the image
    returns the image's pixel (with exact arithmetic: 1 * 1 is 1 and
    0 + 1 * a is the pixel a in the view's pixel type). *)
Theorem empty_factors_pass_through (image : View P) (ci cj : Z) (E : EdgePolicy P) :
  extended_defined E image ->
  kmul kone kone = kone -> (forall a, add zero (mul kone a) = promote a) ->
  let sv := Sep.make_at image [] [] ci cj E in
  (forall (dest : ImageView R) bb,
     Sep.rasterize zero add mul mulR promote pdflt rdflt sv dest bb
     = rasterize_view promote (edge_extend image E) dest bb) /\
  (forall (dest : ImageView R) bb,
     iv_wf dest -> iv_cols dest = width bb -> iv_rows dest = height bb ->
     iv_planes dest = planes image ->
     exists dest',
       Sep.rasterize zero add mul mulR promote pdflt rdflt sv dest bb = Some dest' /\
       same_extents dest dest' /\
       forall x y p, iv_valid dest x y p ->
         is_Some (iv_get dest' x y p) /\
         iv_get dest' x y p = promote <$> extend E image (min_x bb + x) (min_y bb + y) p /\
         (0 <= min_x bb + x < cols image -> 0 <= min_y bb + y < rows image ->
          iv_get dest' x y p = promote <$> pix image (min_x bb + x) (min_y bb + y) p)) /\
  (forall x y p, 0 <= x < cols image -> 0 <= y < rows image -> 0 <= p < planes image ->
     exists a sv', pix image x y p = Some a /\
       Sep.call zero add mul kmul kone kdflt size_bits sv x y p = Some (promote a, sv')).
Proof.
  intros Hdef Hkk Hone sv. split_and!.
  - done.
  - intros dest bb Hwf Hc Hr Hp.
    destruct (sep_rasterize_neither zero add mul mulR promote pdflt rdflt sv dest bb)
      as (_ & dest' & Hrun & _ & Hext & Hget); try done.
    exists dest'. split_and!; try done.
    intros x y p Hv. destruct (Hget x y p Hv) as [HS Heq]. split_and!; try done.
    intros Hx Hy. rewrite Heq. simpl. by rewrite extend_inside.
  - intros x y p Hx Hy Hp.
    destruct (kernel2d_of_spec kmul kone kdflt [] []) as (k2 & Hk2 & _).
    assert (cache_ok kmul kone kdflt sv) as Hok by (by left).
    rewrite (sep_call_spec zero add mul kmul kone kdflt size_bits sv x y p k2 Hok Hk2).
    rewrite (sep_value_neither zero add mul kmul kone kdflt size_bits sv k2 x y p);
      try done.
    simpl. rewrite extend_inside by done.
    destruct (Hdef x y p Hp) as [a Ha]. rewrite extend_inside in Ha by done.
    exists a, (with_kernel sv k2). rewrite Ha. simpl. by rewrite Hkk, Hone.
Qed.

(** C9. A separable view with weights on one axis only returns the source
    filtered by those weights along that axis and unfiltered along the
    other, for point evaluation and for rasterization over any rectangle
    (with exact arithmetic: a weight times 1 is the weight). *)
Theorem single_axis_filters_that_axis (image : View P) (k : list K) (ci cj : Z)
    (E : EdgePolicy P) :
  k <> [] -> 32 <= size_bits -> extended_defined E image ->
  (forall w, kmul w kone = w) -> (forall w, kmul kone w = w) ->
  (origin_fits k ci ->
   let sv := Sep.make_at image k [] ci cj E in
   (forall x y p, 0 <= p < planes image ->
      is_Some (row_filtered zero add mul sv x y p) /\
      fst <$> Sep.call zero add mul kmul kone kdflt size_bits sv x y p
      = row_filtered zero add mul sv x y p) /\
   (forall (dest : ImageView R) bb,
      iv_wf dest -> iv_cols dest = width bb -> iv_rows dest = height bb ->
      iv_planes dest = planes image ->
      exists dest',
        Sep.rasterize zero add mul mulR promote pdflt rdflt sv dest bb = Some dest' /\
        same_extents dest dest' /\
        forall x y p, iv_valid dest x y p ->
          is_Some (iv_get dest' x y p) /\
          iv_get dest' x y p
          = row_filtered zero add mul sv (min_x bb + x) (min_y bb + y) p)) /\
  (origin_fits k cj ->
   let sv := Sep.make_at image [] k ci cj E in
   (forall x y p, 0 <= p < planes image ->
      is_Some (column_filtered zero add mul sv x y p) /\
      fst <$> Sep.call zero add mul kmul kone kdflt size_bits sv x y p
      = column_filtered zero add mul sv x y p) /\
   (forall (dest : ImageView R) bb,
      iv_wf dest -> iv_cols dest = width bb -> iv_rows dest = height bb ->
      iv_planes dest = planes image ->
      exists dest',
        Sep.rasterize zero add mul mulR promote pdflt rdflt sv dest bb = Some dest' /\
        same_extents dest dest' /\
        forall x y p, iv_valid dest x y p ->
          is_Some (iv_get dest' x y p) /\
          iv_get dest' x y p
          = column_filtered zero add mul sv (min_x bb + x) (min_y bb + y) p)).
Proof.
  intros Hk Hw Hdef Hr1 Hl1. split.
  - intros Hfit sv.
    destruct (kernel2d_of_spec kmul kone kdflt k []) as (k2 & Hk2 & Hwf2 & _ & _ & Hp2 & _).
    assert (cache_ok kmul kone kdflt sv) as Hok by (by left).
    assert (forall x y p,
              fst <$> Sep.call zero add mul kmul kone kdflt size_bits sv x y p
              = row_filtered zero add mul sv x y p) as Hcall.
    { intros x y p.
      rewrite (sep_call_spec zero add mul kmul kone kdflt size_bits sv x y p k2 Hok Hk2).
      rewrite (sep_value_rows zero add mul kmul kone kdflt size_bits sv k2 x y p);
        try done.
      by destruct (row_filtered zero add mul sv x y p). }
    split.
    + intros x y p Hp. split; [|done].
      rewrite <- (sep_value_rows zero add mul kmul kone kdflt size_bits sv k2 x y p);
        try done.
      apply sep_slow_path_Some; simpl; try done. lia.
    + intros dest bb Hwf Hc Hr Hp.
      destruct (sep_rasterize_rows zero add mul mulR promote pdflt rdflt sv dest bb)
        as (dest' & Hrun & _ & Hext & Hget); try done.
      by exists dest'.
  - intros Hfit sv.
    destruct (kernel2d_of_spec kmul kone kdflt [] k) as (k2 & Hk2 & Hwf2 & _ & _ & Hp2 & _).
    assert (cache_ok kmul kone kdflt sv) as Hok by (by left).
    assert (forall x y p,
              fst <$> Sep.call zero add mul kmul kone kdflt size_bits sv x y p
              = column_filtered zero add mul sv x y p) as Hcall.
    { intros x y p.
      rewrite (sep_call_spec zero add mul kmul kone kdflt size_bits sv x y p k2 Hok Hk2).
      rewrite (sep_value_columns zero add mul kmul kone kdflt size_bits sv k2 x y p);
        try done.
      by destruct (column_filtered zero add mul sv x y p). }
    split.
    + intros x y p Hp. split; [|done].
      rewrite <- (sep_value_columns zero add mul kmul kone kdflt size_bits sv k2 x y p);
        try done.
      apply sep_slow_path_Some; simpl; try done. lia.
    + intros dest bb Hwf Hc Hr Hp.
      destruct (sep_rasterize_columns zero add mul mulR promote pdflt rdflt sv dest bb)
        as (dest' & Hrun & _ & Hext & Hget); try done.
      by exists dest'.
Qed.
End SepDegenerateClaims.

(** ** Separable and full convolution *)

Lemma is_Some_default {A : Type} (d : A) (o : option A) :
  is_Some o -> o = Some (default d o).
Proof. by intros [a ->]. Qed.

Section SepFull.
Context {P K R : Type}.
Variable zero : R.
Variable add : R -> R -> R.
Variable mul : K -> P -> R.
Variable mulR : K -> R -> R.
Variable kmul : K -> K -> K.
Variable kone : K.
Variable promote : P -> R.
Variable pdflt : P.
Variable kdflt : K.
Variable rdflt : R.
Variable size_bits : Z.
Implicit Types (sv : Sep.SeparableConvolutionView (P:=P) (K:=K)).

Lemma reversed_weight_lookup (k : list K) a :
  0 <= a < Sep.size k -> rev k !! Z.to_nat a = Some (reversed_weight kdflt k a).
Proof.
  intros Ha. unfold reversed_weight. apply is_Some_default.
  apply lookup_lt_is_Some. rewrite length_rev. unfold Sep.size in Ha. lia.
Qed.

Lemma reversed_weight_forward (k : list K) a :
  0 <= a < Sep.size k ->
  k !! Z.to_nat (Sep.size k - 1 - a) = Some (reversed_weight kdflt k a).
Proof.
  intros Ha. rewrite <- reversed_weight_lookup by done.
  unfold Sep.size in *. rewrite rev_lookup by lia. f_equal. lia.
Qed.

(** The full view with the outer-product kernel computes [conv_value]. *)
Lemma full_call_value (image : View P) (E : EdgePolicy P) (ik jk : list K)
    (ci cj x y p : Z) :
  ik <> [] -> jk <> [] ->
  extended_defined E image -> 0 <= p < planes image ->
  Conv.call zero add mul (Conv.make_at image (outer_product kmul kone ik jk) ci cj E) x y p
  = Some (conv_value zero add mul kmul pdflt kdflt image E ik jk ci cj x y p).
Proof.
  intros Hi Hj Hdef Hp. rewrite call_slow_path. unfold Conv.slow_path, conv_value.
  unfold correlate_2d_at_point, Conv.margin_i, Conv.margin_j. simpl.
  rewrite !extent_nonempty by done.
  replace (Z.to_nat (Sep.size jk)) with (length jk) by (unfold Sep.size; lia).
  replace (Z.to_nat (Sep.size ik)) with (length ik) by (unfold Sep.size; lia).
  apply correlate_2d_rows_sum.
  - intros a b Ha Hb. rewrite advance_advance, deref_advance_origin. simpl.
    unfold tap. rewrite !Z.add_0_l, Z.add_0_r. apply is_Some_default. by apply Hdef.
  - intros a b Ha Hb. rewrite deref_advance_origin. simpl.
    rewrite !extent_nonempty by done.
    assert (0 <= a < Sep.size ik) as Ha' by (unfold Sep.size; lia).
    assert (0 <= b < Sep.size jk) as Hb' by (unfold Sep.size; lia).
    destruct (Z.leb_spec 0 (Sep.size ik - 1 - a)); [|lia].
    destruct (Z.leb_spec 0 (Sep.size jk - 1 - b)); [|lia]. simpl.
    rewrite Z.add_0_l. rewrite !weight_nonempty by (done || lia).
    by rewrite (reversed_weight_forward ik a), (reversed_weight_forward jk b).
Qed.
End SepFull.

Section SepTwoPass.
Context {P K R : Type}.
Variable zero : R.
Variable add : R -> R -> R.
Variable mul : K -> P -> R.
Variable mulR : K -> R -> R.
Variable kmul : K -> K -> K.
Variable kone : K.
Variable promote : P -> R.
Variable pdflt : P.
Variable kdflt : K.
Variable rdflt : R.
Variable size_bits : Z.
Implicit Types (sv : Sep.SeparableConvolutionView (P:=P) (K:=K)).

Lemma margin_origin_ok (k : list K) (c : Z) :
  32 <= size_bits -> origin_ok k c ->
  Sep.margin size_bits k c = Sep.extent k - 1 - c.
Proof.
  intros Hw Hok. destruct k as [|w k].
  - simpl in Hok. subst c. reflexivity.
  - rewrite margin_nonempty, extent_nonempty; done.
Qed.

(** Point evaluation of the separable view is point evaluation of the
    full view with the outer-product kernel. *)
Lemma sep_call_full sv x y p :
  cache_ok kmul kone kdflt sv -> 32 <= size_bits ->
  origin_ok (Sep.m_i_kernel sv) (Sep.m_ci sv) ->
  origin_ok (Sep.m_j_kernel sv) (Sep.m_cj sv) ->
  fst <$> Sep.call zero add mul kmul kone kdflt size_bits sv x y p
  = Conv.call zero add mul
      (Conv.make_at (Sep.m_image sv)
         (outer_product kmul kone (Sep.m_i_kernel sv) (Sep.m_j_kernel sv))
         (Sep.m_ci sv) (Sep.m_cj sv) (Sep.m_edge sv)) x y p.
Proof.
  intros Hok Hw Hfi Hfj.
  destruct (kernel2d_of_spec kmul kone kdflt (Sep.m_i_kernel sv) (Sep.m_j_kernel sv))
    as (k2 & Hk2 & _).
  destruct (kernel2d_extents _ _ _ _ _ _ Hk2) as [Hc Hr].
  rewrite (sep_call_spec zero add mul kmul kone kdflt size_bits sv x y p k2 Hok Hk2).
  rewrite sep_slow_path_unfold, Hc, Hr.
  rewrite !margin_origin_ok by done.
  rewrite call_slow_path. unfold Conv.slow_path, Conv.margin_i, Conv.margin_j. simpl.
  match goal with |- fst <$> (?c ≫= _) = ?d =>
    assert (c = d) as ->; [|by destruct d] end.
  apply correlate_2d_at_point_ext; [done|].
  intros a b Ha Hb. rewrite !deref_advance_origin. simpl.
  destruct (kernel2d_read kmul kone kdflt _ _ k2 a b Hk2) as (wa & wb & Hwa & Hwb & ->);
    try done.
  destruct (Z.leb_spec 0 (Sep.extent (Sep.m_i_kernel sv) - 1 - a)); [|lia].
  destruct (Z.leb_spec 0 (Sep.extent (Sep.m_j_kernel sv) - 1 - b)); [|lia]. simpl.
  by rewrite Hwa, Hwb.
Qed.

(** Both axes have weights and the image has one plane: the value that the
    row pass and the column pass leave in the destination, with no law of
    arithmetic. *)
Lemma sep_rasterize_two_pass sv (dest : ImageView R) bb :
  Sep.m_i_kernel sv <> [] -> Sep.m_j_kernel sv <> [] ->
  extended_defined (Sep.m_edge sv) (Sep.m_image sv) ->
  planes (Sep.m_image sv) = 1 ->
  iv_wf dest -> iv_cols dest = width bb -> iv_rows dest = height bb ->
  iv_planes dest = 1 ->
  exists dest', Sep.rasterize zero add mul mulR promote pdflt rdflt sv dest bb = Some dest' /\
    iv_wf dest' /\ same_extents dest dest' /\
    forall x y p, iv_valid dest x y p ->
      iv_get dest' x y p
      = Some (two_pass_value zero add mul mulR pdflt kdflt (Sep.m_image sv) (Sep.m_edge sv)
                (Sep.m_i_kernel sv) (Sep.m_j_kernel sv) (Sep.m_ci sv) (Sep.m_cj sv)
                (min_x bb + x) (min_y bb + y) p).
Proof.
  intros Hi Hj Hdef Hpl Hwf Hc Hr Hp.
  pose proof (size_pos _ Hi) as Hni. pose proof (size_pos _ Hj) as Hnj.
  destruct (dest_extents_nonneg Direct dest Hwf) as (Hc0 & Hr0 & Hp0). simpl in Hc0, Hr0.
  destruct (sep_src_buf pdflt sv bb) as (src & Hsrc & Hwfs & Hcs & Hrs & Hps & Hget);
    try done; try lia.
  unfold halo in Hcs, Hrs.
  destruct (Z.eqb_spec (Sep.size (Sep.m_i_kernel sv)) 0) as [E|Ei]; [lia|].
  destruct (Z.eqb_spec (Sep.size (Sep.m_j_kernel sv)) 0) as [E|Ej]; [lia|].
  unfold Sep.rasterize. rewrite Hsrc.
  destruct (Z.eqb_spec (Sep.size (Sep.m_i_kernel sv)) 0) as [E|_]; [lia|].
  destruct (Z.ltb_spec 0 (Sep.size (Sep.m_i_kernel sv))) as [_|L]; [|lia].
  destruct (Z.ltb_spec 0 (Sep.size (Sep.m_j_kernel sv))) as [_|L]; [|lia].
  cbn [andb mbind option_bind].
  rewrite child_bbox_height. unfold halo.
  destruct (Z.eqb_spec (Sep.size (Sep.m_j_kernel sv)) 0) as [E|_]; [lia|].
  destruct (new_image_Some rdflt (width bb) (height bb + (Sep.size (Sep.m_j_kernel sv) - 1)) 1)
    as [work Hwork]; try lia.
  destruct (new_image_wf _ _ _ _ _ Hwork) as (Hwfw & Hcw & Hrw & Hpw).
  rewrite Hwork. cbn [mbind option_bind].
  destruct (convolve_1d_spec zero add mul (image_view src) Direct work (Sep.m_i_kernel sv))
    as (work' & Hrun1 & Hwf1 & (Hc1 & Hr1 & Hp1) & Hin1 & _); simpl; try done; try lia.
  { intros x y p a Hx Hy Hpp Ha. apply Hget. unfold iv_valid. lia. }
  rewrite Hrun1. cbn [mbind option_bind].
  simpl in Hin1.
  destruct (convolve_1d_spec zero add mulR (transpose (image_view work')) Transposed dest
              (Sep.m_j_kernel sv))
    as (dest' & Hrun2 & Hwf2 & Hext2 & Hin2 & _); simpl; try done; try lia.
  { intros x y p a Hx Hy Hpp Ha. apply Hin1; lia. }
  simpl in Hin2.
  exists dest'. split_and!; try done.
  intros x y p (Hx & Hy & Hpp).
  destruct (Hin2 y x p) as [_ ->]; try lia.
  unfold correlate_1d_at_point, two_pass_value.
  replace (Z.to_nat (Sep.size (Sep.m_j_kernel sv))) with (length (Sep.m_j_kernel sv))
    by (unfold Sep.size; lia).
  apply correlate_1d_loop_sum.
  - intros t Ht. rewrite advance_advance, deref_advance_origin. simpl.
    rewrite !Z.add_0_r, Z.add_0_l.
    assert (0 <= t < Sep.size (Sep.m_j_kernel sv)) as Ht' by (unfold Sep.size; lia).
    destruct (Hin1 x (y + t) p) as [_ ->]; try lia.
    unfold correlate_1d_at_point.
    replace (Z.to_nat (Sep.size (Sep.m_i_kernel sv))) with (length (Sep.m_i_kernel sv))
      by (unfold Sep.size; lia).
    apply correlate_1d_loop_sum.
    + intros s Hs. rewrite advance_advance, deref_advance_origin. simpl.
      rewrite !Z.add_0_r, Z.add_0_l.
      assert (0 <= s < Sep.size (Sep.m_i_kernel sv)) as Hs' by (unfold Sep.size; lia).
      destruct (Hget (x + s) (y + t) p) as [HS Heq]; [unfold iv_valid; lia|].
      rewrite Heq in *. unfold tap.
      rewrite (is_Some_default pdflt _ HS). do 2 f_equal.
      unfold Sep.child_bbox. simpl.
      destruct (Z.eqb_spec (Sep.size (Sep.m_i_kernel sv)) 0) as [E|_]; [lia|].
      destruct (Z.eqb_spec (Sep.size (Sep.m_j_kernel sv)) 0) as [E|_]; [lia|].
      f_equal; lia.
    + intros s Hs. rewrite Z.add_0_l. apply reversed_weight_lookup.
      unfold Sep.size. lia.
  - intros t Ht. rewrite Z.add_0_l. apply reversed_weight_lookup.
    unfold Sep.size. lia.
Qed.

Hypothesis laws : exact_arithmetic zero add mul mulR kmul.

(** Both axes have weights and the image has one plane: the row pass into
    the intermediate buffer and the column pass from it compute the 2D
    sum. *)
Lemma sep_rasterize_both sv (dest : ImageView R) bb :
  Sep.m_i_kernel sv <> [] -> Sep.m_j_kernel sv <> [] ->
  extended_defined (Sep.m_edge sv) (Sep.m_image sv) ->
  planes (Sep.m_image sv) = 1 ->
  iv_wf dest -> iv_cols dest = width bb -> iv_rows dest = height bb ->
  iv_planes dest = 1 ->
  exists dest', Sep.rasterize zero add mul mulR promote pdflt rdflt sv dest bb = Some dest' /\
    iv_wf dest' /\ same_extents dest dest' /\
    forall x y p, iv_valid dest x y p ->
      iv_get dest' x y p
      = Some (conv_value zero add mul kmul pdflt kdflt (Sep.m_image sv) (Sep.m_edge sv)
                (Sep.m_i_kernel sv) (Sep.m_j_kernel sv) (Sep.m_ci sv) (Sep.m_cj sv)
                (min_x bb + x) (min_y bb + y) p).
Proof.
  intros Hi Hj Hdef Hpl Hwf Hc Hr Hp.
  destruct (sep_rasterize_two_pass sv dest bb) as (dest' & Hrun & Hwf' & Hext & Hget);
    try done.
  exists dest'. split_and!; try done.
  intros x y p Hv. rewrite (Hget x y p Hv). f_equal.
  unfold two_pass_value, conv_value. by apply two_passes_sum.
Qed.
End SepTwoPass.

(** Two buffers of the same extents that agree on every pixel are equal. *)
Lemma buffer_ext {A : Type} (b1 b2 : ImageView A) :
  iv_wf b1 -> iv_wf b2 -> same_extents b1 b2 ->
  (forall x y p, iv_valid b1 x y p -> iv_get b1 x y p = iv_get b2 x y p) ->
  b1 = b2.
Proof.
  destruct b1 as [c r pl d1], b2 as [c2 r2 pl2 d2].
  unfold iv_wf, same_extents, iv_valid, iv_get, iv_index. simpl.
  intros (Hc & Hr & Hp & Hl1) (_ & _ & _ & Hl2) (-> & -> & ->) Hget.
  f_equal. apply list_eq. intros i.
  destruct (decide (i < length d1)%nat) as [Hi|Hi].
  - assert (0 < c * r * pl) as Hpos by lia.
    assert (0 < c) as Hc' by nia. assert (0 < r) as Hr' by nia.
    set (z := Z.of_nat i).
    assert (0 <= z < c * r * pl) as Hz by (unfold z; lia).
    assert (z mod c + c * ((z / c) mod r) + c * r * (z / (c * r)) = z) as Hidx.
    { rewrite <- Z.div_div by lia.
      pose proof (Z.div_mod z c ltac:(lia)).
      pose proof (Z.div_mod (z / c) r ltac:(lia)). nia. }
    specialize (Hget (z mod c) ((z / c) mod r) (z / (c * r))).
    rewrite Hidx in Hget.
    destruct (Z.leb_spec 0 z); [|lia].
    unfold z in Hget. rewrite Nat2Z.id in Hget. apply Hget.
    split_and!.
    + apply Z.mod_pos_bound. lia.
    + apply Z.mod_pos_bound. lia.
    + apply Z.mod_pos_bound. lia.
    + apply Z.mod_pos_bound. lia.
    + apply Z.div_pos; lia.
    + apply Z.div_lt_upper_bound; [nia|]. fold z. nia.
  - rewrite !lookup_ge_None_2; [done| |]; lia.
Qed.

Lemma outer_product_defined {K : Type} (kmul : K -> K -> K) (kone : K)
    (ik jk : list K) :
  kernel_defined (outer_product kmul kone ik jk).
Proof.
  intros i j Hi Hj. simpl in *.
  destruct (Z.leb_spec 0 i); [|lia]. destruct (Z.leb_spec 0 j); [|lia]. simpl.
  destruct (weight_Some kone ik i) as [a ->]; [done|].
  destruct (weight_Some kone jk j) as [b ->]; [done|].
  by eexists.
Qed.

Section SepRasterCall.
Context {P K R : Type}.
Variable zero : R.
Variable add : R -> R -> R.
Variable mul : K -> P -> R.
Variable mulR : K -> R -> R.
Variable kmul : K -> K -> K.
Variable kone : K.
Variable promote : P -> R.
Variable pdflt : P.
Variable kdflt : K.
Variable rdflt : R.
Variable size_bits : Z.
Implicit Types (sv : Sep.SeparableConvolutionView (P:=P) (K:=K)).

Lemma origin_ok_nonempty (k : list K) (c : Z) :
  k <> [] -> origin_ok k c -> origin_fits k c.
Proof. by destruct k. Qed.

(** Rasterization of the separable view returns the values of its point
    evaluation.  What it asks of the arithmetic depends on the axes that
    have weights: with none, that 0 + (1 * 1) * a is the pixel a in the
    view's pixel type; with one, that 1 is a unit for the weights of that
    axis; with both, exact arithmetic, and an image of one plane. *)
Lemma sep_rasterize_call sv (dest : ImageView R) bb :
  cache_ok kmul kone kdflt sv -> 32 <= size_bits ->
  origin_ok (Sep.m_i_kernel sv) (Sep.m_ci sv) ->
  origin_ok (Sep.m_j_kernel sv) (Sep.m_cj sv) ->
  extended_defined (Sep.m_edge sv) (Sep.m_image sv) ->
  (Sep.m_i_kernel sv = [] -> Sep.m_j_kernel sv = [] ->
   forall a, add zero (mul (kmul kone kone) a) = promote a) ->
  (Sep.m_i_kernel sv = [] -> Forall (fun w => kmul kone w = w) (Sep.m_j_kernel sv)) ->
  (Sep.m_j_kernel sv = [] -> Forall (fun w => kmul w kone = w) (Sep.m_i_kernel sv)) ->
  (Sep.m_i_kernel sv <> [] -> Sep.m_j_kernel sv <> [] ->
   exact_arithmetic zero add mul mulR kmul /\ planes (Sep.m_image sv) = 1) ->
  iv_wf dest -> iv_cols dest = width bb -> iv_rows dest = height bb ->
  iv_planes dest = planes (Sep.m_image sv) ->
  exists dest', Sep.rasterize zero add mul mulR promote pdflt rdflt sv dest bb = Some dest' /\
    iv_wf dest' /\ same_extents dest dest' /\
    forall x y p, iv_valid dest x y p ->
      is_Some (iv_get dest' x y p) /\
      iv_get dest' x y p
      = fst <$> Sep.call zero add mul kmul kone kdflt size_bits sv
                  (min_x bb + x) (min_y bb + y) p.
Proof.
  intros Hok Hw Hoi Hoj Hdef Hnone Hcols Hrows Hboth Hwf Hc Hr Hp.
  destruct (kernel2d_of_spec kmul kone kdflt (Sep.m_i_kernel sv) (Sep.m_j_kernel sv))
    as (k2 & Hk2 & _).
  assert (forall x y p,
            fst <$> Sep.call zero add mul kmul kone kdflt size_bits sv x y p
            = Sep.slow_path zero add mul size_bits (with_kernel sv k2) x y p) as Hcall.
  { intros x y p.
    rewrite (sep_call_spec zero add mul kmul kone kdflt size_bits sv x y p k2 Hok Hk2).
    by destruct (Sep.slow_path _ _ _ _ _ _ _ _). }
  destruct (decide (Sep.m_i_kernel sv = [])) as [Ei|Ei];
    destruct (decide (Sep.m_j_kernel sv = [])) as [Ej|Ej].
  - (* neither axis *)
    destruct (sep_rasterize_neither zero add mul mulR promote pdflt rdflt sv dest bb)
      as (_ & dest' & Hrun & Hwf' & Hext & Hget); try done.
    exists dest'. split_and!; try done.
    intros x y p Hv. destruct (Hget x y p Hv) as [HS Heq]. split; [done|].
    rewrite Heq, Hcall.
    rewrite (sep_value_neither zero add mul kmul kone kdflt size_bits sv k2) by done.
    destruct (extend _ _ _ _ _); simpl; [|done]. by rewrite Hnone.
  - (* the column axis only *)
    destruct (sep_rasterize_columns zero add mul mulR promote pdflt rdflt sv dest bb)
      as (dest' & Hrun & Hwf' & Hext & Hget); try done.
    exists dest'. split_and!; try done.
    intros x y p Hv. destruct (Hget x y p Hv) as [HS Heq]. split; [done|].
    rewrite Heq, Hcall. symmetry.
    apply (sep_value_columns_on zero add mul kmul kone kdflt size_bits sv k2); try done.
    + by apply Hcols.
    + by apply origin_ok_nonempty.
  - (* the row axis only *)
    destruct (sep_rasterize_rows zero add mul mulR promote pdflt rdflt sv dest bb)
      as (dest' & Hrun & Hwf' & Hext & Hget); try done.
    exists dest'. split_and!; try done.
    intros x y p Hv. destruct (Hget x y p Hv) as [HS Heq]. split; [done|].
    rewrite Heq, Hcall. symmetry.
    apply (sep_value_rows_on zero add mul kmul kone kdflt size_bits sv k2); try done.
    + by apply Hrows.
    + by apply origin_ok_nonempty.
  - (* both axes *)
    destruct (Hboth Ei Ej) as [Hlaws Hone].
    destruct (sep_rasterize_both zero add mul mulR kmul promote pdflt kdflt rdflt Hlaws
                sv dest bb) as (dest' & Hrun & Hwf' & Hext & Hget); try done.
    { congruence. }
    exists dest'. split_and!; try done.
    intros x y p Hv. rewrite (Hget x y p Hv). split; [by eexists|].
    rewrite (sep_call_full zero add mul kmul kone kdflt size_bits sv) by done.
    symmetry.
    apply (full_call_value zero add mul kmul kone pdflt kdflt); try done.
    destruct Hv as (_ & _ & Hpp). lia.
Qed.
End SepRasterCall.

Section SepFullClaim.
Context {P K R : Type}.
Variable zero : R.
Variable add : R -> R -> R.
Variable mul : K -> P -> R.
Variable mulR : K -> R -> R.
Variable kmul : K -> K -> K.
Variable kone : K.
Variable promote : P -> R.
Variable pdflt : P.
Variable kdflt : K.
Variable rdflt : R.
Variable size_bits : Z.

(** C3, amended.  For an origin that is 0 on every axis without weights
    (and whose margins are [int32] values), the separable view and the
    full view with the outer-product kernel, in which an empty sequence
    counts as the weight 1, return the same value at every coordinate by
    point evaluation, whatever the image and the edge policy.
    Rasterization over any rectangle returns the same buffer for both,
    whose pixels are the values of point evaluation, under what the axes
    with weights ask of the arithmetic: with weights on one axis only,
    for any number of planes, that 1 is a unit for the weights of that
    axis; with no weight at all, that 0 + (1 * 1) * a is the pixel a in the
    view's pixel type; with weights on both axes, that pixel arithmetic is
    exact, for an image of one plane. *)
Theorem separable_matches_full (image : View P) (ik jk : list K) (ci cj : Z)
    (E : EdgePolicy P) :
  32 <= size_bits -> origin_ok ik ci -> origin_ok jk cj ->
  let sv := Sep.make_at image ik jk ci cj E in
  let cv := Conv.make_at image (outer_product kmul kone ik jk) ci cj E in
  (forall x y p,
     fst <$> Sep.call zero add mul kmul kone kdflt size_bits sv x y p
     = Conv.call zero add mul cv x y p) /\
  (extended_defined E image ->
   (ik = [] -> jk = [] -> forall a, add zero (mul (kmul kone kone) a) = promote a) ->
   (ik = [] -> Forall (fun w => kmul kone w = w) jk) ->
   (jk = [] -> Forall (fun w => kmul w kone = w) ik) ->
   (ik <> [] -> jk <> [] ->
    exact_arithmetic zero add mul mulR kmul /\ planes image = 1) ->
   forall (dest : ImageView R) bb,
     iv_wf dest -> iv_cols dest = width bb -> iv_rows dest = height bb ->
     iv_planes dest = planes image ->
     exists raster,
       Sep.rasterize zero add mul mulR promote pdflt rdflt sv dest bb = Some raster /\
       Conv.rasterize zero add mul pdflt cv dest bb = Some raster /\
       same_extents dest raster /\
       forall x y p, iv_valid dest x y p ->
         is_Some (iv_get raster x y p) /\
         iv_get raster x y p = Conv.call zero add mul cv (min_x bb + x) (min_y bb + y) p).
Proof.
  intros Hw Hoi Hoj sv cv.
  assert (cache_ok kmul kone kdflt sv) as Hok by (by left).
  assert (forall x y p,
            fst <$> Sep.call zero add mul kmul kone kdflt size_bits sv x y p
            = Conv.call zero add mul cv x y p) as Hpoint.
  { intros x y p.
    by apply (sep_call_full zero add mul kmul kone kdflt size_bits sv x y p). }
  split; [done|].
  intros Hdef Hnone Hcols Hrows Hboth dest bb Hwf Hc Hr Hp.
  destruct (sep_rasterize_call zero add mul mulR kmul kone promote pdflt kdflt rdflt
              size_bits sv dest bb) as (sd & Hsd & Hwfs & Hexts & Hgets); try done.
  destruct (rasterize_call zero add mul pdflt cv dest bb)
    as (fd & Hfd & Hwff & Hextf & Hgetf); simpl; try done.
  { apply outer_product_defined. }
  { unfold Conv.src_bbox. rewrite width_bbox. simpl.
    pose proof (extent_pos ik). destruct Hwf as (? & _). lia. }
  { unfold Conv.src_bbox. rewrite height_bbox. simpl.
    pose proof (extent_pos jk). destruct Hwf as (? & ? & _). lia. }
  assert (sd = fd) as ->.
  { apply buffer_ext; try done.
    - destruct Hexts as (? & ? & ?), Hextf as (? & ? & ?).
      unfold same_extents. split_and!; congruence.
    - intros x y p Hv.
      assert (iv_valid dest x y p) as Hv'.
      { destruct Hexts as (Hc1 & Hr1 & Hp1). unfold iv_valid in *.
        by rewrite Hc1, Hr1, Hp1 in Hv. }
      destruct (Hgets x y p Hv') as [_ ->]. destruct (Hgetf x y p Hv') as [_ ->].
      apply Hpoint. }
  exists fd. split_and!; try done.
Qed.
End SepFullClaim.

(** ** The statements on integer pixels *)

Lemma Z_exact_arithmetic : exact_arithmetic 0 Z.add Z.mul Z.mul Z.mul.
Proof. unfold exact_arithmetic. split_and!; intros; lia. Qed.

Lemma ones_extended_defined c r p :
  0 <= c -> 0 <= r -> 0 <= p ->
  extended_defined (ZeroEdgeExtension 0) (image_view (ones c r p)).
Proof. intros. apply zero_extended_defined. by apply ones_wf. Qed.

Lemma separable_matches_full_witness :
  let image := image_view (ones 5 5 1) in
  let sv := Sep.make_at image [1; 2; 3] [1; 1; 1] 1 1 (ZeroEdgeExtension 0) in
  let cv := Conv.make_at image (outer_product Z.mul 1 [1; 2; 3] [1; 1; 1]) 1 1
              (ZeroEdgeExtension 0) in
  let fimage := image_view (mkImage 1 1 2 [tenth; three_tenths]) in
  let fE := ZeroEdgeExtension 0%float in
  let fsv := Sep.make_at fimage [three_tenths] [] 0 0 fE in
  let fcv := Conv.make_at fimage (outer_product PrimFloat.mul 1%float [three_tenths] [])
               0 0 fE in
  let fdest := mkImage 1 1 2 [0%float; 0%float] in
  (32 <= 64 /\ origin_ok [1; 2; 3] 1 /\ origin_ok [1; 1; 1] 1 /\
   origin_ok [three_tenths] 0 /\ origin_ok (K:=float) [] 0) /\
  (forall x y p,
     fst <$> Sep.call 0 Z.add Z.mul Z.mul 1 0 64 sv x y p
     = Conv.call 0 Z.add Z.mul cv x y p) /\
  (exists raster,
     Sep.rasterize 0 Z.add Z.mul Z.mul id 0 0 sv (ones 5 5 1) (bbox 0 0 5 5) = Some raster /\
     Conv.rasterize 0 Z.add Z.mul 0 cv (ones 5 5 1) (bbox 0 0 5 5) = Some raster) /\
  (exists raster,
     Sep.rasterize 0%float PrimFloat.add PrimFloat.mul PrimFloat.mul id 0%float 0%float
       fsv fdest (bbox 0 0 1 1) = Some raster /\
     Conv.rasterize 0%float PrimFloat.add PrimFloat.mul 0%float fcv fdest (bbox 0 0 1 1)
     = Some raster /\
     raster = mkImage 1 1 2 [PrimFloat.add 0 (PrimFloat.mul three_tenths tenth);
                             PrimFloat.add 0 (PrimFloat.mul three_tenths three_tenths)]).
Proof.
  intros image sv cv fimage fE fsv fcv fdest.
  assert (32 <= 64 /\ origin_ok [1; 2; 3] 1 /\ origin_ok [1; 1; 1] 1 /\
          origin_ok [three_tenths] 0 /\ origin_ok (K:=float) [] 0) as Hyps.
  { unfold origin_ok, origin_fits. vm_compute. intuition congruence. }
  split; [exact Hyps|].
  destruct Hyps as (H1 & H2 & H3 & H4 & H5).
  destruct (separable_matches_full 0 Z.add Z.mul Z.mul Z.mul 1 id 0 0 0 64
              image [1; 2; 3] [1; 1; 1] 1 1 (ZeroEdgeExtension 0) H1 H2 H3)
    as [Hpoint Hraster].
  split; [exact Hpoint|]. split.
  - destruct Hraster with (dest := ones 5 5 1) (bb := bbox 0 0 5 5)
      as (raster & Hs & Hf & _).
    + apply ones_extended_defined; lia.
    + intros H. discriminate H.
    + intros H. discriminate H.
    + intros H. discriminate H.
    + intros _ _. split; [exact Z_exact_arithmetic|reflexivity].
    + apply ones_wf; lia.
    + reflexivity.
    + reflexivity.
    + reflexivity.
    + exists raster. split; [exact Hs|exact Hf].
  - destruct (separable_matches_full 0%float PrimFloat.add PrimFloat.mul PrimFloat.mul
                PrimFloat.mul 1%float id 0%float 0%float 0%float 64
                fimage [three_tenths] [] 0 0 fE H1 H4 H5) as [_ Hfraster].
    destruct Hfraster with (dest := fdest) (bb := bbox 0 0 1 1)
      as (raster & Hs & Hf & _).
    + apply zero_extended_defined. unfold iv_wf. simpl. lia.
    + intros H. discriminate H.
    + intros H. discriminate H.
    + intros _. repeat constructor.
    + intros _ H. by destruct H.
    + unfold iv_wf. simpl. lia.
    + reflexivity.
    + reflexivity.
    + reflexivity.
    + exists raster. split; [exact Hs|]. split; [exact Hf|].
      vm_compute in Hs. injection Hs as <-. vm_compute. reflexivity.
Defined.

(** C3, as stated, fails on an empty factor sequence: the separable view
    ignores the origin on an axis without weights, the full view does
    not.  On the image [1 2] with no row factor, the column factor 1 and
    the origin (1,0), the separable view returns 1 at (0,0); the full view
    returns 2 when the empty sequence counts as the single weight 1 in the
    outer product, and 0 when the outer product is the grid without
    columns. *)
Lemma separable_differs_on_empty_axis :
  let image := image_view (mkImage 2 1 1 [1; 2]) in
  let E := ZeroEdgeExtension 0 in
  let sv := Sep.make_at image [] [1] 1 0 E in
  fst <$> Sep.call 0 Z.add Z.mul Z.mul 1 0 64 sv 0 0 0 = Some 1 /\
  Conv.call 0 Z.add Z.mul (Conv.make_at image (outer_product Z.mul 1 [] [1]) 1 0 E) 0 0 0
  = Some 2 /\
  Conv.call 0 Z.add Z.mul (Conv.make_at image (no_columns [1]) 1 0 E) 0 0 0 = Some 0 /\
  fst <$> Sep.call 0 Z.add Z.mul Z.mul 1 0 64 sv 0 0 0
  <> Conv.call 0 Z.add Z.mul (Conv.make_at image (outer_product Z.mul 1 [] [1]) 1 0 E) 0 0 0 /\
  fst <$> Sep.call 0 Z.add Z.mul Z.mul 1 0 64 sv 0 0 0
  <> Conv.call 0 Z.add Z.mul (Conv.make_at image (no_columns [1]) 1 0 E) 0 0 0.
Proof.
  intros image E sv. split_and!; try (vm_compute; reflexivity); vm_compute; discriminate.
Qed.

(** The two-pass rasterization on an image of two planes: the intermediate
    buffer is allocated with one plane, and the row pass, which runs over
    the planes of the source, writes past its end.  The full view
    rasterizes both planes, and so does point evaluation of the separable
    view. *)
Lemma two_pass_on_two_planes :
  let image := image_view (mkImage 1 1 2 [5; 7]) in
  let E := ZeroEdgeExtension 0 in
  let sv := Sep.make_at image [1] [1] 0 0 E in
  let cv := Conv.make_at image (outer_product Z.mul 1 [1] [1]) 0 0 E in
  Sep.rasterize 0 Z.add Z.mul Z.mul id 0 0 sv (ones 1 1 2) (bbox 0 0 1 1) = None /\
  Sep.prerasterize 0 Z.add Z.mul Z.mul id 0 0 sv (bbox 0 0 1 1) = None /\
  Conv.rasterize 0 Z.add Z.mul 0 cv (ones 1 1 2) (bbox 0 0 1 1)
  = Some (mkImage 1 1 2 [5; 7]) /\
  fst <$> Sep.call 0 Z.add Z.mul Z.mul 1 0 64 sv 0 0 1 = Some 7.
Proof. intros image E sv cv. split_and!; vm_compute; reflexivity. Qed.

(** The two passes on binary64 pixels and weights: on the one-pixel image
    [0.1] with the row factor 0.1 and the column factor 0.3 (their nearest
    binary64 values), rasterization by the separable view computes
    0.3 * (0.1 * 0.1) and rasterization by the full view computes
    (0.1 * 0.3) * 0.1, which round differently. *)
Lemma two_passes_round_differently :
  let image := image_view (mkImage 1 1 1 [tenth]) in
  let E := ZeroEdgeExtension 0%float in
  let sv := Sep.make_at image [tenth] [three_tenths] 0 0 E in
  let cv := Conv.make_at image (outer_product PrimFloat.mul 1%float [tenth] [three_tenths])
              0 0 E in
  let dest := mkImage 1 1 1 [0%float] in
  Sep.rasterize 0%float PrimFloat.add PrimFloat.mul PrimFloat.mul id 0%float 0%float
    sv dest (bbox 0 0 1 1)
  = Some (mkImage 1 1 1 [PrimFloat.mul three_tenths (PrimFloat.mul tenth tenth)]) /\
  Conv.rasterize 0%float PrimFloat.add PrimFloat.mul 0%float cv dest (bbox 0 0 1 1)
  = Some (mkImage 1 1 1 [PrimFloat.mul (PrimFloat.mul tenth three_tenths) tenth]) /\
  Sep.rasterize 0%float PrimFloat.add PrimFloat.mul PrimFloat.mul id 0%float 0%float
    sv dest (bbox 0 0 1 1)
  <> Conv.rasterize 0%float PrimFloat.add PrimFloat.mul 0%float cv dest (bbox 0 0 1 1).
Proof.
  intros image E sv cv dest. split_and!.
  - vm_compute. reflexivity.
  - vm_compute. reflexivity.
  - vm_compute. discriminate.
Qed.

Lemma empty_factors_pass_through_witness :
  let image := image_view (ones 5 5 1) in
  let E := ZeroEdgeExtension 0 in
  let sv := Sep.make_at image [] [] 3 4 E in
  (extended_defined E image /\ 1 * 1 = 1 /\ (forall a, 0 + 1 * a = id a)) /\
  Sep.rasterize 0 Z.add Z.mul Z.mul id 0 0 sv (ones 2 2 1) (bbox 4 4 2 2)
  = rasterize_view id (edge_extend image E) (ones 2 2 1) (bbox 4 4 2 2) /\
  Sep.rasterize 0 Z.add Z.mul Z.mul id 0 0 sv (ones 2 2 1) (bbox 4 4 2 2)
  = Some (mkImage 2 2 1 [1; 0; 0; 0]) /\
  exists a sv', pix image 2 2 0 = Some a /\
    Sep.call 0 Z.add Z.mul Z.mul 1 0 64 sv 2 2 0 = Some (id a, sv').
Proof.
  intros image E sv.
  assert (extended_defined E image /\ 1 * 1 = 1 /\ (forall a, 0 + 1 * a = id a)) as Hyps.
  { split; [apply ones_extended_defined; lia|]. split; [reflexivity|].
    intros a. unfold id. lia. }
  split; [exact Hyps|]. destruct Hyps as (H1 & H2 & H3).
  destruct (empty_factors_pass_through 0 Z.add Z.mul Z.mul Z.mul 1 id 0 0 0 64
              image 3 4 E H1 H2 H3) as (Hdelegate & _ & Hpoint).
  split; [apply Hdelegate|]. split; [vm_compute; reflexivity|].
  apply Hpoint; vm_compute; intuition congruence.
Defined.

Lemma single_axis_filters_that_axis_witness :
  let image := image_view (ones 5 5 1) in
  let E := ZeroEdgeExtension 0 in
  ([1; 2; 3] <> [] /\ 32 <= 64 /\ extended_defined E image /\
   (forall w, w * 1 = w) /\ (forall w, 1 * w = w) /\ origin_fits [1; 2; 3] 1) /\
  (forall x y p,
     0 <= p < planes image ->
     fst <$> Sep.call 0 Z.add Z.mul Z.mul 1 0 64 (Sep.make_at image [1; 2; 3] [] 1 0 E) x y p
     = row_filtered 0 Z.add Z.mul (Sep.make_at image [1; 2; 3] [] 1 0 E) x y p) /\
  (forall x y p,
     0 <= p < planes image ->
     fst <$> Sep.call 0 Z.add Z.mul Z.mul 1 0 64 (Sep.make_at image [] [1; 2; 3] 0 1 E) x y p
     = column_filtered 0 Z.add Z.mul (Sep.make_at image [] [1; 2; 3] 0 1 E) x y p) /\
  Sep.rasterize 0 Z.add Z.mul Z.mul id 0 0 (Sep.make_at image [] [1; 2; 3] 0 1 E)
    (ones 2 2 1) (bbox 0 0 2 2)
  = Some (mkImage 2 2 1 [3; 3; 6; 6]).
Proof.
  intros image E.
  assert ([1; 2; 3] <> [] /\ 32 <= 64 /\ extended_defined E image /\
          (forall w, w * 1 = w) /\ (forall w, 1 * w = w) /\ origin_fits [1; 2; 3] 1)
    as Hyps.
  { split; [discriminate|]. split; [lia|].
    split; [apply ones_extended_defined; lia|].
    split; [intros; lia|]. split; [intros; lia|]. unfold origin_fits. vm_compute.
    intuition congruence. }
  split; [exact Hyps|]. destruct Hyps as (H1 & H2 & H3 & H4 & H5 & H6).
  destruct (single_axis_filters_that_axis 0 Z.add Z.mul Z.mul Z.mul 1 id 0 0 0 64
              image [1; 2; 3] 1 0 E H1 H2 H3 H4 H5) as [Hrow _].
  destruct (single_axis_filters_that_axis 0 Z.add Z.mul Z.mul Z.mul 1 id 0 0 0 64
              image [1; 2; 3] 0 1 E H1 H2 H3 H4 H5) as [_ Hcol].
  split; [intros x y p Hp; apply (Hrow H6); exact Hp|].
  split; [intros x y p Hp; apply (Hcol H6); exact Hp|].
  vm_compute; reflexivity.
Defined.

(** * Further properties of the code *)

(** ** The correlation primitives *)

Section PrimitiveFootprint.
Context {Src K R : Type}.
Variable zero : R.
Variable add : R -> R -> R.
Variable times : K -> Src -> R.

Lemma correlate_1d_loop_reads (n : nat) : forall (s : PixelAccessor Src) (k : list K) r,
  is_Some (correlate_1d_loop add times n s k r) ->
  (n <= length k)%nat /\
  forall a, 0 <= a < Z.of_nat n -> is_Some (deref (advance s a 0 0)).
Proof.
  induction n as [|n IH]; intros s k r H.
  - split; [lia|]. intros a Ha. lia.
  - simpl in H. destruct k as [|kv k]; simpl in H.
    { by destruct H. }
    destruct (deref s) as [sv|] eqn:Hs; simpl in H; [|by destruct H].
    destruct (IH _ _ _ H) as [Hlen Hrd]. split; [simpl; lia|].
    intros a Ha. destruct (decide (a = 0)) as [->|Hne].
    + rewrite advance_0, Hs. by eexists.
    + replace a with (1 + (a - 1)) by lia. rewrite <- advance_next_col.
      apply Hrd. lia.
Qed.

(** X1. [correlate_1d_at_point] with n taps returns a value exactly when
    the kernel iterator has n weights and the n pixels from the source
    accessor on, along its row, can be read; its value depends on these
    weights and pixels only; and with no tap it is the default-constructed
    result, whatever the source. *)
Theorem correlate_1d_reads_n_taps (src : PixelAccessor Src) (kernel : list K) (n : Z) :
  0 <= n ->
  (is_Some (correlate_1d_at_point zero add times src kernel n) <->
   n <= Z.of_nat (length kernel) /\
   forall a, 0 <= a < n -> is_Some (deref (advance src a 0 0))) /\
  (forall (src' : PixelAccessor Src) (kernel' : list K),
     (forall a, 0 <= a < n -> deref (advance src a 0 0) = deref (advance src' a 0 0)) ->
     (forall a, 0 <= a < n -> kernel !! Z.to_nat a = kernel' !! Z.to_nat a) ->
     correlate_1d_at_point zero add times src kernel n
     = correlate_1d_at_point zero add times src' kernel' n) /\
  (n = 0 -> correlate_1d_at_point zero add times src kernel n = Some zero).
Proof.
  intros Hn. unfold correlate_1d_at_point. split_and!.
  - split.
    + intros H. destruct (correlate_1d_loop_reads _ _ _ _ H) as [Hlen Hrd].
      split; [lia|]. intros a Ha. apply Hrd. lia.
    + intros [Hlen Hrd]. apply correlate_1d_loop_Some; [|lia].
      intros a Ha. apply Hrd. lia.
  - intros src' kernel' Hs Hk. apply correlate_1d_loop_ext.
    + intros a Ha. apply Hs. lia.
    + intros a Ha. specialize (Hk (Z.of_nat a)). rewrite Nat2Z.id in Hk. apply Hk. lia.
  - by intros ->.
Qed.
End PrimitiveFootprint.

Lemma correlate_1d_reads_n_taps_witness :
  0 <= 2 /\
  (is_Some (correlate_1d_at_point 0 Z.add Z.mul (origin (image_view (ones 2 1 1))) [3; 4] 2) <->
   2 <= Z.of_nat (length [3; 4]) /\
   forall a, 0 <= a < 2 ->
     is_Some (deref (advance (origin (image_view (ones 2 1 1))) a 0 0))).
Proof.
  split; [lia|].
  apply (correlate_1d_reads_n_taps 0 Z.add Z.mul (origin (image_view (ones 2 1 1))) [3; 4] 2).
  lia.
Defined.

Section SingleRowKernel.
Context {P K R : Type}.
Variable zero : R.
Variable add : R -> R -> R.
Variable mul : K -> P -> R.

(** X2. A 2D correlation with a kernel of one row is the 1D correlation
    with the weights of that row; with a kernel of one column it is the 1D
    correlation with the weights of that column along the column of the
    source, that is along the row of the transposed source. *)
Theorem correlate_2d_one_row_or_column (v : View P) (kernel : View K) (l : list K)
    (n x y p : Z) :
  0 <= n ->
  ((forall a, 0 <= a < n -> pix kernel a 0 0 = l !! Z.to_nat a) ->
   correlate_2d_at_point zero add mul (advance (origin v) x y p) (origin kernel) n 1
   = correlate_1d_at_point zero add mul (advance (origin v) x y p) l n) /\
  ((forall b, 0 <= b < n -> pix kernel 0 b 0 = l !! Z.to_nat b) ->
   correlate_2d_at_point zero add mul (advance (origin v) x y p) (origin kernel) 1 n
   = correlate_1d_at_point zero add mul (advance (origin (transpose v)) y x p) l n).
Proof.
  intros _. unfold correlate_2d_at_point, correlate_1d_at_point. split.
  - intros Hk. change (Z.to_nat 1) with 1%nat. cbn [correlate_2d_rows].
    rewrite (correlate_2d_cols_1d add mul _ _ _ l).
    + by destruct (correlate_1d_loop _ _ _ _ _ _).
    + intros a Ha. rewrite deref_advance_origin. apply Hk. lia.
  - intros Hk. change (Z.to_nat 1) with 1%nat.
    apply correlate_2d_rows_1d.
    + intros b Hb. rewrite deref_advance_origin. apply Hk. lia.
    + intros b Hb. rewrite !advance_advance, !deref_advance_origin. simpl.
      f_equal; lia.
Qed.
End SingleRowKernel.

Lemma correlate_2d_one_row_or_column_witness :
  let v := image_view (mkImage 2 2 1 [1; 2; 3; 4]) in
  let kernel := image_view (mkImage 2 1 1 [5; 6]) in
  (0 <= 2 /\ forall a, 0 <= a < 2 -> pix kernel a 0 0 = [5; 6] !! Z.to_nat a) /\
  correlate_2d_at_point 0 Z.add Z.mul (advance (origin v) 0 1 0) (origin kernel) 2 1
  = correlate_1d_at_point 0 Z.add Z.mul (advance (origin v) 0 1 0) [5; 6] 2 /\
  correlate_1d_at_point 0 Z.add Z.mul (advance (origin v) 0 1 0) [5; 6] 2 = Some 39.
Proof.
  intros v kernel.
  assert (forall a, 0 <= a < 2 -> pix kernel a 0 0 = [5; 6] !! Z.to_nat a) as Hk.
  { intros a Ha. assert (a = 0 \/ a = 1) as [-> | ->] by lia; reflexivity. }
  split; [split; [lia|exact Hk]|]. split; [|reflexivity].
  exact (proj1 (correlate_2d_one_row_or_column 0 Z.add Z.mul v kernel [5; 6] 2 0 1 0
                  ltac:(lia)) Hk).
Defined.

(** ** Point evaluation of the standard view *)

Section ConvPoint.
Context {P K R : Type}.
Variable zero : R.
Variable add : R -> R -> R.
Variable mul : K -> P -> R.
Variable pdflt : P.
Variable kdflt : K.
Implicit Types (cv : Conv.ConvolutionView (P:=P) (K:=K)).

(** X3. The origin of the kernel only translates the output: the view
    constructed with the origin (ci,cj) has at (x,y,p) the value that the
    view constructed with the origin (0,0) has at (x+ci, y+cj, p). *)
Theorem origin_translates_output (image : View P) (kernel : View K)
    (E : EdgePolicy P) (ci cj x y p : Z) :
  Conv.call zero add mul (Conv.make_at image kernel ci cj E) x y p
  = Conv.call zero add mul (Conv.make_at image kernel 0 0 E) (x + ci) (y + cj) p.
Proof.
  rewrite !call_slow_path. unfold Conv.slow_path, Conv.margin_i, Conv.margin_j. simpl.
  do 2 f_equal; lia.
Qed.

Lemma correlate_2d_rows_no_column (j : nat) : forall (s : PixelAccessor P)
    (k : PixelAccessor K) (r : R),
  correlate_2d_rows add mul j 0 s k r = Some r.
Proof. induction j as [|j IH]; intros s k r; simpl; [done|apply IH]. Qed.

(** X4. A kernel without columns, or without rows, makes the view the
    zero image: [operator()] returns the default-constructed result at
    every coordinate and reads no pixel, whatever the image and the edge
    policy. *)
Theorem kernel_without_weights_gives_zero (image : View P) (kernel : View K)
    (E : EdgePolicy P) (ci cj x y p : Z) :
  (cols kernel = 0 /\ 0 <= rows kernel) \/ rows kernel = 0 ->
  Conv.call zero add mul (Conv.make_at image kernel ci cj E) x y p = Some zero.
Proof.
  intros H. rewrite call_slow_path. unfold Conv.slow_path, correlate_2d_at_point. simpl.
  destruct H as [[-> _] | ->].
  - apply correlate_2d_rows_no_column.
  - reflexivity.
Qed.

(** X5. The value at (x,y,p) is determined by the pixels of the
    edge-extended image under the kernel: two images, under two edge
    policies, that agree at (x+ci-a, y+cj-b, p) for every weight (a,b) of
    the kernel give the same value at (x,y,p). *)
Theorem value_depends_on_footprint (image image' : View P) (E E' : EdgePolicy P)
    (kernel : View K) (ci cj x y p : Z) :
  (forall a b, 0 <= a < cols kernel -> 0 <= b < rows kernel ->
     extend E image (x + ci - a) (y + cj - b) p
     = extend E' image' (x + ci - a) (y + cj - b) p) ->
  Conv.call zero add mul (Conv.make_at image kernel ci cj E) x y p
  = Conv.call zero add mul (Conv.make_at image' kernel ci cj E') x y p.
Proof.
  intros H. rewrite !call_slow_path. unfold Conv.slow_path, Conv.margin_i, Conv.margin_j.
  simpl. apply correlate_2d_at_point_ext; [|done].
  intros a b Ha Hb. rewrite !advance_advance, !deref_advance_origin. simpl.
  specialize (H (cols kernel - 1 - a) (rows kernel - 1 - b) ltac:(lia) ltac:(lia)).
  match goal with |- extend E image ?u ?v ?w = _ =>
    replace u with (x + ci - (cols kernel - 1 - a)) by lia;
    replace v with (y + cj - (rows kernel - 1 - b)) by lia;
    replace w with p by lia end.
  exact H.
Qed.

(** X6. On a buffer, the unchecked path of [operator()] stays inside the
    image: at a coordinate that passes the interior test, every pixel
    under the kernel is a pixel of the buffer, and the fast path returns a
    value as soon as the kernel's weights can be read and the plane
    exists. *)
Theorem fast_path_reads_inside_buffer (b : ImageView P) (kernel : View K)
    (E : EdgePolicy P) (ci cj x y p : Z) :
  iv_wf b -> kernel_defined kernel -> 0 <= p < iv_planes b ->
  Conv.interior (Conv.make_at (image_view b) kernel ci cj E) x y = true ->
  (forall s t, 0 <= s < cols kernel -> 0 <= t < rows kernel ->
     iv_valid b (x - (cols kernel - 1 - ci) + s) (y - (rows kernel - 1 - cj) + t) p) /\
  is_Some (Conv.fast_path zero add mul (Conv.make_at (image_view b) kernel ci cj E) x y p).
Proof.
  intros Hwf Hk Hp Hint.
  apply interior_bounds in Hint. unfold Conv.margin_i, Conv.margin_j in Hint.
  simpl in Hint.
  assert (forall s t, 0 <= s < cols kernel -> 0 <= t < rows kernel ->
     iv_valid b (x - (cols kernel - 1 - ci) + s) (y - (rows kernel - 1 - cj) + t) p) as Hin.
  { intros s t Hs Ht. unfold iv_valid. lia. }
  split; [exact Hin|].
  unfold Conv.fast_path, Conv.margin_i, Conv.margin_j. simpl.
  apply correlate_2d_at_point_Some.
  - intros s t Hs Ht. rewrite advance_advance, deref_advance_origin. simpl.
    apply iv_get_valid; [done|].
    match goal with |- iv_valid b ?u ?v ?w =>
      replace u with (x - (cols kernel - 1 - ci) + s) by lia;
      replace v with (y - (rows kernel - 1 - cj) + t) by lia;
      replace w with p by lia end.
    by apply Hin.
  - intros s t Hs Ht.
    apply (rotated_deref (Conv.mkRotate180 kernel) s t); done.
Qed.

(** X7. [operator()] computes the convolution sum: when the weights of
    the kernel and the pixels of the edge-extended image can be read, its
    value at (x,y,p) is the sum of the products of the weight (a,b) and of
    the pixel at (x+ci-a, y+cj-b), over the weights of the kernel. *)
Theorem call_is_convolution_sum (image : View P) (kernel : View K) (E : EdgePolicy P)
    (ci cj x y p : Z) :
  kernel_defined kernel -> extended_defined E image -> 0 <= p < planes image ->
  Conv.call zero add mul (Conv.make_at image kernel ci cj E) x y p
  = Some (convolution_sum zero add mul pdflt kdflt image E kernel ci cj x y p).
Proof.
  intros Hk Hdef Hp. rewrite call_slow_path.
  unfold Conv.slow_path, convolution_sum, correlate_2d_at_point, Conv.margin_i, Conv.margin_j.
  simpl. apply correlate_2d_rows_sum.
  - intros a b Ha Hb. rewrite advance_advance, deref_advance_origin. simpl.
    match goal with |- extend E image ?u ?v ?w = _ =>
      replace u with (x + ci - (cols kernel - 1 - a)) by lia;
      replace v with (y + cj - (rows kernel - 1 - (0 + b))) by lia;
      replace w with p by lia end.
    apply is_Some_default. by apply Hdef.
  - intros a b Ha Hb. rewrite deref_advance_origin. simpl. rewrite Z.add_0_l.
    apply is_Some_default. apply Hk; lia.
Qed.
End ConvPoint.

Section InteriorTest.
Context {P K : Type}.

(** X8. The interior test of [operator()] is exact: for a kernel with at
    least one column and one row, a coordinate passes the test if and only
    if every pixel under the kernel is a pixel of the image. *)
Theorem interior_test_is_exact (image : View P) (kernel : View K) (E : EdgePolicy P)
    (ci cj x y : Z) :
  1 <= cols kernel -> 1 <= rows kernel ->
  Conv.interior (Conv.make_at image kernel ci cj E) x y = true <->
  forall s t, 0 <= s < cols kernel -> 0 <= t < rows kernel ->
    0 <= x - (cols kernel - 1 - ci) + s < cols image /\
    0 <= y - (rows kernel - 1 - cj) + t < rows image.
Proof.
  intros Hc Hr. unfold Conv.interior, Conv.margin_i, Conv.margin_j. simpl.
  rewrite !andb_true_iff, !Z.leb_le. split.
  - intros (((H1 & H2) & H3) & H4) s t Hs Ht. lia.
  - intros H.
    pose proof (H 0 0 ltac:(lia) ltac:(lia)) as H00.
    pose proof (H (cols kernel - 1) (rows kernel - 1) ltac:(lia) ltac:(lia)) as H11.
    lia.
Qed.
End InteriorTest.

Lemma kernel_without_weights_gives_zero_witness :
  let kernel := no_columns [1; 1; 1] in
  ((cols kernel = 0 /\ 0 <= rows kernel) \/ rows kernel = 0) /\
  Conv.call 0 Z.add Z.mul
    (Conv.make_at (image_view (ones 5 5 1)) kernel 0 1 NoEdgeExtension) 0 0 0
  = Some 0.
Proof.
  intros kernel.
  assert ((cols kernel = 0 /\ 0 <= rows kernel) \/ rows kernel = 0) as H.
  { left. split; [reflexivity|]. vm_compute. discriminate. }
  split; [exact H|].
  exact (kernel_without_weights_gives_zero 0 Z.add Z.mul (image_view (ones 5 5 1)) kernel
           NoEdgeExtension 0 1 0 0 0 H).
Defined.

Lemma value_depends_on_footprint_witness :
  let image := image_view (mkImage 3 1 1 [1; 2; 3]) in
  let image' := image_view (mkImage 3 1 1 [1; 2; 9]) in
  let kernel := image_view (mkImage 2 1 1 [1; 1]) in
  let E := ZeroEdgeExtension 0 in
  (forall a b, 0 <= a < cols kernel -> 0 <= b < rows kernel ->
     extend E image (1 + 0 - a) (0 + 0 - b) 0 = extend E image' (1 + 0 - a) (0 + 0 - b) 0) /\
  Conv.call 0 Z.add Z.mul (Conv.make_at image kernel 0 0 E) 1 0 0
  = Conv.call 0 Z.add Z.mul (Conv.make_at image' kernel 0 0 E) 1 0 0 /\
  Conv.call 0 Z.add Z.mul (Conv.make_at image kernel 0 0 E) 1 0 0 = Some 3.
Proof.
  intros image image' kernel E.
  assert (forall a b, 0 <= a < cols kernel -> 0 <= b < rows kernel ->
     extend E image (1 + 0 - a) (0 + 0 - b) 0 = extend E image' (1 + 0 - a) (0 + 0 - b) 0)
    as H.
  { intros a b Ha Hb. simpl in Ha, Hb. assert (b = 0) as -> by lia.
    assert (a = 0 \/ a = 1) as [-> | ->] by lia; reflexivity. }
  split; [exact H|]. split; [|reflexivity].
  exact (value_depends_on_footprint 0 Z.add Z.mul image image' E E kernel 0 0 1 0 0 H).
Defined.

Lemma interior_test_is_exact_witness :
  let image := image_view (ones 5 5 1) in
  let kernel := image_view (ones 3 3 1) in
  (1 <= cols kernel /\ 1 <= rows kernel) /\
  (Conv.interior (Conv.make_at image kernel 1 1 (ZeroEdgeExtension 0)) 0 2 = true <->
   forall s t, 0 <= s < cols kernel -> 0 <= t < rows kernel ->
     0 <= 0 - (cols kernel - 1 - 1) + s < cols image /\
     0 <= 2 - (rows kernel - 1 - 1) + t < rows image) /\
  Conv.interior (Conv.make_at image kernel 1 1 (ZeroEdgeExtension 0)) 0 2 = false.
Proof.
  intros image kernel.
  assert (1 <= cols kernel /\ 1 <= rows kernel) as Hyps by (simpl; lia).
  split; [exact Hyps|]. destruct Hyps as [H1 H2].
  split; [|reflexivity].
  exact (interior_test_is_exact image kernel (ZeroEdgeExtension 0) 1 1 0 2 H1 H2).
Defined.

Lemma fast_path_reads_inside_buffer_witness :
  let b := ones 5 5 1 in
  let kernel := image_view (ones 3 3 1) in
  let cv := Conv.make_at (image_view b) kernel 1 1 (ZeroEdgeExtension 0) in
  (iv_wf b /\ kernel_defined kernel /\ 0 <= 0 < iv_planes b /\
   Conv.interior cv 1 3 = true) /\
  (forall s t, 0 <= s < 3 -> 0 <= t < 3 -> iv_valid b (1 - 1 + s) (3 - 1 + t) 0) /\
  is_Some (Conv.fast_path 0 Z.add Z.mul cv 1 3 0).
Proof.
  intros b kernel cv.
  assert (iv_wf b /\ kernel_defined kernel /\ 0 <= 0 < iv_planes b /\
          Conv.interior cv 1 3 = true) as Hyps.
  { split; [apply ones_wf; lia|].
    split; [apply buffer_kernel_defined; [apply ones_wf; lia|simpl; lia]|].
    split; [simpl; lia|reflexivity]. }
  split; [exact Hyps|]. destruct Hyps as (H1 & H2 & H3 & H4).
  exact (fast_path_reads_inside_buffer 0 Z.add Z.mul b kernel (ZeroEdgeExtension 0)
           1 1 1 3 0 H1 H2 H3 H4).
Defined.

Lemma call_is_convolution_sum_witness :
  let image := image_view (mkImage 3 1 1 [1; 2; 3]) in
  let kernel := image_view (mkImage 2 1 1 [10; 100]) in
  let E := ZeroEdgeExtension 0 in
  (kernel_defined kernel /\ extended_defined E image /\ 0 <= 0 < planes image) /\
  Conv.call 0 Z.add Z.mul (Conv.make_at image kernel 0 0 E) 1 0 0
  = Some (convolution_sum 0 Z.add Z.mul 0 0 image E kernel 0 0 1 0 0) /\
  convolution_sum 0 Z.add Z.mul 0 0 image E kernel 0 0 1 0 0 = 100 * 1 + 10 * 2.
Proof.
  intros image kernel E.
  assert (kernel_defined kernel /\ extended_defined E image /\ 0 <= 0 < planes image)
    as Hyps.
  { split; [apply buffer_kernel_defined; [|simpl; lia]|].
    - unfold iv_wf. simpl. lia.
    - split; [|simpl; lia]. apply zero_extended_defined. unfold iv_wf. simpl. lia. }
  split; [exact Hyps|]. destruct Hyps as (H1 & H2 & H3).
  split; [|reflexivity].
  exact (call_is_convolution_sum 0 Z.add Z.mul 0 0 image kernel E 0 0 1 0 0 H1 H2 H3).
Defined.

(** ** Rasterization of the standard view *)

Section ConvRaster.
Context {P K R : Type}.
Variable zero : R.
Variable add : R -> R -> R.
Variable mul : K -> P -> R.
Variable pdflt : P.
Implicit Types (cv : Conv.ConvolutionView (P:=P) (K:=K)).

Lemma no_edge_fast_slow cv x y p :
  Conv.m_edge cv = NoEdgeExtension ->
  Conv.fast_path zero add mul cv x y p = Conv.slow_path zero add mul cv x y p.
Proof.
  intros HE. unfold Conv.fast_path, Conv.slow_path. rewrite HE.
  by apply correlate_2d_at_point_ext.
Qed.

(** X9. [prerasterize( bbox )] returns a view of the same extents, over
    the same kernel with the same origin, whose value at every coordinate
    of the rectangle, in every plane of the image, is the value of the
    original view; on that view the unchecked path alone gives this
    value. *)
Theorem prerasterized_view_agrees_on_bbox cv (bb : BBox2i) :
  extended_defined (Conv.m_edge cv) (Conv.m_image cv) ->
  0 <= planes (Conv.m_image cv) ->
  0 <= width (Conv.src_bbox cv bb) -> 0 <= height (Conv.src_bbox cv bb) ->
  exists pre, Conv.prerasterize pdflt cv bb = Some pre /\
    Conv.view_cols pre = Conv.view_cols cv /\
    Conv.view_rows pre = Conv.view_rows cv /\
    Conv.view_planes pre = Conv.view_planes cv /\
    Conv.m_kernel pre = Conv.m_kernel cv /\
    Conv.m_ci pre = Conv.m_ci cv /\ Conv.m_cj pre = Conv.m_cj cv /\
    forall x y p, min_x bb <= x < max_x bb -> min_y bb <= y < max_y bb ->
                  0 <= p < planes (Conv.m_image cv) ->
      Conv.call zero add mul pre x y p = Conv.call zero add mul cv x y p /\
      Conv.fast_path zero add mul pre x y p = Conv.call zero add mul cv x y p.
Proof.
  intros Hdef Hp Hw Hh.
  destruct (prerasterize_spec zero add mul pdflt cv bb Hdef Hp Hw Hh)
    as (pre & Hpre & Hpl & Hcall).
  exists pre. split; [done|].
  assert (Conv.m_edge pre = NoEdgeExtension /\ Conv.view_cols pre = Conv.view_cols cv /\
          Conv.view_rows pre = Conv.view_rows cv /\ Conv.m_kernel pre = Conv.m_kernel cv /\
          Conv.m_ci pre = Conv.m_ci cv /\ Conv.m_cj pre = Conv.m_cj cv)
    as (HE & Hc & Hr & Hk & Hci & Hcj).
  { unfold Conv.prerasterize in Hpre.
    destruct (materialize id pdflt _) as [src|]; simpl in Hpre; [|done].
    injection Hpre as <-. split_and!; try done. simpl. by destruct (Conv.m_kernel cv). }
  split_and!; try done.
  intros x y p Hx Hy Hpp.
  rewrite (call_slow_path zero add mul cv).
  split; [by apply Hcall|].
  rewrite no_edge_fast_slow by done. rewrite <- call_slow_path. by apply Hcall.
Qed.

(** X10. [rasterize( dest, bbox )] assigns every pixel of the
    destination: two destinations of the extents of the rectangle come out
    equal, whatever they held before. *)
Theorem rasterize_overwrites_destination cv (dest1 dest2 : ImageView R) (bb : BBox2i) :
  kernel_defined (Conv.child (Conv.m_kernel cv)) ->
  extended_defined (Conv.m_edge cv) (Conv.m_image cv) ->
  rasterizable cv dest1 bb -> rasterizable cv dest2 bb ->
  is_Some (Conv.rasterize zero add mul pdflt cv dest1 bb) /\
  Conv.rasterize zero add mul pdflt cv dest1 bb
  = Conv.rasterize zero add mul pdflt cv dest2 bb.
Proof.
  intros Hk Hdef (Hwf1 & Hc1 & Hr1 & Hp1 & Hw & Hh) (Hwf2 & Hc2 & Hr2 & Hp2 & _ & _).
  destruct (rasterize_call zero add mul pdflt cv dest1 bb)
    as (r1 & Hrun1 & Hwfr1 & (Hec1 & Her1 & Hep1) & Hget1); try done.
  destruct (rasterize_call zero add mul pdflt cv dest2 bb)
    as (r2 & Hrun2 & Hwfr2 & (Hec2 & Her2 & Hep2) & Hget2); try done.
  rewrite Hrun1, Hrun2. split; [by eexists|]. f_equal.
  apply buffer_ext; try done.
  - unfold same_extents. split_and!; congruence.
  - intros x y p (Hx & Hy & Hpp).
    destruct (Hget1 x y p) as [_ ->]; [unfold iv_valid; lia|].
    destruct (Hget2 x y p) as [_ ->]; [unfold iv_valid; lia|]. done.
Qed.
End ConvRaster.

Lemma prerasterized_view_agrees_on_bbox_witness :
  (extended_defined (Conv.m_edge scenario) (Conv.m_image scenario) /\
   0 <= planes (Conv.m_image scenario) /\
   0 <= width (Conv.src_bbox scenario (bbox 0 0 5 5)) /\
   0 <= height (Conv.src_bbox scenario (bbox 0 0 5 5))) /\
  exists pre, Conv.prerasterize 0 scenario (bbox 0 0 5 5) = Some pre /\
    Conv.call 0 Z.add Z.mul pre 0 0 0 = Conv.call 0 Z.add Z.mul scenario 0 0 0 /\
    Conv.fast_path 0 Z.add Z.mul pre 0 0 0 = Some 4.
Proof.
  assert (extended_defined (Conv.m_edge scenario) (Conv.m_image scenario) /\
          0 <= planes (Conv.m_image scenario) /\
          0 <= width (Conv.src_bbox scenario (bbox 0 0 5 5)) /\
          0 <= height (Conv.src_bbox scenario (bbox 0 0 5 5))) as Hyps.
  { split; [exact scenario_extended_defined|]. vm_compute. intuition congruence. }
  split; [exact Hyps|]. destruct Hyps as (H1 & H2 & H3 & H4).
  destruct (prerasterized_view_agrees_on_bbox 0 Z.add Z.mul 0 scenario (bbox 0 0 5 5)
              H1 H2 H3 H4) as (pre & Hpre & _ & _ & _ & _ & _ & _ & Hval).
  exists pre. split; [exact Hpre|].
  destruct (Hval 0 0 0) as [Hc Hf]; [simpl; lia|simpl; lia|simpl; lia|].
  split; [exact Hc|]. rewrite Hf. reflexivity.
Defined.

Lemma rasterize_overwrites_destination_witness :
  (kernel_defined (Conv.child (Conv.m_kernel scenario)) /\
   extended_defined (Conv.m_edge scenario) (Conv.m_image scenario) /\
   rasterizable scenario (ones 2 2 1) (bbox 0 0 2 2) /\
   rasterizable scenario (mkImage 2 2 1 [7; 7; 7; 7]) (bbox 0 0 2 2)) /\
  is_Some (Conv.rasterize 0 Z.add Z.mul 0 scenario (ones 2 2 1) (bbox 0 0 2 2)) /\
  Conv.rasterize 0 Z.add Z.mul 0 scenario (ones 2 2 1) (bbox 0 0 2 2)
  = Conv.rasterize 0 Z.add Z.mul 0 scenario (mkImage 2 2 1 [7; 7; 7; 7]) (bbox 0 0 2 2).
Proof.
  assert (kernel_defined (Conv.child (Conv.m_kernel scenario)) /\
          extended_defined (Conv.m_edge scenario) (Conv.m_image scenario) /\
          rasterizable scenario (ones 2 2 1) (bbox 0 0 2 2) /\
          rasterizable scenario (mkImage 2 2 1 [7; 7; 7; 7]) (bbox 0 0 2 2)) as Hyps.
  { split; [exact scenario_kernel_defined|]. split; [exact scenario_extended_defined|].
    split; unfold rasterizable; vm_compute; intuition congruence. }
  split; [exact Hyps|]. destruct Hyps as (H1 & H2 & H3 & H4).
  exact (rasterize_overwrites_destination 0 Z.add Z.mul 0 scenario _ _ _ H1 H2 H3 H4).
Defined.

(** ** The loop nest and the planes of its destination *)

Section Shape.
Context {A B : Type}.
Variable value : PixelAccessor A -> option B.
Variable sh : DestShape.

Lemma same_shape_refl (b : ImageView B) : same_shape b b.
Proof. by split; [apply same_extents_refl|]. Qed.

Lemma same_shape_trans (b1 b2 b3 : ImageView B) :
  same_shape b1 b2 -> same_shape b2 b3 -> same_shape b1 b3.
Proof.
  intros [H1 L1] [H2 L2]. split; [by eapply same_extents_trans|congruence].
Qed.

Lemma dest_put_shape (b : ImageView B) (x y p : Z) (v : B) (b' : ImageView B) :
  dest_put sh b x y p v = Some b' -> same_shape b b'.
Proof.
  assert (forall x y, iv_put b x y p v = Some b' -> same_shape b b') as Hput.
  { clear x y. intros x y. unfold iv_put.
    destruct (_ && _); [|done]. intros [= <-]. split; [done|].
    simpl. by rewrite length_insert. }
  destruct sh; simpl; apply Hput.
Qed.

Lemma fill_cols_shape (n : nat) : forall s dx dy dp dest dest',
  fill_cols value sh n s dx dy dp dest = Some dest' -> same_shape dest dest'.
Proof.
  induction n as [|n IH]; intros s dx dy dp dest dest'; simpl.
  - intros [= <-]. apply same_shape_refl.
  - destruct (value s) as [v|]; simpl; [|done].
    destruct (dest_put sh dest dx dy dp v) as [d1|] eqn:Hput; simpl; [|done].
    intros H. eapply same_shape_trans; [by eapply dest_put_shape|by eapply IH].
Qed.

Lemma fill_rows_shape (n nc : nat) : forall s dx dy dp dest dest',
  fill_rows value sh n nc s dx dy dp dest = Some dest' -> same_shape dest dest'.
Proof.
  induction n as [|n IH]; intros s dx dy dp dest dest'; simpl.
  - intros [= <-]. apply same_shape_refl.
  - destruct (fill_cols value sh nc s dx dy dp dest) as [d1|] eqn:Hc; simpl; [|done].
    intros H. eapply same_shape_trans; [by eapply fill_cols_shape|by eapply IH].
Qed.

Lemma fill_planes_shape (n nr nc : nat) : forall s dx dy dp dest dest',
  fill_planes value sh n nr nc s dx dy dp dest = Some dest' -> same_shape dest dest'.
Proof.
  induction n as [|n IH]; intros s dx dy dp dest dest'; simpl.
  - intros [= <-]. apply same_shape_refl.
  - destruct (fill_rows value sh nr nc s dx dy dp dest) as [d1|] eqn:Hc; simpl; [|done].
    intros H. eapply same_shape_trans; [by eapply fill_rows_shape|by eapply IH].
Qed.

(** The first pixel of a plane that starts at the end of the storage
    cannot be written. *)
Lemma dest_put_past_end (dest : ImageView B) (dp : Z) (v : B) :
  Z.of_nat (length (iv_data dest)) <= iv_cols dest * iv_rows dest * dp ->
  dest_put sh dest 0 0 dp v = None.
Proof.
  intros H.
  assert (iv_put dest 0 0 dp v = None) as Hput.
  { unfold iv_put, iv_index.
    destruct (Z.ltb_spec (0 + iv_cols dest * 0 + iv_cols dest * iv_rows dest * dp)
                         (Z.of_nat (length (iv_data dest)))); [lia|].
    by rewrite andb_false_r. }
  by destruct sh.
Qed.

(** The loop nest run over more planes than the destination has. *)
Lemma fill_planes_overrun (n : nat) (nr nc : nat) : forall s dp dest,
  iv_wf dest -> (0 < nr)%nat -> (0 < nc)%nat ->
  0 <= dp <= iv_planes dest -> iv_planes dest < dp + Z.of_nat n ->
  fill_planes value sh n nr nc s 0 0 dp dest = None.
Proof.
  induction n as [|n IH]; intros s dp dest Hwf Hnr Hnc Hdp Hn; [lia|].
  destruct Hwf as (Hc & Hr & Hp & Hlen).
  cbn [fill_planes].
  destruct (fill_rows value sh nr nc s 0 0 dp dest) as [d1|] eqn:Hrows; [|done].
  cbn [mbind option_bind].
  destruct (decide (dp = iv_planes dest)) as [->|Hne].
  - exfalso. destruct nr as [|nr]; [lia|]. destruct nc as [|nc]; [lia|].
    cbn [fill_rows fill_cols] in Hrows.
    destruct (value s) as [v|]; [|done]. cbn [mbind option_bind] in Hrows.
    rewrite dest_put_past_end in Hrows by lia. done.
  - destruct (fill_rows_shape _ _ _ _ _ _ _ _ Hrows) as [(Hc1 & Hr1 & Hp1) Hl1].
    apply IH; try done; try lia.
    unfold iv_wf. rewrite Hc1, Hr1, Hp1, Hl1. done.
Qed.
End Shape.

Lemma materialize_shape {A B : Type} (convert : A -> B) (dflt : B) (v : View A)
    (b : ImageView B) :
  materialize convert dflt v = Some b ->
  iv_wf b /\ iv_cols b = cols v /\ iv_rows b = rows v /\ iv_planes b = planes v.
Proof.
  unfold materialize.
  destruct (new_image dflt (cols v) (rows v) (planes v)) as [buf|] eqn:Hnew; [|done].
  destruct (new_image_wf _ _ _ _ _ Hnew) as ((Hc0 & Hr0 & Hp0 & Hlen) & Hc & Hr & Hp).
  cbn [mbind option_bind]. unfold rasterize_view.
  destruct (_ && _); [|done]. intros Hfill.
  destruct (fill_planes_shape _ _ _ _ _ _ _ _ _ _ _ Hfill) as [(Hc1 & Hr1 & Hp1) Hl1].
  unfold iv_wf. rewrite Hc1, Hr1, Hp1, Hl1. split_and!; try done; congruence.
Qed.

Section Overrun.
Context {P K R : Type}.
Variable zero : R.
Variable add : R -> R -> R.
Variable mul : K -> P -> R.
Variable mulR : K -> R -> R.
Variable promote : P -> R.
Variable pdflt : P.
Variable rdflt : R.
Implicit Types (sv : Sep.SeparableConvolutionView (P:=P) (K:=K)).

(** [convolve_1d] runs over the planes of the source: on a destination
    with fewer planes, and at least one pixel in a plane, it writes past
    the destination. *)
Lemma convolve_1d_overrun {Src : Type} (times : K -> Src -> R) (src : View Src)
    (sh : DestShape) (dest : ImageView R) (kernel : list K) :
  iv_wf dest -> iv_planes dest < planes src ->
  1 <= dest_cols sh dest -> 1 <= dest_rows sh dest ->
  Sep.convolve_1d zero add times src sh dest kernel = None.
Proof.
  intros Hwf Hp Hc Hr. unfold Sep.convolve_1d.
  destruct Hwf as (Hc0 & Hr0 & Hp0 & Hlen).
  apply fill_planes_overrun; try done; lia.
Qed.
End Overrun.

(** ** The passes of the separable view *)

Section RowPassValue.
Context {Src K R : Type}.
Variable zero : R.
Variable add : R -> R -> R.
Variable times : K -> Src -> R.
Variable sdflt : Src.
Variable kdflt : K.

(** X11. [convolve_1d] on a destination with at least the planes of the
    source, every source pixel under the kernel being readable: every
    pixel (x,y,p) of the destination in a plane of the source receives the
    sum of the products of the weights, read from the last to the first,
    and of the source pixels (x,y,p), (x+1,y,p), ...; the pixels of the
    other planes of the destination are left as they were. *)
Theorem convolve_1d_writes_reversed_sums (src : View Src) (sh : DestShape)
    (dest : ImageView R) (kernel : list K) :
  iv_wf dest -> 0 <= planes src <= iv_planes dest ->
  (forall x y p a, 0 <= x < dest_cols sh dest -> 0 <= y < dest_rows sh dest ->
     0 <= p < planes src -> 0 <= a < Sep.size kernel -> is_Some (pix src (x + a) y p)) ->
  exists dest', Sep.convolve_1d zero add times src sh dest kernel = Some dest' /\
    same_extents dest dest' /\
    (forall x y p, 0 <= x < dest_cols sh dest -> 0 <= y < dest_rows sh dest ->
       0 <= p < planes src ->
       dest_get sh dest' x y p
       = Some (weighted_sum add times (length kernel) (reversed_weight kdflt kernel)
                 (fun a => default sdflt (pix src (x + a) y p)) 0 zero)) /\
    (forall x y p, dest_valid sh dest x y p -> planes src <= p ->
       dest_get sh dest' x y p = dest_get sh dest x y p).
Proof.
  intros Hwf Hp Hrd.
  destruct (convolve_1d_spec zero add times src sh dest kernel Hwf Hp Hrd)
    as (dest' & Hrun & _ & Hext & Hin & Hout).
  exists dest'. split_and!; try done.
  intros x y p Hx Hy Hpp. destruct (Hin x y p Hx Hy Hpp) as [_ ->].
  unfold correlate_1d_at_point.
  replace (Z.to_nat (Sep.size kernel)) with (length kernel) by (unfold Sep.size; lia).
  apply correlate_1d_loop_sum.
  - intros a Ha. rewrite advance_advance, deref_advance_origin. simpl.
    rewrite !Z.add_0_r, Z.add_0_l. apply is_Some_default.
    apply Hrd; try done; unfold Sep.size; lia.
  - intros a Ha. rewrite Z.add_0_l. apply reversed_weight_lookup. unfold Sep.size. lia.
Qed.
End RowPassValue.

Lemma convolve_1d_writes_reversed_sums_witness :
  let src := image_view (mkImage 3 1 1 [1; 2; 3]) in
  let dest := mkImage 2 1 2 [0; 0; 8; 9] in
  (iv_wf dest /\ 0 <= planes src <= iv_planes dest /\
   (forall x y p a, 0 <= x < dest_cols Direct dest -> 0 <= y < dest_rows Direct dest ->
      0 <= p < planes src -> 0 <= a < Sep.size [10; 100] -> is_Some (pix src (x + a) y p))) /\
  exists dest', Sep.convolve_1d 0 Z.add Z.mul src Direct dest [10; 100] = Some dest' /\
    dest' = mkImage 2 1 2 [100 * 1 + 10 * 2; 100 * 2 + 10 * 3; 8; 9].
Proof.
  intros src dest.
  assert (iv_wf dest /\ 0 <= planes src <= iv_planes dest /\
   (forall x y p a, 0 <= x < dest_cols Direct dest -> 0 <= y < dest_rows Direct dest ->
      0 <= p < planes src -> 0 <= a < Sep.size [10; 100] -> is_Some (pix src (x + a) y p)))
    as Hyps.
  { split; [unfold iv_wf; simpl; lia|]. split; [simpl; lia|].
    intros x y p a Hx Hy Hp Ha. simpl in *. apply iv_get_valid.
    - unfold iv_wf. simpl. lia.
    - unfold iv_valid, Sep.size in *. simpl in *. lia. }
  split; [exact Hyps|]. destruct Hyps as (H1 & H2 & H3).
  destruct (convolve_1d_writes_reversed_sums 0 Z.add Z.mul 0 0 src Direct dest [10; 100]
              H1 H2 H3) as (dest' & Hrun & _).
  exists dest'. split; [exact Hrun|].
  vm_compute in Hrun. vm_compute. congruence.
Defined.

Section SepRasterMore.
Context {P K R : Type}.
Variable zero : R.
Variable add : R -> R -> R.
Variable mul : K -> P -> R.
Variable mulR : K -> R -> R.
Variable kmul : K -> K -> K.
Variable kone : K.
Variable promote : P -> R.
Variable pdflt : P.
Variable kdflt : K.
Variable rdflt : R.
Variable size_bits : Z.
Implicit Types (sv : Sep.SeparableConvolutionView (P:=P) (K:=K)).

(** X12. With weights on both axes and an image of two planes or more,
    [rasterize] on a rectangle that is not empty yields no raster: the
    intermediate buffer has one plane, and the row pass, which runs over
    the planes of the source, writes past it.  So does [prerasterize]. *)
Theorem two_pass_overruns_on_planes sv (dest : ImageView R) (bb : BBox2i) :
  Sep.m_i_kernel sv <> [] -> Sep.m_j_kernel sv <> [] ->
  2 <= planes (Sep.m_image sv) -> 1 <= width bb -> 1 <= height bb ->
  Sep.rasterize zero add mul mulR promote pdflt rdflt sv dest bb = None /\
  Sep.prerasterize zero add mul mulR promote pdflt rdflt sv bb = None.
Proof.
  intros Hi Hj Hpl Hw Hh.
  assert (forall d, Sep.rasterize zero add mul mulR promote pdflt rdflt sv d bb = None) as H.
  { intros d. pose proof (size_pos _ Hi) as Hni. pose proof (size_pos _ Hj) as Hnj.
    unfold Sep.rasterize.
    destruct (Z.eqb_spec (Sep.size (Sep.m_i_kernel sv)) 0) as [E0|_]; [lia|].
    destruct (Z.ltb_spec 0 (Sep.size (Sep.m_i_kernel sv))) as [_|L]; [|lia].
    destruct (Z.ltb_spec 0 (Sep.size (Sep.m_j_kernel sv))) as [_|L]; [|lia].
    cbn [andb].
    destruct (materialize id pdflt _) as [src|] eqn:Hsrc; [|done].
    cbn [mbind option_bind].
    destruct (materialize_shape _ _ _ _ Hsrc) as (_ & _ & _ & Hps). simpl in Hps.
    destruct (new_image rdflt (width bb) (height (Sep.child_bbox sv bb)) 1)
      as [work|] eqn:Hwork; [|done].
    cbn [mbind option_bind].
    destruct (new_image_wf _ _ _ _ _ Hwork) as (Hwfw & Hcw & Hrw & Hpw).
    rewrite child_bbox_height in Hrw. unfold halo in Hrw.
    destruct (Z.eqb_spec (Sep.size (Sep.m_j_kernel sv)) 0) as [E0|_]; [lia|].
    rewrite convolve_1d_overrun; simpl; try done; lia. }
  split; [apply H|].
  unfold Sep.prerasterize. destruct (new_image rdflt _ _ _); [|done]. apply H.
Qed.
End SepRasterMore.

Lemma two_pass_overruns_on_planes_witness :
  let image := image_view (mkImage 1 1 2 [5; 7]) in
  let sv := Sep.make_at image [1] [1] 0 0 (ZeroEdgeExtension 0) in
  (Sep.m_i_kernel sv <> [] /\ Sep.m_j_kernel sv <> [] /\ 2 <= planes (Sep.m_image sv) /\
   1 <= width (bbox 0 0 1 1) /\ 1 <= height (bbox 0 0 1 1)) /\
  Sep.rasterize 0 Z.add Z.mul Z.mul id 0 0 sv (ones 1 1 2) (bbox 0 0 1 1) = None /\
  Sep.prerasterize 0 Z.add Z.mul Z.mul id 0 0 sv (bbox 0 0 1 1) = None.
Proof.
  intros image sv.
  assert (Sep.m_i_kernel sv <> [] /\ Sep.m_j_kernel sv <> [] /\
          2 <= planes (Sep.m_image sv) /\
          1 <= width (bbox 0 0 1 1) /\ 1 <= height (bbox 0 0 1 1)) as Hyps.
  { split; [discriminate|]. split; [discriminate|]. vm_compute. intuition congruence. }
  split; [exact Hyps|]. destruct Hyps as (H1 & H2 & H3 & H4 & H5).
  exact (two_pass_overruns_on_planes 0 Z.add Z.mul Z.mul id 0 0 sv (ones 1 1 2)
           (bbox 0 0 1 1) H1 H2 H3 H4 H5).
Defined.

Section SepTiles.
Context {P K R : Type}.
Variable zero : R.
Variable add : R -> R -> R.
Variable mul : K -> P -> R.
Variable mulR : K -> R -> R.
Variable promote : P -> R.
Variable pdflt : P.
Variable kdflt : K.
Variable rdflt : R.
Implicit Types (sv : Sep.SeparableConvolutionView (P:=P) (K:=K)).


(** A raster of the separable view tabulates one function of the image
    coordinates, the same for every rectangle and every destination. *)
Lemma sep_rasterize_absolute sv :
  extended_defined (Sep.m_edge sv) (Sep.m_image sv) ->
  (Sep.m_i_kernel sv <> [] -> Sep.m_j_kernel sv <> [] -> planes (Sep.m_image sv) = 1) ->
  exists f : Z -> Z -> Z -> R,
    forall (dest : ImageView R) bb,
      iv_wf dest -> iv_cols dest = width bb -> iv_rows dest = height bb ->
      iv_planes dest = planes (Sep.m_image sv) ->
      exists dest',
        Sep.rasterize zero add mul mulR promote pdflt rdflt sv dest bb = Some dest' /\
        iv_wf dest' /\ same_extents dest dest' /\
        forall x y p, iv_valid dest x y p ->
          iv_get dest' x y p = Some (f (min_x bb + x) (min_y bb + y) p).
Proof.
  intros Hdef Hpl.
  destruct (Sep.m_i_kernel sv) as [|wi ik'] eqn:Ei;
    destruct (Sep.m_j_kernel sv) as [|wj jk'] eqn:Ej.
  - exists (fun x y p =>
              default rdflt (promote <$> extend (Sep.m_edge sv) (Sep.m_image sv) x y p)).
    intros dest bb Hwf Hc Hr Hp.
    destruct (sep_rasterize_neither zero add mul mulR promote pdflt rdflt sv dest bb)
      as (_ & dest' & Hrun & Hwf' & Hext & Hget); try done.
    exists dest'. split_and!; try done.
    intros x y p Hv. destruct (Hget x y p Hv) as [HS Heq].
    rewrite <- Heq. by apply is_Some_default.
  - exists (fun x y p => default rdflt (column_filtered zero add mul sv x y p)).
    intros dest bb Hwf Hc Hr Hp.
    destruct (sep_rasterize_columns zero add mul mulR promote pdflt rdflt sv dest bb)
      as (dest' & Hrun & Hwf' & Hext & Hget); try done.
    { by rewrite Ej. }
    exists dest'. split_and!; try done.
    intros x y p Hv. destruct (Hget x y p Hv) as [HS Heq].
    rewrite <- Heq. by apply is_Some_default.
  - exists (fun x y p => default rdflt (row_filtered zero add mul sv x y p)).
    intros dest bb Hwf Hc Hr Hp.
    destruct (sep_rasterize_rows zero add mul mulR promote pdflt rdflt sv dest bb)
      as (dest' & Hrun & Hwf' & Hext & Hget); try done.
    { by rewrite Ei. }
    exists dest'. split_and!; try done.
    intros x y p Hv. destruct (Hget x y p Hv) as [HS Heq].
    rewrite <- Heq. by apply is_Some_default.
  - assert (planes (Sep.m_image sv) = 1) as Hone by (by apply Hpl).
    exists (two_pass_value zero add mul mulR pdflt kdflt (Sep.m_image sv) (Sep.m_edge sv)
              (Sep.m_i_kernel sv) (Sep.m_j_kernel sv) (Sep.m_ci sv) (Sep.m_cj sv)).
    intros dest bb Hwf Hc Hr Hp.
    destruct (sep_rasterize_two_pass zero add mul mulR promote pdflt kdflt rdflt sv dest bb)
      as (dest' & Hrun & Hwf' & Hext & Hget);
      try done; try congruence.
    by exists dest'.
Qed.

(** X13. With weights on both axes, on an image of one plane, every
    pixel of the raster of the separable view is the sum, over the column
    factors, of the factor times the row sum of its row, a row sum being
    the sum, over the row factors, of the factor times the pixel of the
    edge-extended image: the two passes as the code runs them, under no
    law of arithmetic. *)
Theorem rasterize_is_two_pass_sum sv (dest : ImageView R) (bb : BBox2i) :
  Sep.m_i_kernel sv <> [] -> Sep.m_j_kernel sv <> [] ->
  extended_defined (Sep.m_edge sv) (Sep.m_image sv) ->
  planes (Sep.m_image sv) = 1 ->
  iv_wf dest -> iv_cols dest = width bb -> iv_rows dest = height bb ->
  iv_planes dest = 1 ->
  exists dest', Sep.rasterize zero add mul mulR promote pdflt rdflt sv dest bb = Some dest' /\
    same_extents dest dest' /\
    forall x y p, iv_valid dest x y p ->
      iv_get dest' x y p
      = Some (two_pass_value zero add mul mulR pdflt kdflt (Sep.m_image sv) (Sep.m_edge sv)
                (Sep.m_i_kernel sv) (Sep.m_j_kernel sv) (Sep.m_ci sv) (Sep.m_cj sv)
                (min_x bb + x) (min_y bb + y) p).
Proof.
  intros Hi Hj Hdef Hpl Hwf Hc Hr Hp.
  destruct (sep_rasterize_two_pass zero add mul mulR promote pdflt kdflt rdflt sv dest bb)
    as (dest' & Hrun & _ & Hext & Hget);
    try done.
  by exists dest'.
Qed.

(** X14. Rasterization of the separable view is consistent over tiles,
    under no law of arithmetic: the raster of a rectangle that lies in a
    larger one carries the values of the raster of the larger one (for an
    image of one plane when both axes have weights). *)
Theorem separable_rasterize_tiles sv (dest tdest : ImageView R) (bb tile : BBox2i) :
  extended_defined (Sep.m_edge sv) (Sep.m_image sv) ->
  (Sep.m_i_kernel sv <> [] -> Sep.m_j_kernel sv <> [] -> planes (Sep.m_image sv) = 1) ->
  iv_wf dest -> iv_cols dest = width bb -> iv_rows dest = height bb ->
  iv_planes dest = planes (Sep.m_image sv) ->
  iv_wf tdest -> iv_cols tdest = width tile -> iv_rows tdest = height tile ->
  iv_planes tdest = planes (Sep.m_image sv) ->
  inside tile bb ->
  exists whole part,
    Sep.rasterize zero add mul mulR promote pdflt rdflt sv dest bb = Some whole /\
    Sep.rasterize zero add mul mulR promote pdflt rdflt sv tdest tile = Some part /\
    forall x y p, iv_valid tdest x y p ->
      is_Some (iv_get part x y p) /\
      iv_get part x y p
      = iv_get whole (min_x tile - min_x bb + x) (min_y tile - min_y bb + y) p.
Proof.
  intros Hdef Hpl Hwf Hc Hr Hp Hwf' Hc' Hr' Hp' (Hx1 & Hx2 & Hy1 & Hy2).
  destruct (sep_rasterize_absolute sv Hdef Hpl) as [f Hf].
  destruct (Hf dest bb Hwf Hc Hr Hp) as (whole & Hrun & _ & _ & Hget).
  destruct (Hf tdest tile Hwf' Hc' Hr' Hp') as (part & Hrun' & _ & _ & Hget').
  exists whole, part. split_and!; try done.
  intros x y p (Hx & Hy & Hpp).
  rewrite Hget' by done. split; [by eexists|].
  rewrite Hget.
  - do 2 f_equal; lia.
  - unfold iv_valid, width, height in *. lia.
Qed.

(** X15. [prerasterize( bbox )] returns a buffer of the width and height
    of the rectangle and of the plane count of the image, and it is the
    raster that [rasterize] leaves in any destination of these extents,
    whatever the destination held before. *)
Theorem separable_prerasterize_is_raster sv (bb : BBox2i) :
  extended_defined (Sep.m_edge sv) (Sep.m_image sv) ->
  (Sep.m_i_kernel sv <> [] -> Sep.m_j_kernel sv <> [] -> planes (Sep.m_image sv) = 1) ->
  0 <= width bb -> 0 <= height bb -> 0 <= planes (Sep.m_image sv) ->
  exists buf,
    Sep.prerasterize zero add mul mulR promote pdflt rdflt sv bb = Some buf /\
    iv_wf buf /\ iv_cols buf = width bb /\ iv_rows buf = height bb /\
    iv_planes buf = planes (Sep.m_image sv) /\
    forall dest : ImageView R,
      iv_wf dest -> iv_cols dest = width bb -> iv_rows dest = height bb ->
      iv_planes dest = planes (Sep.m_image sv) ->
      Sep.rasterize zero add mul mulR promote pdflt rdflt sv dest bb = Some buf.
Proof.
  intros Hdef Hpl Hw Hh Hp.
  destruct (sep_rasterize_absolute sv Hdef Hpl) as [f Hf].
  unfold Sep.prerasterize.
  destruct (new_image_Some rdflt (width bb) (height bb) (planes (Sep.m_image sv)))
    as [d0 Hd0]; try done.
  destruct (new_image_wf _ _ _ _ _ Hd0) as (Hwf0 & Hc0 & Hr0 & Hp0).
  rewrite Hd0. cbn [mbind option_bind].
  destruct (Hf d0 bb Hwf0 Hc0 Hr0 Hp0) as (buf & Hrun & Hwfb & (Hcb & Hrb & Hpb) & Hget).
  exists buf. split_and!; try done; try congruence.
  intros dest Hwf Hc Hr Hpd.
  destruct (Hf dest bb Hwf Hc Hr Hpd) as (buf' & Hrun' & Hwfb' & (Hcb' & Hrb' & Hpb') & Hget').
  rewrite Hrun'. f_equal.
  apply buffer_ext; try done.
  - unfold same_extents. split_and!; congruence.
  - intros x y p (Hx & Hy & Hpp).
    rewrite Hget' by (unfold iv_valid; lia).
    rewrite Hget by (unfold iv_valid; lia). done.
Qed.
End SepTiles.

Lemma rasterize_is_two_pass_sum_witness :
  let image := image_view (mkImage 2 2 1 [1; 2; 3; 4]) in
  let E := ZeroEdgeExtension 0 in
  let sv := Sep.make_at image [10; 100] [1; 1000] 0 0 E in
  let dest := ones 1 1 1 in
  let bb := bbox 1 1 1 1 in
  (Sep.m_i_kernel sv <> [] /\ Sep.m_j_kernel sv <> [] /\
   extended_defined (Sep.m_edge sv) (Sep.m_image sv) /\ planes (Sep.m_image sv) = 1 /\
   iv_wf dest /\ iv_cols dest = width bb /\ iv_rows dest = height bb /\ iv_planes dest = 1) /\
  exists dest',
    Sep.rasterize 0 Z.add Z.mul Z.mul id 0 0 sv dest bb = Some dest' /\
    iv_get dest' 0 0 0
    = Some (two_pass_value 0 Z.add Z.mul Z.mul 0 0 image E [10; 100] [1; 1000] 0 0 1 1 0) /\
    two_pass_value 0 Z.add Z.mul Z.mul 0 0 image E [10; 100] [1; 1000] 0 0 1 1 0
    = 1000 * (100 * 1 + 10 * 2) + 1 * (100 * 3 + 10 * 4).
Proof.
  intros image E sv dest bb.
  assert (Sep.m_i_kernel sv <> [] /\ Sep.m_j_kernel sv <> [] /\
   extended_defined (Sep.m_edge sv) (Sep.m_image sv) /\ planes (Sep.m_image sv) = 1 /\
   iv_wf dest /\ iv_cols dest = width bb /\ iv_rows dest = height bb /\ iv_planes dest = 1)
    as Hyps.
  { split; [discriminate|]. split; [discriminate|].
    split; [apply zero_extended_defined; unfold iv_wf; simpl; lia|].
    split; [reflexivity|]. split; [apply ones_wf; lia|]. by split_and!. }
  split; [exact Hyps|]. destruct Hyps as (H1 & H2 & H3 & H4 & H5 & H6 & H7 & H8).
  destruct (rasterize_is_two_pass_sum 0 Z.add Z.mul Z.mul id 0 0 0 sv dest bb
              H1 H2 H3 H4 H5 H6 H7 H8) as (dest' & Hrun & _ & Hget).
  exists dest'. split; [exact Hrun|]. split; [|reflexivity].
  apply (Hget 0 0 0). unfold iv_valid. simpl. lia.
Defined.

Lemma separable_rasterize_tiles_witness :
  let image := image_view (ones 5 5 1) in
  let sv := Sep.make_at image [1; 2; 3] [1; 1; 1] 1 1 (ZeroEdgeExtension 0) in
  let dest := ones 5 5 1 in
  let tdest := ones 2 2 1 in
  let bb := bbox 0 0 5 5 in
  let tile := bbox 3 3 2 2 in
  (extended_defined (Sep.m_edge sv) (Sep.m_image sv) /\
   (Sep.m_i_kernel sv <> [] -> Sep.m_j_kernel sv <> [] -> planes (Sep.m_image sv) = 1) /\
   (iv_wf dest /\ iv_cols dest = width bb /\ iv_rows dest = height bb /\
    iv_planes dest = planes (Sep.m_image sv)) /\
   (iv_wf tdest /\ iv_cols tdest = width tile /\ iv_rows tdest = height tile /\
    iv_planes tdest = planes (Sep.m_image sv)) /\
   inside tile bb) /\
  exists whole part,
    Sep.rasterize 0 Z.add Z.mul Z.mul id 0 0 sv dest bb = Some whole /\
    Sep.rasterize 0 Z.add Z.mul Z.mul id 0 0 sv tdest tile = Some part /\
    part = mkImage 2 2 1 [18; 15; 12; 10] /\
    forall x y p, iv_valid tdest x y p ->
      is_Some (iv_get part x y p) /\
      iv_get part x y p = iv_get whole (3 - 0 + x) (3 - 0 + y) p.
Proof.
  intros image sv dest tdest bb tile.
  assert (extended_defined (Sep.m_edge sv) (Sep.m_image sv) /\
   (Sep.m_i_kernel sv <> [] -> Sep.m_j_kernel sv <> [] -> planes (Sep.m_image sv) = 1) /\
   (iv_wf dest /\ iv_cols dest = width bb /\ iv_rows dest = height bb /\
    iv_planes dest = planes (Sep.m_image sv)) /\
   (iv_wf tdest /\ iv_cols tdest = width tile /\ iv_rows tdest = height tile /\
    iv_planes tdest = planes (Sep.m_image sv)) /\
   inside tile bb) as Hyps.
  { split; [apply ones_extended_defined; lia|]. split; [reflexivity|].
    split; [split; [apply ones_wf; lia|by split_and!]|].
    split; [split; [apply ones_wf; lia|by split_and!]|].
    unfold inside. simpl. lia. }
  split; [exact Hyps|].
  destruct Hyps as (H1 & H2 & (H3 & H4 & H5 & H6) & (H7 & H8 & H9 & H10) & H11).
  destruct (separable_rasterize_tiles 0 Z.add Z.mul Z.mul id 0 0 0 sv dest tdest bb tile
              H1 H2 H3 H4 H5 H6 H7 H8 H9 H10 H11) as (whole & part & Hw & Hp & Hget).
  exists whole, part. split; [exact Hw|]. split; [exact Hp|].
  split; [vm_compute in Hp; congruence|exact Hget].
Defined.

Lemma separable_prerasterize_is_raster_witness :
  let image := image_view (ones 5 5 1) in
  let sv := Sep.make_at image [1; 2; 3] [1; 1; 1] 1 1 (ZeroEdgeExtension 0) in
  let bb := bbox 3 3 2 2 in
  (extended_defined (Sep.m_edge sv) (Sep.m_image sv) /\
   (Sep.m_i_kernel sv <> [] -> Sep.m_j_kernel sv <> [] -> planes (Sep.m_image sv) = 1) /\
   0 <= width bb /\ 0 <= height bb /\ 0 <= planes (Sep.m_image sv)) /\
  Sep.prerasterize 0 Z.add Z.mul Z.mul id 0 0 sv bb = Some (mkImage 2 2 1 [18; 15; 12; 10]) /\
  Sep.rasterize 0 Z.add Z.mul Z.mul id 0 0 sv (mkImage 2 2 1 [7; 7; 7; 7]) bb
  = Some (mkImage 2 2 1 [18; 15; 12; 10]).
Proof.
  intros image sv bb.
  assert (extended_defined (Sep.m_edge sv) (Sep.m_image sv) /\
   (Sep.m_i_kernel sv <> [] -> Sep.m_j_kernel sv <> [] -> planes (Sep.m_image sv) = 1) /\
   0 <= width bb /\ 0 <= height bb /\ 0 <= planes (Sep.m_image sv)) as Hyps.
  { split; [apply ones_extended_defined; lia|]. split; [reflexivity|].
    vm_compute. intuition congruence. }
  split; [exact Hyps|]. destruct Hyps as (H1 & H2 & H3 & H4 & H5).
  destruct (separable_prerasterize_is_raster 0 Z.add Z.mul Z.mul id 0 0 0 sv bb
              H1 H2 H3 H4 H5) as (buf & Hpre & _ & _ & _ & _ & Hall).
  assert (buf = mkImage 2 2 1 [18; 15; 12; 10]) as -> by (vm_compute in Hpre; congruence).
  split; [exact Hpre|].
  apply Hall; [unfold iv_wf; simpl; lia|reflexivity|reflexivity|reflexivity].
Defined.

(** ** The origin of the separable view *)

Section SepOrigin.
Context {P K R : Type}.
Variable zero : R.
Variable add : R -> R -> R.
Variable mul : K -> P -> R.
Variable mulR : K -> R -> R.
Variable kmul : K -> K -> K.
Variable kone : K.
Variable promote : P -> R.
Variable pdflt : P.
Variable kdflt : K.
Variable rdflt : R.
Variable size_bits : Z.
Implicit Types (sv : Sep.SeparableConvolutionView (P:=P) (K:=K)).

Lemma sep_call_origin_i (image : View P) (jk : list K) (ci ci' cj : Z)
    (E : EdgePolicy P) (x y p : Z) :
  fst <$> Sep.call zero add mul kmul kone kdflt size_bits
            (Sep.make_at image [] jk ci cj E) x y p
  = fst <$> Sep.call zero add mul kmul kone kdflt size_bits
              (Sep.make_at image [] jk ci' cj E) x y p.
Proof.
  unfold Sep.call, Sep.make_at. simpl. unfold Sep.generate2DKernel. simpl.
  destruct (Sep.kernel2d_of kmul kone kdflt [] jk) as [k2|]; simpl; [|done].
  unfold Sep.interior, Sep.fast_path, Sep.slow_path, Sep.margin_i, Sep.margin_j. simpl.
  rewrite !margin_empty.
  destruct (_ && _); destruct (correlate_2d_at_point _ _ _ _ _ _ _); done.
Qed.

Lemma sep_call_origin_j (image : View P) (ik : list K) (ci cj cj' : Z)
    (E : EdgePolicy P) (x y p : Z) :
  fst <$> Sep.call zero add mul kmul kone kdflt size_bits
            (Sep.make_at image ik [] ci cj E) x y p
  = fst <$> Sep.call zero add mul kmul kone kdflt size_bits
              (Sep.make_at image ik [] ci cj' E) x y p.
Proof.
  unfold Sep.call, Sep.make_at. simpl. unfold Sep.generate2DKernel. simpl.
  destruct (Sep.kernel2d_of kmul kone kdflt ik []) as [k2|]; simpl; [|done].
  unfold Sep.interior, Sep.fast_path, Sep.slow_path, Sep.margin_i, Sep.margin_j. simpl.
  rewrite !margin_empty.
  destruct (_ && _); destruct (correlate_2d_at_point _ _ _ _ _ _ _); done.
Qed.

(** X16. On an axis without weights the origin of the kernel is never
    used: two separable views that differ only by the origin on an axis
    whose factor sequence is empty have the same value at every
    coordinate and rasterize every rectangle alike. *)
Theorem origin_unused_on_empty_axis (image : View P) (k : list K)
    (ci cj c' : Z) (E : EdgePolicy P) :
  (forall x y p,
     fst <$> Sep.call zero add mul kmul kone kdflt size_bits
               (Sep.make_at image [] k ci cj E) x y p
     = fst <$> Sep.call zero add mul kmul kone kdflt size_bits
                 (Sep.make_at image [] k c' cj E) x y p) /\
  (forall x y p,
     fst <$> Sep.call zero add mul kmul kone kdflt size_bits
               (Sep.make_at image k [] ci cj E) x y p
     = fst <$> Sep.call zero add mul kmul kone kdflt size_bits
                 (Sep.make_at image k [] ci c' E) x y p) /\
  (forall (dest : ImageView R) (bb : BBox2i),
     Sep.rasterize zero add mul mulR promote pdflt rdflt
       (Sep.make_at image [] k ci cj E) dest bb
     = Sep.rasterize zero add mul mulR promote pdflt rdflt
         (Sep.make_at image [] k c' cj E) dest bb) /\
  (forall (dest : ImageView R) (bb : BBox2i),
     Sep.rasterize zero add mul mulR promote pdflt rdflt
       (Sep.make_at image k [] ci cj E) dest bb
     = Sep.rasterize zero add mul mulR promote pdflt rdflt
         (Sep.make_at image k [] ci c' E) dest bb).
Proof.
  split_and!.
  - intros x y p. apply sep_call_origin_i.
  - intros x y p. apply sep_call_origin_j.
  - intros dest bb. reflexivity.
  - intros dest bb. unfold Sep.rasterize, Sep.child_bbox. simpl.
    rewrite !andb_false_r. reflexivity.
Qed.

(** X17. The constructors that omit the origin agree: at every
    coordinate, the separable view with the default origin has the value
    of the full view with the default origin over the outer-product
    kernel, for factor sequences of any length that an [int32] holds, the
    empty one included. *)
Theorem centered_separable_matches_centered_full (image : View P) (ik jk : list K)
    (E : EdgePolicy P) (x y p : Z) :
  32 <= size_bits -> Sep.size ik < 2 ^ 31 -> Sep.size jk < 2 ^ 31 ->
  fst <$> Sep.call zero add mul kmul kone kdflt size_bits
            (Sep.make_centered size_bits image ik jk E) x y p
  = Conv.call zero add mul
      (Conv.make_centered image (outer_product kmul kone ik jk) E) x y p.
Proof.
  intros Hw Hi Hj.
  set (c := fun k : list K => (Sep.extent k - 1) / 2).
  assert (forall k : list K, Sep.size k < 2 ^ 31 -> origin_ok k (c k)) as Hok.
  { intros k Hk. unfold c. destruct k as [|w k]; [reflexivity|].
    rewrite extent_nonempty by done. unfold origin_ok, origin_fits.
    pose proof (size_pos (w :: k) ltac:(done)) as Hpos.
    assert (0 <= (Sep.size (w :: k) - 1) / 2) by (apply Z.div_pos; lia).
    assert ((Sep.size (w :: k) - 1) / 2 <= Sep.size (w :: k) - 1)
      by (apply Z.div_le_upper_bound; lia).
    lia. }
  assert (forall k : list K, k <> [] -> Sep.size k < 2 ^ 31 ->
            Sep.center size_bits k = c k) as Hcen.
  { intros k Hne Hk. unfold c. rewrite extent_nonempty by done.
    apply center_nonempty; [done|]. pose proof (size_pos k Hne). lia. }
  assert (fst <$> Sep.call zero add mul kmul kone kdflt size_bits
                    (Sep.make_centered size_bits image ik jk E) x y p
          = fst <$> Sep.call zero add mul kmul kone kdflt size_bits
                      (Sep.make_at image ik jk (c ik) (c jk) E) x y p) as ->.
  { unfold Sep.make_centered.
    change (Sep.mkSeparableConvolutionView image ik jk ?a ?b E Sep.no_image)
      with (Sep.make_at image ik jk a b E).
    destruct ik as [|wi ik'].
    - rewrite (sep_call_origin_i image jk _ (c []) _ E).
      destruct jk as [|wj jk'].
      + apply sep_call_origin_j.
      + by rewrite Hcen.
    - rewrite (Hcen (wi :: ik')) by done.
      destruct jk as [|wj jk'].
      + apply sep_call_origin_j.
      + by rewrite Hcen. }
  rewrite (sep_call_full zero add mul kmul kone kdflt size_bits); simpl;
    [|by left|done|by apply Hok|by apply Hok].
  unfold Conv.make_centered, Conv.make_at. simpl. unfold c.
  pose proof (extent_pos ik). pose proof (extent_pos jk).
  by rewrite !Z.quot_div_nonneg by lia.
Qed.
End SepOrigin.

Lemma centered_separable_matches_centered_full_witness :
  let image := image_view (ones 5 5 1) in
  let E := ZeroEdgeExtension 0 in
  (32 <= 64 /\ Sep.size [1; 2; 3] < 2 ^ 31 /\ Sep.size (K:=Z) [] < 2 ^ 31) /\
  fst <$> Sep.call 0 Z.add Z.mul Z.mul 1 0 64 (Sep.make_centered 64 image [1; 2; 3] [] E) 0 2 0
  = Conv.call 0 Z.add Z.mul
      (Conv.make_centered image (outer_product Z.mul 1 [1; 2; 3] []) E) 0 2 0 /\
  Conv.call 0 Z.add Z.mul
    (Conv.make_centered image (outer_product Z.mul 1 [1; 2; 3] []) E) 0 2 0 = Some 3.
Proof.
  intros image E.
  assert (32 <= 64 /\ Sep.size [1; 2; 3] < 2 ^ 31 /\ Sep.size (K:=Z) [] < 2 ^ 31) as Hyps.
  { vm_compute. intuition congruence. }
  split; [exact Hyps|]. destruct Hyps as (H1 & H2 & H3).
  split; [|reflexivity].
  exact (centered_separable_matches_centered_full 0 Z.add Z.mul Z.mul 1 0 64
           image [1; 2; 3] [] E 0 2 0 H1 H2 H3).
Defined.
